(** * FreeAge client: connection time synchronisation and unit animation

    A shallow embedding of [src/FreeAge/client/server_connection.hpp] and of
    [src/FreeAge/client/unit.cpp]: the animation loop of
    [ClientUnit::Render], the other member functions of [ClientUnit], and
    [ClientUnitType].

    C++ [double] and [float] values are IEEE 754 binary64 and binary32
    numbers.  They are modelled with the executable specification of the
    Standard Library ([SpecFloat]): every operation rounds to nearest, ties
    to even, and NaN, infinities and signed zeros are values like any
    other. *)

From Stdlib Require Import ZArith NArith List Lia Bool.
From Stdlib Require Import Strings.Byte.
From Stdlib Require Strings.String.
From Stdlib Require Import Floats.SpecFloat.
Import ListNotations.
Import String.StringSyntax.

Local Open Scope Z_scope.
Delimit Scope string_scope with string.

(** * Part I: the model *)

(** ** binary64 arithmetic: the C++ type [double] *)

Module Double.

Definition prec : Z := 53.
Definition emax : Z := 1024.

Definition double : Type := spec_float.

Definition add : double -> double -> double := SFadd prec emax.
Definition sub : double -> double -> double := SFsub prec emax.
Definition mul : double -> double -> double := SFmul prec emax.
Definition div : double -> double -> double := SFdiv prec emax.

(** [x < y], [x <= y]: false as soon as one side is NaN. *)
Definition ltb : double -> double -> bool := SFltb.
Definition leb : double -> double -> bool := SFleb.

(** Conversion of an integer to [double], as the implicit conversions
    [usize -> double] and [int -> double] do it. *)
Definition of_Z (n : Z) : double := binary_normalize prec emax n 0 false.

Definition zero : double := S754_zero false.
Definition nan : double := S754_nan.

(** The decimal literal [m * 10^-k], correctly rounded: both operands of the
    division are exact for the literals used in this file. *)
Definition dec (m : Z) (k : Z) : double := div (of_Z m) (of_Z (10 ^ k)).

Definition is_nan (x : double) : bool :=
  match x with S754_nan => true | _ => false end.

Definition is_zero (x : double) : bool :=
  match x with S754_zero _ => true | _ => false end.

(** [std::min(a, b)] is [(b < a) ? b : a]. *)
Definition min (a b : double) : double := if ltb b a then b else a.

(** [static_cast<int>(x)]: the value truncated toward zero.  The conversion
    is undefined ([None]) when the truncated value is no [int], and for
    infinities and NaN. *)
Definition to_int (x : double) : option Z :=
  match x with
  | S754_zero _ => Some 0
  | S754_finite s m e =>
      let t := match e with
               | Zneg k => Z.quot (cond_Zopp s (Zpos m)) (2 ^ Zpos k)
               | _ => cond_Zopp s (Zpos m) * 2 ^ e
               end in
      if (- 2 ^ 31 <=? t) && (t <? 2 ^ 31) then Some t else None
  | _ => None
  end.

(** The value of a [float] as a [double] (exact). *)
Definition of_float (x : spec_float) : double :=
  match x with
  | S754_finite s m e => binary_normalize prec emax (cond_Zopp s (Zpos m)) e false
  | _ => x
  end.

End Double.

(** ** binary32 arithmetic: the C++ type [float] *)

Module Single.

Definition prec : Z := 24.
Definition emax : Z := 128.

Definition float : Type := spec_float.

Definition div : float -> float -> float := SFdiv prec emax.

(** Conversion [int -> float]. *)
Definition of_Z (n : Z) : float := binary_normalize prec emax n 0 false.

Definition add : float -> float -> float := SFadd prec emax.

(** [static_cast<int>(x)], and the implicit conversion of a returned
    [float] to [int]: the value truncated toward zero, undefined ([None])
    when the truncated value is no [int], and for infinities and NaN. *)
Definition to_int (x : float) : option Z :=
  match x with
  | S754_zero _ => Some 0
  | S754_finite s m e =>
      let t := match e with
               | Zneg k => Z.quot (cond_Zopp s (Zpos m)) (2 ^ Zpos k)
               | _ => cond_Zopp s (Zpos m) * 2 ^ e
               end in
      if (- 2 ^ 31 <=? t) && (t <? 2 ^ 31) then Some t else None
  | _ => None
  end.

End Single.

Abbreviation double := Double.double.

(** ** ServerConnection *)

Module ServerConnection.

(** A [TimePoint] of the monotonic clock, in clock ticks of one
    millisecond. *)
Definition TimePoint : Type := Z.

(** The data members of [class ServerConnection] (the socket and the timer
    are devices, see [World] below). *)
Record Connection := mkConnection {
  unparsedReceivedBuffer : list byte;
  connectionToServerLost : bool;
  connectionStartTime : TimePoint;
  lastTimeOffsets : list double;
  lastPings : list double;
  lastPingResponseTime : TimePoint;
  sentPings : list (Z * TimePoint);
  nextPingNumber : Z
}.

(** *** [EstimateCurrentPingAndOffset] *)

(** The loop [for (usize i = 0; i < lastTimeOffsets.size(); ++ i)], with [n]
    the number of iterations left.  Reading a vector out of range is
    undefined behaviour, modelled as [None]. *)
Fixpoint estimate_loop (c : Connection) (n i : nat) (offsetSum pingSum : double)
  : option (double * double) :=
  match n with
  | O => Some (offsetSum, pingSum)
  | S n' =>
      match nth_error (lastTimeOffsets c) i, nth_error (lastPings c) i with
      | Some o, Some p =>
          estimate_loop c n' (S i) (Double.add offsetSum o) (Double.add pingSum p)
      | _, _ => None
      end
  end.

(** The divisors of the two final divisions: the vector sizes, converted to
    [double]. *)
Definition offset_divisor (c : Connection) : double :=
  Double.of_Z (Z.of_nat (length (lastTimeOffsets c))).

Definition ping_divisor (c : Connection) : double :=
  Double.of_Z (Z.of_nat (length (lastPings c))).

(** The result is the pair [( *filteredPing, *filteredOffset )]. *)
Definition EstimateCurrentPingAndOffset (c : Connection) : option (double * double) :=
  match estimate_loop c (length (lastTimeOffsets c)) 0 Double.zero Double.zero with
  | Some (offsetSum, pingSum) =>
      Some (Double.div pingSum (ping_divisor c),
            Double.div offsetSum (offset_divisor c))
  | None => None
  end.

(** *** [GetDisplayedServerTime] *)

(** [constexpr double kSafetyMargin = 0.010] and the literal [0.5]. *)
Definition kSafetyMargin : double := Double.dec 10 3.
Definition one_half : double := Double.dec 5 1.

(** [clientTimeSeconds] is the value read off the clock,
    [SecondsDuration(Clock::now() - connectionStartTime).count()]. *)
Definition GetDisplayedServerTime (c : Connection) (clientTimeSeconds : double)
  : option double :=
  match EstimateCurrentPingAndOffset c with
  | Some (filteredPing, filteredOffset) =>
      let estimatedServerTimeNow := Double.add clientTimeSeconds filteredOffset in
      Some (Double.sub
              (Double.sub estimatedServerTimeNow (Double.mul one_half filteredPing))
              kSafetyMargin)
  | None => None
  end.

Definition ConnectionToServerLost (c : Connection) : bool := connectionToServerLost c.

(** *** [Write] *)

(** The socket and the log are the world the connection acts on.  What
    [socket.write] returns for a message (the number of bytes the transport
    accepted, or -1) is the transport's decision. *)
Inductive SocketCall : Type :=
| CallWrite (message : list byte)
| CallFlush.

Record LogLine := mkLogLine { log_result : Z; log_size : Z }.

Record World := mkWorld {
  write_returns : list byte -> Z;
  socket_calls : list SocketCall;
  error_log : list LogLine
}.

(** State passing over the world. *)
Definition IO (A : Type) : Type := World -> A * World.

Definition ret {A : Type} (a : A) : IO A := fun w => (a, w).

Definition bind {A B : Type} (m : IO A) (k : A -> IO B) : IO B :=
  fun w => let (a, w') := m w in k a w'.

Notation "x <- m ;; k" := (bind m (fun x => k))
  (at level 61, m at next level, right associativity).
Notation "m ;;; k" := (bind m (fun _ => k))
  (at level 61, right associativity).

Definition socket_write (message : list byte) : IO Z :=
  fun w => (write_returns w message,
            mkWorld (write_returns w) (socket_calls w ++ [CallWrite message]) (error_log w)).

Definition socket_flush : IO unit :=
  fun w => (tt, mkWorld (write_returns w) (socket_calls w ++ [CallFlush]) (error_log w)).

Definition LOG_ERROR (result size : Z) : IO unit :=
  fun w => (tt, mkWorld (write_returns w) (socket_calls w) (error_log w ++ [mkLogLine result size])).

Definition Write (message : list byte) : IO unit :=
  result <- socket_write message ;;
  (if negb (result =? Z.of_nat (length message))
   then LOG_ERROR result (Z.of_nat (length message))
   else ret tt) ;;;
  socket_flush.

(** *** Signals *)

Inductive Signal : Type :=
| NewMessage (buffer : list byte) (msgType : N) (msgLength : N)
| NewPingMeasurement (milliseconds : Z)
| ConnectionLost.

(** What a slot does to the outside: it emits a signal or sends a probe. *)
Inductive Action : Type :=
| Emit (s : Signal)
| SendPing (number : Z) (sentAt : TimePoint).

(** *** The wire format and [TryParseMessages] *)

(** The widths of the two header fields, fixed and shared with the
    server. *)
Record WireFormat := mkWireFormat { typeBytes : nat; lengthBytes : nat }.

Definition headerSize (wf : WireFormat) : nat := (typeBytes wf + lengthBytes wf)%nat.

(** Little-endian value of a byte string. *)
Fixpoint le_decode (bs : list byte) : N :=
  match bs with
  | [] => 0%N
  | b :: bs' => (Byte.to_N b + 256 * le_decode bs')%N
  end.

(** Modelled from the spec: the body of [TryParseMessages] is in
    server_connection.cpp, which is not part of the sources at hand.  The
    loop extracts one full message from the front of the buffer as long as
    there is one: it stops when the buffer holds fewer bytes than a header,
    or fewer than the header and the payload length it declares; otherwise
    it raises one message-available event and removes the consumed bytes.
    [None]: the loop did not stop within [fuel] iterations. *)
Fixpoint parse_loop (wf : WireFormat) (fuel : nat) (buf : list byte)
  : option (list Signal * list byte) :=
  match fuel with
  | O => None
  | S fuel' =>
      if (length buf <? headerSize wf)%nat then Some ([], buf)
      else
        let msgType := le_decode (firstn (typeBytes wf) buf) in
        let msgLength := le_decode (firstn (lengthBytes wf) (skipn (typeBytes wf) buf)) in
        let total := (headerSize wf + N.to_nat msgLength)%nat in
        if (length buf <? total)%nat then Some ([], buf)
        else
          match parse_loop wf fuel' (skipn total buf) with
          | Some (evs, rest) =>
              Some (NewMessage (firstn (N.to_nat msgLength) (skipn (headerSize wf) buf))
                               msgType msgLength :: evs,
                    rest)
          | None => None
          end
  end.

Definition with_buffer (c : Connection) (buf : list byte) : Connection :=
  mkConnection buf (connectionToServerLost c) (connectionStartTime c)
               (lastTimeOffsets c) (lastPings c) (lastPingResponseTime c)
               (sentPings c) (nextPingNumber c).

(** Modelled from the spec: [TryParseMessages] (body absent, see
    [parse_loop]).  Every iteration but the last removes at least one byte
    when the header is not empty, so the buffer length bounds the number of
    iterations. *)
Definition TryParseMessages (wf : WireFormat) (c : Connection)
  : option (Connection * list Signal) :=
  match parse_loop wf (S (length (unparsedReceivedBuffer c))) (unparsedReceivedBuffer c) with
  | Some (evs, rest) => Some (with_buffer c rest, evs)
  | None => None
  end.

(** Modelled from the spec: the readable-data notification (absent from the
    sources) appends the received bytes to the buffer; with automatic
    parsing enabled it then runs [TryParseMessages]. *)
Definition OnReadyRead (wf : WireFormat) (chunk : list byte) (c : Connection)
  : option (Connection * list Signal) :=
  TryParseMessages wf (with_buffer c (unparsedReceivedBuffer c ++ chunk)).

(** The chunks of a byte stream, received one after the other. *)
Fixpoint receive_all (wf : WireFormat) (chunks : list (list byte)) (c : Connection)
  : option (Connection * list Signal) :=
  match chunks with
  | [] => Some (c, [])
  | chunk :: chunks' =>
      match OnReadyRead wf chunk c with
      | Some (c1, evs1) =>
          match receive_all wf chunks' c1 with
          | Some (c2, evs2) => Some (c2, evs1 ++ evs2)
          | None => None
          end
      | None => None
      end
  end.

(** *** The sample window *)

(** Modelled from the spec: the insertion into the sample window is done by
    [HandlePingResponseMessage], whose body is absent.  On each new sample
    the oldest one is evicted if the window is at capacity, and the new one
    is appended. *)
Definition AddSample {A : Type} (capacity : nat) (x : A) (window : list A) : list A :=
  (if (capacity <=? length window)%nat then tl window else window) ++ [x].

(** *** The ping slots *)

(** The tunables of the connection. *)
Record Config := mkConfig {
  noPingTimeout : Z;
  windowCapacity : nat
}.

Definition seconds_of_ms (ms : Z) : double := Double.div (Double.of_Z ms) (Double.of_Z 1000).

(** Modelled from the spec: [HandlePingResponseMessage] (body absent).  The
    response carries the echoed sequence number and the server's time stamp.
    The matching outstanding record is looked up by sequence number; if
    there is one, the round-trip time is the receive time minus the send
    time, all outstanding records with a sequence number up to the matched
    one are discarded, [lastPingResponseTime] becomes the receive time, the
    sample (round trip in milliseconds, as the data model of the
    specification has it, and offset
    [tS + roundTripSeconds/2 - localElapsedAtReceive]) enters the window,
    and the new measurement is signalled. *)
Definition HandlePingResponseMessage (cfg : Config) (number : Z) (serverTime : double)
  (receiveTime : TimePoint) (c : Connection) : Connection * list Action :=
  match find (fun r => fst r =? number) (sentPings c) with
  | None => (c, [])
  | Some (_, sentAt) =>
      let roundTripMs := receiveTime - sentAt in
      let roundTripSeconds := seconds_of_ms roundTripMs in
      let localElapsedAtReceive := seconds_of_ms (receiveTime - connectionStartTime c) in
      let offset :=
        Double.sub (Double.add serverTime (Double.div roundTripSeconds (Double.of_Z 2)))
                   localElapsedAtReceive in
      (mkConnection (unparsedReceivedBuffer c) (connectionToServerLost c)
                    (connectionStartTime c)
                    (AddSample (windowCapacity cfg) offset (lastTimeOffsets c))
                    (AddSample (windowCapacity cfg) (Double.of_Z roundTripMs) (lastPings c))
                    receiveTime
                    (filter (fun r => number <? fst r) (sentPings c))
                    (nextPingNumber c),
       [Emit (NewPingMeasurement roundTripMs)])
  end.

(** [u64] wrap-around of [++ nextPingNumber]. *)
Definition u64_succ (n : Z) : Z := (n + 1) mod 2 ^ 64.

(** Modelled from the spec: [PingAndCheckConnection] (body absent), run on
    each timer tick.  The timeout is checked first: when no response has
    been received for longer than the timeout since [lastPingResponseTime],
    the connection is marked lost and the connection-lost event is raised,
    once; no probe is sent on such a tick.  Otherwise the next probe is
    sent and recorded. *)
Definition PingAndCheckConnection (cfg : Config) (now : TimePoint) (c : Connection)
  : Connection * list Action :=
  if noPingTimeout cfg <? now - lastPingResponseTime c then
    if connectionToServerLost c then (c, [])
    else
      (mkConnection (unparsedReceivedBuffer c) true (connectionStartTime c)
                    (lastTimeOffsets c) (lastPings c) (lastPingResponseTime c)
                    (sentPings c) (nextPingNumber c),
       [Emit ConnectionLost])
  else
    (mkConnection (unparsedReceivedBuffer c) (connectionToServerLost c)
                  (connectionStartTime c) (lastTimeOffsets c) (lastPings c)
                  (lastPingResponseTime c)
                  (sentPings c ++ [(nextPingNumber c, now)])
                  (u64_succ (nextPingNumber c)),
     [SendPing (nextPingNumber c) now]).

(** Modelled from the spec: the state [ConnectToServer] leaves on success
    (body absent): the start time is recorded, nothing is outstanding, the
    window is empty, and the time of the last response starts at the
    connection start. *)
Definition connected (start : TimePoint) : Connection :=
  mkConnection [] false start [] [] start [] 0.

(** The events the connection reacts to after the connect. *)
Inductive Event : Type :=
| TimerTick (now : TimePoint)
| PingResponse (number : Z) (serverTime : double) (receiveTime : TimePoint).

Definition step (cfg : Config) (c : Connection) (e : Event) : Connection * list Action :=
  match e with
  | TimerTick now => PingAndCheckConnection cfg now c
  | PingResponse number serverTime receiveTime =>
      HandlePingResponseMessage cfg number serverTime receiveTime c
  end.

Fixpoint run (cfg : Config) (c : Connection) (es : list Event) : Connection * list Action :=
  match es with
  | [] => (c, [])
  | e :: es' =>
      let (c1, out1) := step cfg c e in
      let (c2, out2) := run cfg c1 es' in
      (c2, out1 ++ out2)
  end.

(** How often the connection-lost event was raised. *)
Definition is_ConnectionLost (a : Action) : bool :=
  match a with Emit ConnectionLost => true | _ => false end.

Definition lost_events (out : list Action) : nat :=
  length (filter is_ConnectionLost out).

End ServerConnection.

(** ** ClientUnit: the animation update of [Render] *)

Module ClientUnit.

(** The data members of [ClientUnit] that the update reads and writes. *)
Record Unit := mkUnit {
  currentAnimationVariant : Z;
  lastAnimationStartTime : double
}.

(** [float framesPerSecond = 30.f] and the literal [0.5f]. *)
Definition framesPerSecond : Single.float := Single.of_Z 30.
Definition half_f : Single.float := Single.div (Single.of_Z 1) (Single.of_Z 2).

(** [std::max(0, static_cast<int>(framesPerSecond * (serverTime -
    lastAnimationStartTime) + 0.5f))]: the [float] operands are converted to
    [double], the arithmetic is done in [double]. *)
Definition frame_at (serverTime last : double) : option Z :=
  match Double.to_int
          (Double.add (Double.mul (Double.of_float framesPerSecond)
                                  (Double.sub serverTime last))
                      (Double.of_float half_f)) with
  | Some n => Some (Z.max 0 n)
  | None => None
  end.

(** [framesPerDirection / framesPerSecond]: the [int] is converted to
    [float], the division is done in [float]; the sum with the [double] is
    done in [double]. *)
Definition animation_length (framesPerDirection : Z) : double :=
  Double.of_float (Single.div (Single.of_Z framesPerDirection) framesPerSecond).

Inductive LoopResult : Type :=
| Finished (frame : Z) (u : Unit)   (* the loop was left through [break] *)
| Undefined                         (* undefined behaviour was reached *)
| Running (u : Unit).               (* still in the loop after the given number of iterations *)

(** The [while (true)] loop.  [rand k] is the value of the [k]-th call of
    [rand()], [numVariants] is [unitType.GetAnimations(currentAnimation).size()],
    [fuel] bounds the number of iterations run. *)
Fixpoint animation_loop (fuel : nat) (framesPerDirection numVariants : Z)
  (rand : nat -> Z) (serverTime : double) (k : nat) (u : Unit) : LoopResult :=
  match fuel with
  | O => Running u
  | S fuel' =>
      match frame_at serverTime (lastAnimationStartTime u) with
      | None => Undefined
      | Some frame =>
          if frame <? framesPerDirection then Finished frame u
          else
            let last' :=
              Double.min serverTime
                (Double.add (lastAnimationStartTime u) (animation_length framesPerDirection)) in
            if currentAnimationVariant u =? 1 then
              animation_loop fuel' framesPerDirection numVariants rand serverTime k
                             (mkUnit 0 last')
            else if numVariants =? 0 then Undefined
            else
              animation_loop fuel' framesPerDirection numVariants rand serverTime (S k)
                             (mkUnit (Z.rem (rand k) numVariants) last')
      end
  end.

(** [Render], from the lookup of the sprite to the end of the loop (what
    follows computes the frame index and draws).  [animation] lists
    [sprite.NumFrames()] for every variant of the current animation;
    [kNumFacingDirections] is a constant of a header that is not part of
    the sources at hand. *)
Definition Render (fuel : nat) (kNumFacingDirections : Z) (animation : list Z)
  (rand : nat -> Z) (serverTime : double) (u : Unit) : LoopResult :=
  if currentAnimationVariant u <? 0 then Undefined
  else
    match nth_error animation (Z.to_nat (currentAnimationVariant u)) with
    | None => Undefined
    | Some numFrames =>
        if kNumFacingDirections =? 0 then Undefined
        else
          let framesPerDirection := Z.quot numFrames kNumFacingDirections in
          let u0 :=
            if Double.ltb (lastAnimationStartTime u) Double.zero
            then mkUnit (currentAnimationVariant u) serverTime
            else u in
          animation_loop fuel framesPerDirection (Z.of_nat (length animation))
                         rand serverTime 0 u0
    end.

(** ** ClientUnit: the other member functions of [unit.cpp] *)

(** The arithmetic of [int]: a result outside the type is undefined
    behaviour ([None]). *)
Definition int_result (z : Z) : option Z :=
  if (- 2 ^ 31 <=? z) && (z <? 2 ^ 31) then Some z else None.

(** The enumerations [UnitAnimation] and [UnitAction], as [unit.cpp] uses
    them.  [UnitAction.Other] stands for the enumerators of the header that
    [unit.cpp] never names. *)
Module UnitAnimation.

Inductive t : Type := Idle | Walk | Task.

Definition eqb (a b : t) : bool :=
  match a, b with
  | Idle, Idle | Walk, Walk | Task, Task => true
  | _, _ => false
  end.

End UnitAnimation.

Module UnitAction.

Inductive t : Type := Idle | Building | Other.

Definition eqb (a b : t) : bool :=
  match a, b with
  | Idle, Idle | Building, Building | Other, Other => true
  | _, _ => false
  end.

End UnitAction.

(** A sprite, as far as [unit.cpp] reads it: the frames, each with the
    layers [graphic] and [shadow], whose members are [int]. *)
Record Layer := mkLayer {
  centerX : Z;
  centerY : Z;
  imageWidth : Z;
  imageHeight : Z
}.

Record Frame := mkFrame { graphic : Layer; shadow : Layer }.

Definition Sprite : Type := list Frame.

(** [sprite.NumFrames()]. *)
Definition NumFrames (sprite : Sprite) : Z := Z.of_nat (length sprite).

(** [sprite.frame(i)]: reading outside the sprite is undefined. *)
Definition frame (sprite : Sprite) (i : Z) : option Frame :=
  if i <? 0 then None else nth_error sprite (Z.to_nat i).

(** [QPointF] and [QRectF]: coordinates of type [qreal], that is
    [double]. *)
Record QPointF := mkQPointF { xp : double; yp : double }.

Record QRectF := mkQRectF {
  rect_x : double;
  rect_y : double;
  rect_width : double;
  rect_height : double
}.

(** [p + q] and [c * p] on [QPointF], coordinate by coordinate. *)
Definition QPointF_add (p q : QPointF) : QPointF :=
  mkQPointF (Double.add (xp p) (xp q)) (Double.add (yp p) (yp q)).

Definition QPointF_scale (c : double) (p : QPointF) : QPointF :=
  mkQPointF (Double.mul (xp p) c) (Double.mul (yp p) c).

(** [QPointF(0, 0)]. *)
Definition QPointF_origin : QPointF := mkQPointF (Double.of_Z 0) (Double.of_Z 0).

(** *** [GetRectInProjectedCoords] *)

(** [direction * framesPerDirection + static_cast<int>(framesPerSecond *
    elapsedSeconds + 0.5f) % framesPerDirection].  The remainder has the
    sign of the dividend; a zero divisor is undefined, as is the one
    quotient that is no [int]. *)
Definition frameIndex_at (direction framesPerDirection : Z) (elapsedSeconds : double)
  : option Z :=
  match Double.to_int
          (Double.add (Double.mul (Double.of_float framesPerSecond) elapsedSeconds)
                      (Double.of_float half_f)) with
  | None => None
  | Some n =>
      if framesPerDirection =? 0 then None
      else if (n =? - 2 ^ 31) && (framesPerDirection =? -1) then None
      else
        match int_result (direction * framesPerDirection) with
        | None => None
        | Some base => int_result (base + Z.rem n framesPerDirection)
        end
  end.

(** [animation] holds the sprites of the variants of the current animation,
    [centerProjectedCoord] is what [GetCenterProjectedCoord(map)] returns,
    [direction] is the data member of that name. *)
Definition GetRectInProjectedCoords (kNumFacingDirections : Z) (animation : list Sprite)
  (centerProjectedCoord : QPointF) (direction : Z) (u : Unit)
  (elapsedSeconds : double) (shadow outline : bool) : option QRectF :=
  if currentAnimationVariant u <? 0 then None
  else
    match nth_error animation (Z.to_nat (currentAnimationVariant u)) with
    | None => None
    | Some sprite =>
        if kNumFacingDirections =? 0 then None
        else
          let framesPerDirection := Z.quot (NumFrames sprite) kNumFacingDirections in
          match frameIndex_at direction framesPerDirection elapsedSeconds with
          | None => None
          | Some frameIndex =>
              match frame sprite frameIndex with
              | None => None
              | Some (mkFrame graphicLayer shadowLayer) =>
                  let layer := if shadow then shadowLayer else graphicLayer in
                  let isGraphic := negb shadow && negb outline in
                  match int_result (imageWidth layer + (if isGraphic then -2 else 0)),
                        int_result (imageHeight layer + (if isGraphic then -2 else 0)) with
                  | Some width, Some height =>
                      Some (mkQRectF
                              (Double.add
                                 (Double.sub (xp centerProjectedCoord)
                                             (Double.of_Z (centerX layer)))
                                 (Double.of_Z (if isGraphic then 1 else 0)))
                              (Double.add
                                 (Double.sub (yp centerProjectedCoord)
                                             (Double.of_Z (centerY layer)))
                                 (Double.of_Z (if isGraphic then 1 else 0)))
                              (Double.of_Z width)
                              (Double.of_Z height))
                  | _, _ => None
                  end
              end
          end
    end.

(** [int frameIndex = direction * framesPerDirection + frame], the index
    [Render] hands to [DrawSprite]. *)
Definition Render_frameIndex (direction framesPerDirection frame : Z) : option Z :=
  match int_result (direction * framesPerDirection) with
  | None => None
  | Some base => int_result (base + frame)
  end.

(** *** The data members *)

Module MovementSegment.

Record t := mk {
  serverTime : double;
  startPoint : QPointF;
  speed : QPointF;
  action : UnitAction.t
}.

End MovementSegment.

(** The data members of [ClientUnit] that the constructor,
    [SetCurrentAnimation] and [UpdateGameState] write; [animationState]
    holds [currentAnimationVariant] and [lastAnimationStartTime]. *)
Record State := mkState {
  mapCoord : QPointF;
  direction : Z;
  currentAnimation : UnitAnimation.t;
  animationState : Unit;
  movementSegment : MovementSegment.t
}.

(** [M_PI], the [double] next to pi. *)
Definition M_PI : double := S754_finite false 7074237752028440 (-51).

Section GameState.

(** [kNumFacingDirections] is a constant of a header that is not part of
    the sources at hand; [animations a] is
    [unitType.GetAnimations(a)], the sprites of the variants of the
    animation [a]; [rand k] is the value of the [k]-th call of [rand()], a
    number between 0 and [RAND_MAX]; [atan2] is the function of [<cmath>];
    [QPointF_eq] is [operator==] of [QPointF], and [operator!=] is its
    negation. *)
Variable kNumFacingDirections : Z.
Variable animations : UnitAnimation.t -> list Sprite.
Variable rand : nat -> Z.
Variable atan2 : double -> double -> double.
Variable QPointF_eq : QPointF -> QPointF -> bool.

(** The constructor.  The result is the number of calls of [rand()] so far
    and the new unit. *)
Definition ClientUnit (k : nat) (mapCoord0 : QPointF) : option (nat * State) :=
  if kNumFacingDirections =? 0 then None
  else
    Some (S k,
          mkState mapCoord0
                  (Z.rem (rand k) kNumFacingDirections)
                  UnitAnimation.Idle
                  (mkUnit 0 (Double.of_Z (-1)))
                  (MovementSegment.mk (Double.of_Z (-1)) mapCoord0 QPointF_origin
                                      UnitAction.Idle)).

(** [SetCurrentAnimation].  [rand() % size()] with an empty vector of
    variants is a division by zero. *)
Definition SetCurrentAnimation (animation : UnitAnimation.t) (serverTime : double)
  (k : nat) (u : State) : option (nat * State) :=
  if UnitAnimation.eqb (currentAnimation u) animation then Some (k, u)
  else
    let numVariants := Z.of_nat (length (animations animation)) in
    if numVariants =? 0 then None
    else
      Some (S k,
            mkState (mapCoord u) (direction u) animation
                    (mkUnit (Z.rem (rand k) numVariants) serverTime)
                    (movementSegment u)).

(** The facing direction for a speed that is not zero. *)
Definition facing_direction (speed : QPointF) : option Z :=
  let angle0 :=
    Double.mul (Double.of_Z (-1))
               (Double.sub (atan2 (yp speed) (xp speed))
                           (Double.div M_PI (Double.of_Z 4))) in
  let angle :=
    if Double.ltb angle0 (Double.of_Z 0)
    then Double.add angle0 (Double.mul (Double.of_Z 2) M_PI)
    else angle0 in
  match Double.to_int
          (Double.add
             (Double.div (Double.mul (Double.of_Z kNumFacingDirections) angle)
                         (Double.mul (Double.of_Z 2) M_PI))
             (Double.of_float half_f)) with
  | None => None
  | Some d =>
      let direction1 := Z.max 0 (Z.min kNumFacingDirections d) in
      Some (if direction1 =? kNumFacingDirections then 0 else direction1)
  end.

(** [UpdateGameState]. *)
Definition UpdateGameState (serverTime : double) (k : nat) (u : State)
  : option (nat * State) :=
  let segment := movementSegment u in
  let mapCoord1 :=
    if UnitAction.eqb (MovementSegment.action segment) UnitAction.Building
    then MovementSegment.startPoint segment
    else
      QPointF_add (MovementSegment.startPoint segment)
                  (QPointF_scale
                     (Double.sub serverTime (MovementSegment.serverTime segment))
                     (MovementSegment.speed segment)) in
  match (if negb (QPointF_eq (MovementSegment.speed segment) QPointF_origin)
         then facing_direction (MovementSegment.speed segment)
         else Some (direction u)) with
  | None => None
  | Some direction1 =>
      let u1 :=
        mkState mapCoord1 direction1 (currentAnimation u) (animationState u) segment in
      if UnitAction.eqb (MovementSegment.action segment) UnitAction.Building
      then SetCurrentAnimation UnitAnimation.Task serverTime k u1
      else if QPointF_eq (MovementSegment.speed segment) QPointF_origin
      then
        match SetCurrentAnimation UnitAnimation.Idle serverTime k u1 with
        | None => None
        | Some (k', u2) =>
            Some (k',
                  mkState (MovementSegment.startPoint segment) (direction u2)
                          (currentAnimation u2) (animationState u2) (movementSegment u2))
        end
      else SetCurrentAnimation UnitAnimation.Walk serverTime k u1
  end.

End GameState.

End ClientUnit.

(** ** ClientUnitType: loading the graphics of a unit type *)

Module ClientUnitType.
Import ClientUnit.

(** The enumerators of [UnitType] that the [switch] of [Load] names. *)
Inductive UnitType : Type :=
| FemaleVillager
| FemaleVillagerBuilder
| MaleVillager
| MaleVillagerBuilder
| Militia
| Scout
| NumUnits.

Section Loading.

(** File system paths, with [parent_path()] and [operator/], and textures
    belong to libraries; [no_texture] is a texture that was not loaded
    yet. *)
Variables Path Texture : Type.
Variable parent_path : Path -> Path.
Variable join : Path -> String.string -> Path.
Variable no_texture : Texture.

Record SpriteAndTextures := mkSpriteAndTextures {
  sprite : Sprite;
  graphicTexture : Texture;
  shadowTexture : Texture
}.

(** The data members of [ClientUnitType].  [animations a] is the vector
    [animations[static_cast<int>(a)]]. *)
Record ClientUnitType := mkClientUnitType {
  animations : UnitAnimation.t -> list SpriteAndTextures;
  iconTexture : Texture;
  maxCenterY : Z
}.

(** What the file system answers: for a sprite file, whether it could be
    loaded and what [LoadSpriteAndTexture] left in the three output
    parameters; for a texture file, the texture. *)
Record Files := mkFiles {
  sprite_file : Path -> Path -> bool * SpriteAndTextures;
  texture_file : Path -> Texture
}.

Inductive Call : Type :=
| CallLoadSpriteAndTexture (path cachePath : Path)
| CallLoadTexture (path : Path).

(** The object under construction, the calls made so far and the lines of
    the error log, each with the number of the unit type it reports. *)
Record Loading := mkLoading {
  this : ClientUnitType;
  calls : list Call;
  error_log : list UnitType
}.

(** State passing; [None] is undefined behaviour. *)
Definition M (A : Type) : Type := Loading -> option (A * Loading).

Definition ret {A : Type} (a : A) : M A := fun s => Some (a, s).

Definition bind {A B : Type} (m : M A) (k : A -> M B) : M B :=
  fun s => match m s with
           | Some (a, s') => k a s'
           | None => None
           end.

Notation "x <- m ;; k" := (bind m (fun x => k))
  (at level 61, m at next level, right associativity).
Notation "m ;;; k" := (bind m (fun _ => k))
  (at level 61, right associativity).

(** [ok && m]: [m] is not run when [ok] is false. *)
Definition and_then (ok : bool) (m : M bool) : M bool :=
  if ok then m else ret false.

(** [v.resize(n)] on a vector of [SpriteAndTextures]. *)
Definition resize (n : nat) (v : list SpriteAndTextures) : list SpriteAndTextures :=
  firstn n v ++ repeat (mkSpriteAndTextures [] no_texture no_texture) (n - length v).

Definition set_animation (a : UnitAnimation.t) (v : list SpriteAndTextures)
  (t : ClientUnitType) : ClientUnitType :=
  mkClientUnitType
    (fun b => if UnitAnimation.eqb b a then v else animations t b)
    (iconTexture t) (maxCenterY t).

(** [animations[static_cast<int>(a)].resize(n)]. *)
Definition resize_animation (a : UnitAnimation.t) (n : nat) : M unit :=
  fun s => Some (tt, mkLoading (set_animation a (resize n (animations (this s) a)) (this s))
                               (calls s) (error_log s)).

(** [v[index] = item]. *)
Fixpoint store (index : nat) (item : SpriteAndTextures) (v : list SpriteAndTextures)
  : list SpriteAndTextures :=
  match v, index with
  | [], _ => []
  | _ :: v', O => item :: v'
  | x :: v', S index' => x :: store index' item v'
  end.

Variable files : Files.

(** [LoadAnimation]: the item [animations[type][index]] receives what
    [LoadSpriteAndTexture] loads; an index outside the vector is
    undefined. *)
Definition LoadAnimation (index : Z) (filename : String.string)
  (graphicsPath cachePath : Path) (type : UnitAnimation.t) : M bool :=
  fun s =>
    let animationVector := animations (this s) type in
    if (index <? 0) || (Z.of_nat (length animationVector) <=? index) then None
    else
      let path := join graphicsPath filename in
      let cache := join cachePath filename in
      let (ok, item) := sprite_file files path cache in
      Some (ok,
            mkLoading (set_animation type (store (Z.to_nat index) item animationVector) (this s))
                      (calls s ++ [CallLoadSpriteAndTexture path cache])
                      (error_log s)).

(** [iconTexture.Load(path, ...)]. *)
Definition iconTexture_Load (path : Path) : M unit :=
  fun s =>
    Some (tt,
          mkLoading (mkClientUnitType (animations (this s)) (texture_file files path)
                                      (maxCenterY (this s)))
                    (calls s ++ [CallLoadTexture path])
                    (error_log s)).

Definition LOG_ERROR (type : UnitType) : M unit :=
  fun s => Some (tt, mkLoading (this s) (calls s) (error_log s ++ [type])).

Definition set_maxCenterY (y : Z) : M unit :=
  fun s => Some (tt, mkLoading (mkClientUnitType (animations (this s)) (iconTexture (this s)) y)
                               (calls s) (error_log s)).

(** The inner loop [for (int frame = 0; frame < numFrames; ++ frame)] over
    the frames of one sprite, with [n] the number of iterations left. *)
Fixpoint max_over_frames (s : Sprite) (n : nat) (i : Z) (maxY : Z) : option Z :=
  match n with
  | O => Some maxY
  | S n' =>
      match frame s i with
      | None => None
      | Some f => max_over_frames s n' (i + 1) (Z.max maxY (centerY (graphic f)))
      end
  end.

(** The outer loop over the variants of the idle animation. *)
Fixpoint max_over_variants (kNumFacingDirections : Z) (variants : list SpriteAndTextures)
  (maxY : Z) : option Z :=
  match variants with
  | [] => Some maxY
  | animation :: rest =>
      if kNumFacingDirections =? 0 then None
      else
        match max_over_frames (sprite animation)
                (Z.to_nat (Z.quot (NumFrames (sprite animation)) kNumFacingDirections))
                0 maxY with
        | None => None
        | Some maxY' => max_over_variants kNumFacingDirections rest maxY'
        end
  end.

Definition update_maxCenterY (kNumFacingDirections : Z) : M unit :=
  fun s =>
    match max_over_variants kNumFacingDirections
            (animations (this s) UnitAnimation.Idle) (maxCenterY (this s)) with
    | None => None
    | Some y => set_maxCenterY y s
    end.

(** [Load].  The first statement, [animations.resize(NumAnimationTypes)],
    gives every animation its vector, which [animations] has from the
    start. *)
Definition Load (kNumFacingDirections : Z) (type : UnitType)
  (graphicsPath cachePath : Path) : M bool :=
  let ingameUnitsPath :=
    join (join (join (join
      (parent_path (parent_path (parent_path (parent_path graphicsPath))))
      "widgetui"%string) "textures"%string) "ingame"%string) "units"%string in
  let ok := true in
  ok <- match type with
        | FemaleVillager =>
            resize_animation UnitAnimation.Idle 1 ;;;
            ok <- and_then ok (LoadAnimation 0 "u_vil_female_villager_idleA_x1.smx"%string
                                 graphicsPath cachePath UnitAnimation.Idle) ;;
            resize_animation UnitAnimation.Walk 1 ;;;
            ok <- and_then ok (LoadAnimation 0 "u_vil_female_villager_walkA_x1.smx"%string
                                 graphicsPath cachePath UnitAnimation.Walk) ;;
            iconTexture_Load (join ingameUnitsPath "016_50730.DDS"%string) ;;;
            ret ok
        | FemaleVillagerBuilder =>
            resize_animation UnitAnimation.Idle 1 ;;;
            ok <- and_then ok (LoadAnimation 0 "u_vil_female_builder_idleA_x1.smx"%string
                                 graphicsPath cachePath UnitAnimation.Idle) ;;
            resize_animation UnitAnimation.Walk 1 ;;;
            ok <- and_then ok (LoadAnimation 0 "u_vil_female_builder_walkA_x1.smx"%string
                                 graphicsPath cachePath UnitAnimation.Walk) ;;
            resize_animation UnitAnimation.Task 1 ;;;
            ok <- and_then ok (LoadAnimation 0 "u_vil_female_builder_taskA_x1.smx"%string
                                 graphicsPath cachePath UnitAnimation.Task) ;;
            iconTexture_Load (join ingameUnitsPath "016_50730.DDS"%string) ;;;
            ret ok
        | MaleVillager =>
            resize_animation UnitAnimation.Idle 1 ;;;
            ok <- and_then ok (LoadAnimation 0 "u_vil_male_villager_idleA_x1.smx"%string
                                 graphicsPath cachePath UnitAnimation.Idle) ;;
            resize_animation UnitAnimation.Walk 1 ;;;
            ok <- and_then ok (LoadAnimation 0 "u_vil_male_villager_walkA_x1.smx"%string
                                 graphicsPath cachePath UnitAnimation.Walk) ;;
            iconTexture_Load (join ingameUnitsPath "015_50730.DDS"%string) ;;;
            ret ok
        | MaleVillagerBuilder =>
            resize_animation UnitAnimation.Idle 1 ;;;
            ok <- and_then ok (LoadAnimation 0 "u_vil_male_builder_idleA_x1.smx"%string
                                 graphicsPath cachePath UnitAnimation.Idle) ;;
            resize_animation UnitAnimation.Walk 1 ;;;
            ok <- and_then ok (LoadAnimation 0 "u_vil_male_builder_walkA_x1.smx"%string
                                 graphicsPath cachePath UnitAnimation.Walk) ;;
            resize_animation UnitAnimation.Task 1 ;;;
            ok <- and_then ok (LoadAnimation 0 "u_vil_male_builder_taskA_x1.smx"%string
                                 graphicsPath cachePath UnitAnimation.Task) ;;
            iconTexture_Load (join ingameUnitsPath "015_50730.DDS"%string) ;;;
            ret ok
        | Militia =>
            resize_animation UnitAnimation.Idle 2 ;;;
            ok <- and_then ok (LoadAnimation 0 "u_inf_militia_idleA_x1.smx"%string
                                 graphicsPath cachePath UnitAnimation.Idle) ;;
            ok <- and_then ok (LoadAnimation 1 "u_inf_militia_idleB_x1.smx"%string
                                 graphicsPath cachePath UnitAnimation.Idle) ;;
            resize_animation UnitAnimation.Walk 1 ;;;
            ok <- and_then ok (LoadAnimation 0 "u_inf_militia_walkA_x1.smx"%string
                                 graphicsPath cachePath UnitAnimation.Walk) ;;
            iconTexture_Load (join ingameUnitsPath "008_50730.DDS"%string) ;;;
            ret ok
        | Scout =>
            resize_animation UnitAnimation.Idle 2 ;;;
            ok <- and_then ok (LoadAnimation 0 "u_cav_scout_idleA_x1.smx"%string
                                 graphicsPath cachePath UnitAnimation.Idle) ;;
            ok <- and_then ok (LoadAnimation 1 "u_cav_scout_idleB_x1.smx"%string
                                 graphicsPath cachePath UnitAnimation.Idle) ;;
            resize_animation UnitAnimation.Walk 1 ;;;
            ok <- and_then ok (LoadAnimation 0 "u_cav_scout_walkA_x1.smx"%string
                                 graphicsPath cachePath UnitAnimation.Walk) ;;
            iconTexture_Load (join ingameUnitsPath "064_50730.DDS"%string) ;;;
            ret ok
        | NumUnits =>
            LOG_ERROR type ;;;
            ret false
        end ;;
  if negb ok then ret false
  else
    set_maxCenterY 0 ;;;
    update_maxCenterY kNumFacingDirections ;;;
    ret true.

(** [GetHealthBarHeightAboveCenter]: [maxCenterY + kHealthBarOffset] is a
    sum of [float], the [int] is converted; the result is converted to
    [int]. *)
Definition kHealthBarOffset : Single.float := Single.of_Z 10.

Definition GetHealthBarHeightAboveCenter (t : ClientUnitType) : option Z :=
  Single.to_int (Single.add (Single.of_Z (maxCenterY t)) kHealthBarOffset).

End Loading.

Arguments mkSpriteAndTextures {Texture}.
Arguments sprite {Texture}.
Arguments graphicTexture {Texture}.
Arguments shadowTexture {Texture}.
Arguments mkClientUnitType {Texture}.
Arguments animations {Texture}.
Arguments iconTexture {Texture}.
Arguments maxCenterY {Texture}.
Arguments mkFiles {Path Texture}.
Arguments sprite_file {Path Texture}.
Arguments texture_file {Path Texture}.
Arguments CallLoadSpriteAndTexture {Path}.
Arguments CallLoadTexture {Path}.
Arguments mkLoading {Path Texture}.
Arguments this {Path Texture}.
Arguments calls {Path Texture}.
Arguments error_log {Path Texture}.
Arguments max_over_variants {Texture}.
Arguments Load {Path Texture}.
Arguments GetHealthBarHeightAboveCenter {Texture}.

End ClientUnitType.

(** * Part II: the estimation query *)

Module EstimatorFacts.
Import ServerConnection.

(** The mean as the specification words it: the sum of all samples of the
    window, in window order, divided by their number; both operations are
    those of [double]. *)
Definition sum_of (xs : list double) : double := fold_left Double.add xs Double.zero.

Definition arithmetic_mean (xs : list double) : double :=
  Double.div (sum_of xs) (Double.of_Z (Z.of_nat (length xs))).

(** The formula of the specification for the displayed server time. *)
Definition displayed_time_formula (localElapsedSeconds filteredOffset filteredPing : double)
  : double :=
  Double.sub
    (Double.sub (Double.add localElapsedSeconds filteredOffset)
                (Double.mul (Double.dec 5 1) filteredPing))
    (Double.dec 10 3).

(** A connection whose sample window holds the given samples. *)
Definition with_window (offsets pings : list double) : Connection :=
  mkConnection [] false 0 offsets pings 0 [] 0.

Definition empty_window : Connection := with_window [] [].

(** One of the two final divisions of the estimation has a zero divisor. *)
Definition divides_by_zero (c : Connection) : bool :=
  Double.is_zero (ping_divisor c) || Double.is_zero (offset_divisor c).

(** The window of the scenario of the specification: round trips of 40, 60
    and 50 ms and offsets of 2.000, 2.010 and 1.995 s. *)
Definition scenario : Connection :=
  with_window [Double.dec 2000 3; Double.dec 2010 3; Double.dec 1995 3]
              [Double.dec 40 3; Double.dec 60 3; Double.dec 50 3].

(** [lo < x < hi]. *)
Definition between (lo x hi : double) : bool := Double.ltb lo x && Double.ltb x hi.

Lemma add_nan_r (x : double) : Double.add x Double.nan = Double.nan.
Proof. destruct x as [s|s| |s m e]; reflexivity. Qed.

Lemma skipn_cons_nth {A : Type} (l : list A) (i : nat) (x : A) :
  nth_error l i = Some x -> skipn i l = x :: skipn (S i) l.
Proof.
  revert i; induction l as [|y l IH]; intros [|i] H; cbn in H; try discriminate.
  - injection H as ->. reflexivity.
  - cbn [skipn]. rewrite (IH i H). reflexivity.
Qed.

(** The index loop adds the remaining samples of both vectors, in order. *)
Lemma estimate_loop_fold (c : Connection) (n i : nat) (os ps : double) :
  (i + n)%nat = length (lastTimeOffsets c) ->
  length (lastPings c) = length (lastTimeOffsets c) ->
  estimate_loop c n i os ps =
    Some (fold_left Double.add (skipn i (lastTimeOffsets c)) os,
          fold_left Double.add (skipn i (lastPings c)) ps).
Proof.
  revert i os ps.
  induction n as [|n IH]; intros i os ps Hlen Heq; cbn [estimate_loop].
  - rewrite !skipn_all2 by lia. reflexivity.
  - destruct (nth_error (lastTimeOffsets c) i) as [o|] eqn:Ho.
    2:{ apply nth_error_None in Ho. lia. }
    destruct (nth_error (lastPings c) i) as [p|] eqn:Hp.
    2:{ apply nth_error_None in Hp. lia. }
    rewrite IH by lia.
    rewrite (skipn_cons_nth _ _ _ Ho), (skipn_cons_nth _ _ _ Hp).
    reflexivity.
Qed.

Lemma estimate_mean (c : Connection) :
  length (lastPings c) = length (lastTimeOffsets c) ->
  EstimateCurrentPingAndOffset c =
    Some (arithmetic_mean (lastPings c), arithmetic_mean (lastTimeOffsets c)).
Proof.
  intros Heq. unfold EstimateCurrentPingAndOffset.
  rewrite estimate_loop_fold by (cbn; lia). cbn [skipn].
  reflexivity.
Qed.

(** C1, as the code has it: on the empty window the estimation does divide
    by zero: both divisors are 0.0 and both sums are 0.0.  The IEEE division
    0.0 / 0.0 does not trap; both results are NaN, and the displayed server
    time is NaN whatever the clock reads. *)
Theorem estimate_empty_window_is_nan :
  EstimateCurrentPingAndOffset empty_window = Some (Double.nan, Double.nan) /\
  forall clientTimeSeconds,
    GetDisplayedServerTime empty_window clientTimeSeconds = Some Double.nan.
Proof.
  split; [reflexivity|].
  intros t. unfold GetDisplayedServerTime.
  change (EstimateCurrentPingAndOffset empty_window) with (Some (Double.nan, Double.nan)).
  cbv beta iota zeta. rewrite add_nan_r.
  reflexivity.
Qed.

(** C1, counterexample: on the empty window the estimation divides by
    zero, and what it reports are two NaN. *)
Lemma estimate_empty_window_divides_by_zero :
  divides_by_zero empty_window = true /\
  ping_divisor empty_window = Double.zero /\
  offset_divisor empty_window = Double.zero /\
  EstimateCurrentPingAndOffset empty_window = Some (Double.nan, Double.nan).
Proof. repeat split. Qed.

(** C3: on a sample window (two vectors of the same length) that is not
    empty, the estimation returns the mean of all samples of [lastPings] and
    the mean of all samples of [lastTimeOffsets]: every sample enters the
    sum, none is rejected. *)
Theorem estimate_is_arithmetic_mean (c : Connection) :
  lastTimeOffsets c <> [] ->
  length (lastPings c) = length (lastTimeOffsets c) ->
  EstimateCurrentPingAndOffset c =
    Some (arithmetic_mean (lastPings c), arithmetic_mean (lastTimeOffsets c)).
Proof. intros _ Heq. exact (estimate_mean c Heq). Qed.

Lemma estimate_is_arithmetic_mean_witness :
  EstimateCurrentPingAndOffset scenario =
    Some (arithmetic_mean (lastPings scenario), arithmetic_mean (lastTimeOffsets scenario)).
Proof.
  apply (estimate_is_arithmetic_mean scenario).
  - cbn. discriminate.
  - reflexivity.
Defined.

(** C2: on a non-empty sample window the displayed server time is
    [localElapsedSeconds + filteredOffset - 0.5 * filteredPing - 0.010],
    with the filtered values the two means; on the scenario of the
    specification the filtered ping is 50 ms, the filtered offset 2.0017 s
    and the displayed time at 10.000 s is 11.9667 s, each up to 0.0001. *)
Theorem displayed_server_time_formula :
  (forall (c : Connection) (localElapsedSeconds : double),
      lastTimeOffsets c <> [] ->
      length (lastPings c) = length (lastTimeOffsets c) ->
      GetDisplayedServerTime c localElapsedSeconds =
        Some (displayed_time_formula localElapsedSeconds
                (arithmetic_mean (lastTimeOffsets c))
                (arithmetic_mean (lastPings c)))) /\
  (exists filteredPing filteredOffset displayed,
      EstimateCurrentPingAndOffset scenario = Some (filteredPing, filteredOffset) /\
      GetDisplayedServerTime scenario (Double.dec 10000 3) = Some displayed /\
      between (Double.dec 499 4) filteredPing (Double.dec 501 4) = true /\
      between (Double.dec 20016 4) filteredOffset (Double.dec 20018 4) = true /\
      between (Double.dec 119666 4) displayed (Double.dec 119668 4) = true).
Proof.
  split.
  - intros c t _ Heq. unfold GetDisplayedServerTime.
    rewrite (estimate_mean c Heq). reflexivity.
  - eexists _, _, _.
    split; [vm_compute; reflexivity|].
    split; [vm_compute; reflexivity|].
    repeat split; vm_compute; reflexivity.
Qed.

Lemma displayed_server_time_formula_witness :
  GetDisplayedServerTime scenario (Double.dec 10000 3) =
    Some (displayed_time_formula (Double.dec 10000 3)
            (arithmetic_mean (lastTimeOffsets scenario))
            (arithmetic_mean (lastPings scenario))).
Proof.
  apply (proj1 displayed_server_time_formula scenario).
  - cbn. discriminate.
  - reflexivity.
Defined.

End EstimatorFacts.

(** * Part III: writing to the socket *)

Module WriteFacts.
Import ServerConnection.

(** A transport that accepts at most [limit] bytes of each message. *)
Definition accepting_at_most (limit : Z) : World :=
  mkWorld (fun message => Z.min limit (Z.of_nat (length message))) [] [].

Definition hello : list byte := [x68; x65; x6c; x6c; x6f].

(** C9: when the transport accepts fewer bytes than the message has, [Write]
    adds one line to the error log and returns (its result is [tt], the
    function has no other outcome); the socket saw one [write], of the whole
    message, followed by one [flush], as it does when all bytes were
    accepted: nothing is written a second time. *)
Theorem Write_short_write_logged_and_flushed (w : World) (message : list byte) :
  write_returns w message < Z.of_nat (length message) ->
  Write message w =
    (tt,
     mkWorld (write_returns w)
             (socket_calls w ++ [CallWrite message; CallFlush])
             (error_log w ++
                [mkLogLine (write_returns w message) (Z.of_nat (length message))])) /\
  forall w0 : World,
    socket_calls (snd (Write message w0)) =
      socket_calls w0 ++ [CallWrite message; CallFlush].
Proof.
  intros Hshort. split.
  - unfold Write, bind, socket_write, socket_flush, LOG_ERROR, ret. cbn.
    destruct (Z.eqb_spec (write_returns w message) (Z.of_nat (length message))) as [E|_].
    + lia.
    + cbn. rewrite <- app_assoc. reflexivity.
  - intros w0.
    unfold Write, bind, socket_write, socket_flush, LOG_ERROR, ret. cbn.
    destruct (write_returns w0 message =? Z.of_nat (length message));
      cbn; rewrite <- app_assoc; reflexivity.
Qed.

Lemma Write_short_write_logged_and_flushed_witness :
  Write hello (accepting_at_most 3) =
    (tt, mkWorld (write_returns (accepting_at_most 3))
                 [CallWrite hello; CallFlush]
                 [mkLogLine 3 5]).
Proof.
  refine (proj1 (Write_short_write_logged_and_flushed (accepting_at_most 3) hello _)).
  vm_compute. reflexivity.
Defined.

End WriteFacts.

(** * Part IV: the framer *)

Module FramerFacts.
Import ServerConnection.

(** The sender's side of the wire format (the server; not part of the
    client's sources): a value on [n] bytes, little-endian, and a message as
    its type tag, its payload length and its payload. *)
Definition byte_of_N (v : N) : byte :=
  match Byte.of_N v with Some b => b | None => x00 end.

Fixpoint le_encode (n : nat) (v : N) : list byte :=
  match n with
  | O => []
  | S n' => byte_of_N (v mod 256) :: le_encode n' (v / 256)
  end.

Definition Message : Type := (N * list byte)%type.

Definition frame (wf : WireFormat) (m : Message) : list byte :=
  le_encode (typeBytes wf) (fst m)
  ++ le_encode (lengthBytes wf) (N.of_nat (length (snd m)))
  ++ snd m.

Definition encode_stream (wf : WireFormat) (msgs : list Message) : list byte :=
  concat (map (frame wf) msgs).

(** The tag and the length fit their header fields. *)
Definition fits (wf : WireFormat) (m : Message) : Prop :=
  (fst m < 256 ^ N.of_nat (typeBytes wf))%N /\
  (N.of_nat (length (snd m)) < 256 ^ N.of_nat (lengthBytes wf))%N.

Definition message_event (m : Message) : Signal :=
  NewMessage (snd m) (fst m) (N.of_nat (length (snd m))).

(** The loop with the fuel [TryParseMessages] gives it. *)
Definition parse (wf : WireFormat) (buf : list byte) : option (list Signal * list byte) :=
  parse_loop wf (S (length buf)) buf.

Definition one_byte_chunks (bs : list byte) : list (list byte) := map (fun b => [b]) bs.

Lemma to_N_byte_of_N (v : N) : (v < 256)%N -> Byte.to_N (byte_of_N v) = v.
Proof.
  intros H. unfold byte_of_N.
  destruct (Byte.of_N v) as [b|] eqn:E.
  - apply Byte.to_of_N. exact E.
  - apply Byte.of_N_None_iff in E. lia.
Qed.

Lemma length_le_encode (n : nat) (v : N) : length (le_encode n v) = n.
Proof. revert v; induction n as [|n IH]; intros v; cbn; [reflexivity|]. now rewrite IH. Qed.

Lemma le_decode_encode (n : nat) (v : N) :
  (v < 256 ^ N.of_nat n)%N -> le_decode (le_encode n v) = v.
Proof.
  revert v; induction n as [|n IH]; intros v Hv.
  - cbn in *. lia.
  - cbn [le_encode le_decode].
    rewrite to_N_byte_of_N by (apply N.mod_lt; lia).
    rewrite IH.
    + pose proof (N.div_mod v 256 ltac:(lia)) as D. lia.
    + rewrite Nat2N.inj_succ, N.pow_succ_r' in Hv.
      apply N.Div0.div_lt_upper_bound. exact Hv.
Qed.

Lemma length_frame (wf : WireFormat) (m : Message) :
  length (frame wf m) = (headerSize wf + length (snd m))%nat.
Proof.
  unfold frame, headerSize. rewrite !length_app, !length_le_encode. lia.
Qed.

(** Fuel beyond the buffer length changes nothing. *)
Lemma parse_loop_fuel (wf : WireFormat) :
  (0 < headerSize wf)%nat ->
  forall (n m : nat) (buf : list byte),
    (length buf < n)%nat -> (length buf < m)%nat ->
    parse_loop wf n buf = parse_loop wf m buf.
Proof.
  intros Hh. induction n as [|n IH]; intros m buf Hn Hm; [lia|].
  destruct m as [|m]; [lia|].
  cbn [parse_loop].
  destruct (length buf <? headerSize wf)%nat eqn:E1; [reflexivity|].
  match goal with |- context [(length buf <? ?t)%nat] => destruct (length buf <? t)%nat eqn:E2 end;
    [reflexivity|].
  apply Nat.ltb_ge in E1, E2.
  rewrite (IH m); [reflexivity| |]; rewrite length_skipn; lia.
Qed.

Lemma parse_unfold (wf : WireFormat) (buf : list byte) :
  (0 < headerSize wf)%nat ->
  parse wf buf =
    if (length buf <? headerSize wf)%nat then Some ([], buf)
    else
      let msgType := le_decode (firstn (typeBytes wf) buf) in
      let msgLength := le_decode (firstn (lengthBytes wf) (skipn (typeBytes wf) buf)) in
      let total := (headerSize wf + N.to_nat msgLength)%nat in
      if (length buf <? total)%nat then Some ([], buf)
      else
        match parse wf (skipn total buf) with
        | Some (evs, rest) =>
            Some (NewMessage (firstn (N.to_nat msgLength) (skipn (headerSize wf) buf))
                             msgType msgLength :: evs,
                  rest)
        | None => None
        end.
Proof.
  intros Hh. unfold parse at 1. cbn [parse_loop].
  destruct (length buf <? headerSize wf)%nat eqn:E1; [reflexivity|].
  cbv zeta.
  match goal with |- context [(length buf <? ?t)%nat] => destruct (length buf <? t)%nat eqn:E2 end;
    [reflexivity|].
  apply Nat.ltb_ge in E1, E2.
  unfold parse.
  match goal with |- context [parse_loop wf (length buf) (skipn ?t buf)] =>
    rewrite (parse_loop_fuel wf Hh (length buf) (S (length (skipn t buf))) (skipn t buf))
  end; [reflexivity| |]; rewrite ?length_skipn; lia.
Qed.

(** The loop stops: with the fuel of [TryParseMessages] it has a result. *)
Lemma parse_total (wf : WireFormat) :
  (0 < headerSize wf)%nat ->
  forall buf, exists evs rest, parse wf buf = Some (evs, rest).
Proof.
  intros Hh buf.
  remember (length buf) as n eqn:Hn.
  revert buf Hn. induction n as [n IH] using lt_wf_ind. intros buf Hn.
  rewrite parse_unfold by exact Hh.
  destruct (length buf <? headerSize wf)%nat eqn:E1; [eauto|].
  cbv zeta.
  match goal with |- context [(length buf <? ?t)%nat] => destruct (length buf <? t)%nat eqn:E2 end;
    [eauto|].
  apply Nat.ltb_ge in E1, E2.
  match goal with |- context [parse wf (skipn ?t buf)] =>
    destruct (IH (length (skipn t buf))) with (buf := skipn t buf) as (evs & rest & E)
  end.
  - rewrite length_skipn. lia.
  - reflexivity.
  - rewrite E. eauto.
Qed.

(** A message at the front of the buffer is extracted as such. *)
Lemma parse_frame (wf : WireFormat) (m : Message) (tail : list byte) :
  (0 < headerSize wf)%nat -> fits wf m ->
  parse wf (frame wf m ++ tail) =
    match parse wf tail with
    | Some (evs, rest) => Some (message_event m :: evs, rest)
    | None => None
    end.
Proof.
  intros Hh [Hty Hlen].
  rewrite parse_unfold by exact Hh.
  assert (Hfl : length (frame wf m ++ tail) = (headerSize wf + length (snd m) + length tail)%nat)
    by (rewrite length_app, length_frame; lia).
  destruct (length (frame wf m ++ tail) <? headerSize wf)%nat eqn:E1.
  { apply Nat.ltb_lt in E1. lia. }
  cbv zeta.
  assert (Ety : firstn (typeBytes wf) (frame wf m ++ tail) = le_encode (typeBytes wf) (fst m)).
  { unfold frame. rewrite <- app_assoc.
    rewrite firstn_app, length_le_encode, Nat.sub_diag, firstn_O, app_nil_r.
    apply firstn_all2. rewrite length_le_encode. lia. }
  assert (Eln : firstn (lengthBytes wf) (skipn (typeBytes wf) (frame wf m ++ tail)) =
                le_encode (lengthBytes wf) (N.of_nat (length (snd m)))).
  { unfold frame. rewrite <- !app_assoc.
    rewrite skipn_app, length_le_encode, Nat.sub_diag, skipn_O.
    rewrite skipn_all2 by (rewrite length_le_encode; lia). cbn [app].
    rewrite firstn_app, length_le_encode, Nat.sub_diag, firstn_O, app_nil_r.
    apply firstn_all2. rewrite length_le_encode. lia. }
  rewrite Ety, Eln, !le_decode_encode by assumption.
  rewrite Nat2N.id.
  assert (Esk : skipn (headerSize wf) (frame wf m ++ tail) = snd m ++ tail).
  { unfold frame, headerSize. rewrite app_assoc, <- app_assoc.
    rewrite skipn_app.
    rewrite skipn_all2 by (rewrite length_app, !length_le_encode; lia).
    rewrite length_app, !length_le_encode, Nat.sub_diag. reflexivity. }
  assert (Esk2 : skipn (headerSize wf + length (snd m)) (frame wf m ++ tail) = tail).
  { rewrite skipn_app, <- length_frame, Nat.sub_diag, skipn_all. reflexivity. }
  destruct (length (frame wf m ++ tail) <? headerSize wf + length (snd m))%nat eqn:E2.
  { apply Nat.ltb_lt in E2. lia. }
  rewrite Esk, Esk2.
  rewrite firstn_app, Nat.sub_diag, firstn_O, app_nil_r, firstn_all.
  destruct m as [ty payload]. reflexivity.
Qed.

Lemma parse_encode_stream (wf : WireFormat) (msgs : list Message) :
  (0 < headerSize wf)%nat -> Forall (fits wf) msgs ->
  parse wf (encode_stream wf msgs) = Some (map message_event msgs, []).
Proof.
  intros Hh Hfit. induction Hfit as [|m msgs Hm _ IH].
  - unfold encode_stream, parse. cbn [map concat length parse_loop].
    destruct (headerSize wf); [lia|reflexivity].
  - unfold encode_stream in *. cbn [map concat].
    rewrite parse_frame by assumption. rewrite IH. reflexivity.
Qed.

(** Parsing a buffer and then, with the bytes left over, what comes next is
    parsing all of it at once. *)
Lemma parse_app (wf : WireFormat) :
  (0 < headerSize wf)%nat ->
  forall (buf more : list byte) (evs1 : list Signal) (rest1 : list byte),
    parse wf buf = Some (evs1, rest1) ->
    parse wf (buf ++ more) =
      match parse wf (rest1 ++ more) with
      | Some (evs2, rest2) => Some (evs1 ++ evs2, rest2)
      | None => None
      end.
Proof.
  intros Hh buf.
  remember (length buf) as n eqn:Hn.
  revert buf Hn. induction n as [n IH] using lt_wf_ind.
  intros buf Hn more evs1 rest1 H1.
  rewrite parse_unfold in H1 by exact Hh.
  destruct (length buf <? headerSize wf)%nat eqn:E1.
  { injection H1 as <- <-. cbn [app]. destruct (parse wf (buf ++ more)) as [[? ?]|]; reflexivity. }
  cbv zeta in H1.
  match type of H1 with context [(length buf <? ?t)%nat] =>
    destruct (length buf <? t)%nat eqn:E2 end.
  { injection H1 as <- <-. cbn [app]. destruct (parse wf (buf ++ more)) as [[? ?]|]; reflexivity. }
  apply Nat.ltb_ge in E1, E2.
  match type of H1 with context [parse wf (skipn ?t buf)] =>
    set (total := t) in *
  end.
  destruct (parse wf (skipn total buf)) as [[evs rest]|] eqn:E3; [|discriminate].
  injection H1 as <- <-.
  rewrite (parse_unfold wf (buf ++ more)) by exact Hh.
  destruct (length (buf ++ more) <? headerSize wf)%nat eqn:F1.
  { apply Nat.ltb_lt in F1. rewrite length_app in F1. lia. }
  cbv zeta.
  assert (Hty : (typeBytes wf <= length buf)%nat) by (unfold headerSize in E1; lia).
  assert (Hln : (lengthBytes wf <= length (skipn (typeBytes wf) buf))%nat)
    by (rewrite length_skipn; unfold headerSize in E1; lia).
  assert (A1 : firstn (typeBytes wf) (buf ++ more) = firstn (typeBytes wf) buf).
  { rewrite firstn_app. replace (typeBytes wf - length buf)%nat with 0%nat by lia.
    rewrite firstn_O, app_nil_r. reflexivity. }
  assert (A2 : firstn (lengthBytes wf) (skipn (typeBytes wf) (buf ++ more)) =
               firstn (lengthBytes wf) (skipn (typeBytes wf) buf)).
  { rewrite skipn_app. replace (typeBytes wf - length buf)%nat with 0%nat by lia.
    rewrite skipn_O, firstn_app.
    replace (lengthBytes wf - length (skipn (typeBytes wf) buf))%nat with 0%nat by lia.
    rewrite firstn_O, app_nil_r. reflexivity. }
  rewrite A1, A2. fold total.
  destruct (length (buf ++ more) <? total)%nat eqn:F2.
  { apply Nat.ltb_lt in F2. rewrite length_app in F2. lia. }
  assert (A3 : skipn total (buf ++ more) = skipn total buf ++ more).
  { rewrite skipn_app. replace (total - length buf)%nat with 0%nat by lia.
    rewrite skipn_O. reflexivity. }
  assert (A4 : firstn (total - headerSize wf) (skipn (headerSize wf) (buf ++ more)) =
               firstn (total - headerSize wf) (skipn (headerSize wf) buf)).
  { rewrite skipn_app. replace (headerSize wf - length buf)%nat with 0%nat by lia.
    rewrite skipn_O, firstn_app.
    replace (total - headerSize wf - length (skipn (headerSize wf) buf))%nat with 0%nat
      by (rewrite length_skipn; lia).
    rewrite firstn_O, app_nil_r. reflexivity. }
  replace (N.to_nat (le_decode (firstn (lengthBytes wf) (skipn (typeBytes wf) buf))))
    with (total - headerSize wf)%nat by (unfold total; lia).
  rewrite A3, A4.
  rewrite (IH (length (skipn total buf))) with (evs1 := evs) (rest1 := rest);
    [ | rewrite length_skipn; lia | reflexivity | exact E3 ].
  destruct (parse wf (rest ++ more)) as [[evs2 rest2]|]; reflexivity.
Qed.

Lemma parse_idle (wf : WireFormat) (buf : list byte) (evs : list Signal) (rest : list byte) :
  (0 < headerSize wf)%nat ->
  parse wf buf = Some (evs, rest) -> parse wf rest = Some ([], rest).
Proof.
  intros Hh.
  remember (length buf) as n eqn:Hn.
  revert buf Hn evs rest. induction n as [n IH] using lt_wf_ind.
  intros buf Hn evs rest H.
  pose proof H as H0.
  rewrite parse_unfold in H by exact Hh.
  destruct (length buf <? headerSize wf)%nat eqn:E1.
  { injection H as <- <-. exact H0. }
  cbv zeta in H.
  match type of H with context [(length buf <? ?t)%nat] =>
    destruct (length buf <? t)%nat eqn:E2 end.
  { injection H as <- <-. exact H0. }
  apply Nat.ltb_ge in E1, E2.
  match type of H with context [parse wf (skipn ?t buf)] =>
    destruct (parse wf (skipn t buf)) as [[evs' rest']|] eqn:E3
  end; [|discriminate].
  injection H as <- <-.
  eapply (IH (length (skipn _ buf))); [ | reflexivity | exact E3].
  rewrite length_skipn. lia.
Qed.

(** Whatever the chunks, the events raised while they arrive and the bytes
    left in the buffer are those of parsing the whole stream at once. *)
Lemma receive_all_parse (wf : WireFormat) :
  (0 < headerSize wf)%nat ->
  forall (chunks : list (list byte)) (c : Connection),
    parse wf (unparsedReceivedBuffer c) = Some ([], unparsedReceivedBuffer c) ->
    exists c' evs,
      receive_all wf chunks c = Some (c', evs) /\
      parse wf (unparsedReceivedBuffer c ++ concat chunks) =
        Some (evs, unparsedReceivedBuffer c').
Proof.
  intros Hh. induction chunks as [|chunk chunks IH]; intros c Hidle.
  - exists c, []. split; [reflexivity|]. cbn [concat]. rewrite app_nil_r. exact Hidle.
  - cbn [receive_all concat].
    unfold OnReadyRead, TryParseMessages. cbn [unparsedReceivedBuffer with_buffer].
    fold (parse wf (unparsedReceivedBuffer c ++ chunk)).
    destruct (parse_total wf Hh (unparsedReceivedBuffer c ++ chunk)) as (evs1 & rest1 & E1).
    rewrite E1. cbv beta iota.
    destruct (IH (with_buffer (with_buffer c (unparsedReceivedBuffer c ++ chunk)) rest1))
      as (c' & evs2 & R & P).
    { cbn. eapply parse_idle; eassumption. }
    rewrite R. exists c', (evs1 ++ evs2). split; [reflexivity|].
    rewrite app_assoc, (parse_app wf Hh _ _ _ _ E1).
    cbn [unparsedReceivedBuffer with_buffer] in P. rewrite P. reflexivity.
Qed.

Lemma concat_one_byte_chunks (bs : list byte) : concat (one_byte_chunks bs) = bs.
Proof.
  induction bs as [|b bs IH]; [reflexivity|].
  unfold one_byte_chunks in *. cbn [map concat app]. rewrite IH. reflexivity.
Qed.

(** C4: for every split into chunks of the bytes of [N] complete messages,
    received on an empty buffer, the events raised are the [N]
    message-available events of these messages, in order, each with its
    type, length and payload, and the buffer is empty afterwards; the
    stream received in one chunk and received byte by byte raise these same
    events. *)
Theorem framer_events_independent_of_chunking
  (wf : WireFormat) (msgs : list Message) (chunks : list (list byte)) (c : Connection) :
  (0 < headerSize wf)%nat ->
  Forall (fits wf) msgs ->
  unparsedReceivedBuffer c = [] ->
  concat chunks = encode_stream wf msgs ->
  let events := map message_event msgs in
  length events = length msgs /\
  (exists c', receive_all wf chunks c = Some (c', events) /\ unparsedReceivedBuffer c' = []) /\
  (exists c', receive_all wf [encode_stream wf msgs] c = Some (c', events)) /\
  (exists c', receive_all wf (one_byte_chunks (encode_stream wf msgs)) c = Some (c', events)).
Proof.
  intros Hh Hfit Hbuf Hcat events.
  assert (Hidle : parse wf (unparsedReceivedBuffer c) = Some ([], unparsedReceivedBuffer c))
    by (rewrite Hbuf; unfold parse; cbn; destruct (headerSize wf); [lia|reflexivity]).
  assert (Hall : forall chs, concat chs = encode_stream wf msgs ->
            exists c', receive_all wf chs c = Some (c', events) /\ unparsedReceivedBuffer c' = []).
  { intros chs Hchs.
    destruct (receive_all_parse wf Hh chs c Hidle) as (c' & evs & R & P).
    rewrite Hbuf in P. cbn [app] in P.
    rewrite Hchs, parse_encode_stream in P by assumption.
    injection P as P1 P2. subst evs. exists c'. split; [exact R|symmetry; exact P2]. }
  split; [apply length_map|].
  split; [apply Hall; exact Hcat|].
  split.
  - destruct (Hall [encode_stream wf msgs]) as (c' & R & _).
    + cbn. apply app_nil_r.
    + eauto.
  - destruct (Hall (one_byte_chunks (encode_stream wf msgs))) as (c' & R & _).
    + apply concat_one_byte_chunks.
    + eauto.
Qed.

(** The scenario of the specification: a header of four bytes (type and
    length) and a payload of five bytes, received in three chunks of three
    bytes. *)
Definition wire4 : WireFormat := mkWireFormat 2 2.

Definition nine_byte_message : Message := (7%N, [x61; x62; x63; x64; x65]).

Definition three_chunks : list (list byte) :=
  [[x07; x00; x05]; [x00; x61; x62]; [x63; x64; x65]].

Lemma framer_events_independent_of_chunking_witness :
  let events := map message_event [nine_byte_message] in
  length events = 1%nat /\
  (exists c', receive_all wire4 three_chunks (connected 0) = Some (c', events) /\
              unparsedReceivedBuffer c' = []) /\
  (exists c', receive_all wire4 [encode_stream wire4 [nine_byte_message]] (connected 0)
              = Some (c', events)) /\
  (exists c', receive_all wire4 (one_byte_chunks (encode_stream wire4 [nine_byte_message]))
                          (connected 0) = Some (c', events)).
Proof.
  apply (framer_events_independent_of_chunking wire4 [nine_byte_message] three_chunks
           (connected 0)).
  - cbn. lia.
  - constructor; [|constructor]. split; vm_compute; reflexivity.
  - reflexivity.
  - reflexivity.
Defined.

(** No event is raised before the ninth byte is there. *)
Example nine_bytes_in_three_chunks :
  option_map snd (receive_all wire4 (firstn 2 three_chunks) (connected 0)) = Some [] /\
  option_map snd (receive_all wire4 three_chunks (connected 0)) =
    Some [NewMessage [x61; x62; x63; x64; x65] 7 5].
Proof. split; vm_compute; reflexivity. Qed.

End FramerFacts.

(** * Part V: pings, the sample window and the loss of the connection *)

Module PingFacts.
Import ServerConnection.
Import EstimatorFacts.

(** The window after the samples [(ping, offset)] have entered an empty
    window one after the other. *)
Definition insert_all {A : Type} (capacity : nat) (samples : list A) (window : list A) : list A :=
  fold_left (fun w x => AddSample capacity x w) samples window.

Definition window_after (capacity : nat) (samples : list (double * double)) : Connection :=
  with_window (insert_all capacity (map snd samples) [])
              (insert_all capacity (map fst samples) []).

Definition TimerTicks (times : list TimePoint) : list Event := map TimerTick times.

Lemma length_AddSample {A : Type} (capacity : nat) (x : A) (w : list A) :
  (0 < capacity)%nat -> (length w <= capacity)%nat ->
  (length (AddSample capacity x w) <= capacity)%nat.
Proof.
  intros Hc Hw. unfold AddSample.
  destruct (capacity <=? length w)%nat eqn:E; rewrite length_app; cbn.
  - apply Nat.leb_le in E. destruct w; cbn in *; lia.
  - apply Nat.leb_gt in E. lia.
Qed.

Lemma length_AddSample_eq {A B : Type} (capacity : nat) (x : A) (y : B) (w : list A) (v : list B) :
  length w = length v ->
  length (AddSample capacity x w) = length (AddSample capacity y v).
Proof.
  intros E. unfold AddSample. rewrite E.
  destruct (capacity <=? length v)%nat; rewrite !length_app; cbn; [|lia].
  destruct w, v; cbn in *; lia.
Qed.

(** A window that is not full grows; a full window drops its first
    sample. *)
Lemma insert_all_skipn {A : Type} (capacity : nat) (samples window : list A) :
  (0 < capacity)%nat -> (length window <= capacity)%nat ->
  insert_all capacity samples window =
    skipn (length window + length samples - capacity) (window ++ samples).
Proof.
  intros Hc. revert window.
  induction samples as [|x samples IH]; intros window Hw.
  - cbn. rewrite app_nil_r. replace (length window + 0 - capacity)%nat with 0%nat by lia.
    reflexivity.
  - cbn [insert_all fold_left]. fold (insert_all capacity samples (AddSample capacity x window)).
    rewrite IH by (apply length_AddSample; assumption).
    unfold AddSample.
    destruct (capacity <=? length window)%nat eqn:E.
    + apply Nat.leb_le in E. destruct window as [|w0 window]; [cbn in *; lia|].
      cbn [tl length app] in *. rewrite <- app_assoc. cbn [app].
      rewrite length_app. cbn [length].
      replace (S (length window) + S (length samples) - capacity)%nat
        with (S (length window + 1 + length samples - capacity))%nat by lia.
      reflexivity.
    + apply Nat.leb_gt in E. rewrite <- app_assoc. cbn [app].
      rewrite length_app. cbn [length].
      replace (length window + 1 + length samples - capacity)%nat
        with (length window + S (length samples) - capacity)%nat by lia.
      reflexivity.
Qed.

Lemma step_window (cfg : Config) (c : Connection) (e : Event) :
  (0 < windowCapacity cfg)%nat ->
  length (lastPings c) = length (lastTimeOffsets c) ->
  (length (lastTimeOffsets c) <= windowCapacity cfg)%nat ->
  length (lastPings (fst (step cfg c e))) = length (lastTimeOffsets (fst (step cfg c e))) /\
  (length (lastTimeOffsets (fst (step cfg c e))) <= windowCapacity cfg)%nat.
Proof.
  intros Hc Heq Hle. destruct e as [now|number serverTime receiveTime]; cbn [step].
  - unfold PingAndCheckConnection.
    destruct (noPingTimeout cfg <? now - lastPingResponseTime c);
      [destruct (connectionToServerLost c)|]; cbn; auto.
  - unfold HandlePingResponseMessage.
    destruct (find _ (sentPings c)) as [[n sentAt]|]; cbn; [|auto].
    split.
    + apply length_AddSample_eq. exact Heq.
    + apply length_AddSample; assumption.
Qed.

Lemma run_window (cfg : Config) (es : list Event) :
  (0 < windowCapacity cfg)%nat ->
  forall c,
    length (lastPings c) = length (lastTimeOffsets c) ->
    (length (lastTimeOffsets c) <= windowCapacity cfg)%nat ->
    length (lastPings (fst (run cfg c es))) = length (lastTimeOffsets (fst (run cfg c es))) /\
    (length (lastTimeOffsets (fst (run cfg c es))) <= windowCapacity cfg)%nat.
Proof.
  intros Hc. induction es as [|e es IH]; intros c Heq Hle; [cbn; auto|].
  cbn [run].
  destruct (step_window cfg c e Hc Heq Hle) as [Heq1 Hle1].
  destruct (step cfg c e) as [c1 out1]. cbn [fst] in *.
  specialize (IH c1 Heq1 Hle1).
  destruct (run cfg c1 es) as [c2 out2]. exact IH.
Qed.

(** Once lost, the connection stays lost and raises no further
    connection-lost event. *)
Lemma step_lost (cfg : Config) (c : Connection) (e : Event) :
  connectionToServerLost c = true ->
  connectionToServerLost (fst (step cfg c e)) = true /\
  lost_events (snd (step cfg c e)) = 0%nat.
Proof.
  intros Hl. destruct e as [now|number serverTime receiveTime]; cbn [step].
  - unfold PingAndCheckConnection. rewrite Hl.
    destruct (noPingTimeout cfg <? now - lastPingResponseTime c); cbn; auto.
  - unfold HandlePingResponseMessage.
    destruct (find _ (sentPings c)) as [[n sentAt]|]; cbn; auto.
Qed.

Lemma lost_events_app (out1 out2 : list Action) :
  lost_events (out1 ++ out2) = (lost_events out1 + lost_events out2)%nat.
Proof. unfold lost_events. rewrite filter_app, length_app. reflexivity. Qed.

Lemma run_lost (cfg : Config) (es : list Event) :
  forall c,
    connectionToServerLost c = true ->
    connectionToServerLost (fst (run cfg c es)) = true /\
    lost_events (snd (run cfg c es)) = 0%nat.
Proof.
  induction es as [|e es IH]; intros c Hl; [cbn; auto|].
  cbn [run].
  destruct (step_lost cfg c e Hl) as [Hl1 Hn1].
  destruct (step cfg c e) as [c1 out1]. cbn [fst snd] in *.
  specialize (IH c1 Hl1).
  destruct (run cfg c1 es) as [c2 out2]. cbn [fst snd] in *.
  rewrite lost_events_app. split; [tauto|lia].
Qed.

(** Ticks alone leave the time of the last response where it was. *)
Lemma run_ticks (cfg : Config) (times : list TimePoint) :
  forall c,
    connectionToServerLost c = false ->
    Exists (fun now => noPingTimeout cfg < now - lastPingResponseTime c) times ->
    connectionToServerLost (fst (run cfg c (TimerTicks times))) = true /\
    lost_events (snd (run cfg c (TimerTicks times))) = 1%nat.
Proof.
  induction times as [|now times IH]; intros c Hl Hex.
  - inversion Hex.
  - cbn [TimerTicks map run step]. fold (TimerTicks times).
    unfold PingAndCheckConnection.
    destruct (Z.ltb_spec (noPingTimeout cfg) (now - lastPingResponseTime c)) as [Hlt|Hge].
    + rewrite Hl.
      match goal with |- context [run cfg ?c1 _] =>
        destruct (run_lost cfg (TimerTicks times) c1 eq_refl) as [A B];
        destruct (run cfg c1 (TimerTicks times)) as [c2 out2]
      end.
      cbn [fst snd] in *. rewrite lost_events_app, B. split; [exact A|reflexivity].
    + match goal with |- context [run cfg ?c1 _] =>
        destruct (IH c1) as [A B]
      end.
      * exact Hl.
      * cbn [lastPingResponseTime]. inversion Hex as [? ? H0|? ? H0]; subst; [lia|exact H0].
      * match goal with |- context [run cfg ?c1 _] =>
          destruct (run cfg c1 (TimerTicks times)) as [c2 out2]
        end.
        cbn [fst snd] in *. rewrite lost_events_app, B. split; [exact A|reflexivity].
Qed.

(** C5: when the response carries the sequence number [k] of an outstanding
    record, the records left are those with a sequence number above [k], in
    their order: every record up to [k] is gone, every record above [k] is
    still there. *)
Theorem ping_response_discards_up_to_matched
  (cfg : Config) (c : Connection) (k : Z) (serverTime : double) (receiveTime : TimePoint) :
  (exists sentAt, In (k, sentAt) (sentPings c)) ->
  let c' := fst (HandlePingResponseMessage cfg k serverTime receiveTime c) in
  sentPings c' = filter (fun r => k <? fst r) (sentPings c) /\
  (forall r, In r (sentPings c') -> k < fst r) /\
  (forall r, In r (sentPings c) -> k < fst r -> In r (sentPings c')).
Proof.
  intros [sentAt Hin] c'.
  assert (E : sentPings c' = filter (fun r => k <? fst r) (sentPings c)).
  { subst c'. unfold HandlePingResponseMessage.
    destruct (find (fun r => fst r =? k) (sentPings c)) as [[n t]|] eqn:F; [reflexivity|].
    exfalso. apply (find_none _ _ F) in Hin. cbn in Hin. lia. }
  split; [exact E|]. rewrite E. split.
  - intros r Hr. apply filter_In in Hr. destruct Hr as [_ Hr]. lia.
  - intros r Hr Hk. apply filter_In. split; [exact Hr|lia].
Qed.

Definition three_outstanding : Connection :=
  mkConnection [] false 0 [] [] 0 [(1, 1000); (2, 2000); (3, 3000)] 4.

Lemma ping_response_discards_up_to_matched_witness :
  let c' := fst (HandlePingResponseMessage (mkConfig 5000 10) 2 (Double.dec 7 0) 2040
                                           three_outstanding) in
  sentPings c' = filter (fun r => 2 <? fst r) (sentPings three_outstanding) /\
  (forall r, In r (sentPings c') -> 2 < fst r) /\
  (forall r, In r (sentPings three_outstanding) -> 2 < fst r -> In r (sentPings c')).
Proof.
  apply (ping_response_discards_up_to_matched (mkConfig 5000 10) three_outstanding 2).
  exists 2000. cbn. auto.
Defined.

(** C6: when only timer ticks arrive after the connect (no ping response)
    and one of them comes later than the timeout after the connection
    start, the connection is lost after these ticks and the
    connection-lost event was raised once; whatever arrives later, ticks
    or ping responses, the connection stays lost and the event is not
    raised again. *)
Theorem connection_lost_once_and_for_all
  (cfg : Config) (start : TimePoint) (times : list TimePoint) (later : list Event) :
  Exists (fun now => noPingTimeout cfg < now - start) times ->
  let r1 := run cfg (connected start) (TimerTicks times) in
  let r2 := run cfg (fst r1) later in
  ConnectionToServerLost (fst r1) = true /\
  lost_events (snd r1) = 1%nat /\
  ConnectionToServerLost (fst r2) = true /\
  lost_events (snd r2) = 0%nat /\
  lost_events (snd (run cfg (connected start) (TimerTicks times ++ later))) = 1%nat.
Proof.
  intros Hex r1 r2. subst r1 r2.
  destruct (run_ticks cfg times (connected start) eq_refl Hex) as [A B].
  destruct (run_lost cfg later _ A) as [C D].
  unfold ConnectionToServerLost.
  repeat split; try assumption.
  assert (Happ : forall es1 es2 c,
             run cfg c (es1 ++ es2) =
               (fst (run cfg (fst (run cfg c es1)) es2),
                snd (run cfg c es1) ++ snd (run cfg (fst (run cfg c es1)) es2))).
  { induction es1 as [|e es1 IH1]; intros es2 c.
    - cbn. destruct (run cfg c es2); reflexivity.
    - cbn [app run]. destruct (step cfg c e) as [c1 out1].
      rewrite IH1. destruct (run cfg c1 es1) as [c2 out2]. cbn [fst snd].
      rewrite app_assoc. reflexivity. }
  rewrite Happ. cbn [snd]. rewrite lost_events_app, B, D. reflexivity.
Qed.

Lemma connection_lost_once_and_for_all_witness :
  let cfg := mkConfig 5000 10 in
  let r1 := run cfg (connected 0) (TimerTicks [1000; 2000; 6000; 7000]) in
  let r2 := run cfg (fst r1) [PingResponse 0 (Double.dec 7 0) 7500; TimerTick 8000] in
  ConnectionToServerLost (fst r1) = true /\
  lost_events (snd r1) = 1%nat /\
  ConnectionToServerLost (fst r2) = true /\
  lost_events (snd r2) = 0%nat /\
  lost_events (snd (run cfg (connected 0)
                        (TimerTicks [1000; 2000; 6000; 7000]
                         ++ [PingResponse 0 (Double.dec 7 0) 7500; TimerTick 8000]))) = 1%nat.
Proof.
  apply (connection_lost_once_and_for_all (mkConfig 5000 10) 0 [1000; 2000; 6000; 7000]).
  apply Exists_cons_tl, Exists_cons_tl, Exists_cons_hd. cbn. lia.
Defined.

(** C7: with a capacity of at least one sample, the window never holds more
    samples than its capacity, whatever arrives after the connect, and both
    vectors have the same length; after capacity+1 insertions into the
    empty window the window holds the last [capacity] samples, and the
    estimation returns the means of these: the first sample has no part in
    them. *)
Theorem window_bounded_and_oldest_evicted
  (cfg : Config) (start : TimePoint) (es : list Event)
  (oldest : double * double) (newer : list (double * double)) :
  (0 < windowCapacity cfg)%nat ->
  length newer = windowCapacity cfg ->
  let c := fst (run cfg (connected start) es) in
  let w := window_after (windowCapacity cfg) (oldest :: newer) in
  (length (lastPings c) <= windowCapacity cfg)%nat /\
  (length (lastTimeOffsets c) <= windowCapacity cfg)%nat /\
  lastPings w = map fst newer /\
  lastTimeOffsets w = map snd newer /\
  EstimateCurrentPingAndOffset w =
    Some (arithmetic_mean (map fst newer), arithmetic_mean (map snd newer)).
Proof.
  intros Hc Hlen c w.
  destruct (run_window cfg es Hc (connected start) eq_refl) as [Heq Hle]; [cbn; lia|].
  fold c in Heq, Hle.
  assert (Hp : lastPings w = map fst newer).
  { subst w. unfold window_after, with_window. cbn [lastPings].
    rewrite insert_all_skipn by (cbn; lia). cbn [length app map].
    rewrite length_map, Hlen.
    replace (0 + S (windowCapacity cfg) - windowCapacity cfg)%nat with 1%nat by lia.
    reflexivity. }
  assert (Ho : lastTimeOffsets w = map snd newer).
  { subst w. unfold window_after, with_window. cbn [lastTimeOffsets].
    rewrite insert_all_skipn by (cbn; lia). cbn [length app map].
    rewrite length_map, Hlen.
    replace (0 + S (windowCapacity cfg) - windowCapacity cfg)%nat with 1%nat by lia.
    reflexivity. }
  repeat split; try assumption; try lia.
  rewrite estimate_mean by (rewrite Hp, Ho, !length_map; reflexivity).
  rewrite Hp, Ho. reflexivity.
Qed.

Definition three_samples : list (double * double) :=
  [(Double.dec 40 3, Double.dec 2000 3);
   (Double.dec 60 3, Double.dec 2010 3);
   (Double.dec 50 3, Double.dec 1995 3)].

Lemma window_bounded_and_oldest_evicted_witness :
  let cfg := mkConfig 5000 2 in
  let c := fst (run cfg (connected 0)
                    [TimerTick 1000; PingResponse 0 (Double.dec 3 0) 1040;
                     TimerTick 2000; PingResponse 1 (Double.dec 4 0) 2060;
                     TimerTick 3000; PingResponse 2 (Double.dec 5 0) 3050]) in
  let w := window_after 2 three_samples in
  (length (lastPings c) <= 2)%nat /\
  (length (lastTimeOffsets c) <= 2)%nat /\
  lastPings w = map fst (tl three_samples) /\
  lastTimeOffsets w = map snd (tl three_samples) /\
  EstimateCurrentPingAndOffset w =
    Some (arithmetic_mean (map fst (tl three_samples)),
          arithmetic_mean (map snd (tl three_samples))).
Proof.
  apply (window_bounded_and_oldest_evicted (mkConfig 5000 2) 0 _
           (Double.dec 40 3, Double.dec 2000 3) (tl three_samples)).
  - cbn. lia.
  - reflexivity.
Defined.

End PingFacts.

(** * Part VI: rounding to nearest even

    What the operations of [SpecFloat] compute, in terms of integers: a
    finite float [m * 2^e] is the integer [m * 2^(e - B)] in units of
    [2^B], for a [B] below every exponent that occurs, and a sum, a
    difference or a product is the rounding of the exact result. *)

Module Rounding.

(** Division of [M] by [2^k], rounded to the nearest integer, ties to
    even. *)
Definition rne (M k : Z) : Z :=
  let q := M / 2 ^ k in
  let r := M mod 2 ^ k in
  if 2 * r <? 2 ^ k then q
  else if 2 ^ k <? 2 * r then q + 1
  else if Z.even q then q else q + 1.

Lemma pow2_pos (k : Z) : 0 <= k -> 0 < 2 ^ k.
Proof. intros; apply Z.pow_pos_nonneg; lia. Qed.

Lemma rne_bounds (M k : Z) : M / 2 ^ k <= rne M k <= M / 2 ^ k + 1.
Proof.
  unfold rne. cbv zeta.
  destruct (2 * (M mod 2 ^ k) <? 2 ^ k); [lia|].
  destruct (2 ^ k <? 2 * (M mod 2 ^ k)); [lia|].
  destruct (Z.even (M / 2 ^ k)); lia.
Qed.

Lemma rne_exact (q k : Z) : 0 <= k -> rne (q * 2 ^ k) k = q.
Proof.
  intros Hk. pose proof (pow2_pos k Hk) as HP. unfold rne. cbv zeta.
  rewrite Z.div_mul, Z.mod_mul by lia.
  destruct (Z.ltb_spec (2 * 0) (2 ^ k)); [reflexivity|lia].
Qed.

Lemma rne_mono (M1 M2 k : Z) : 0 <= k -> M1 <= M2 -> rne M1 k <= rne M2 k.
Proof.
  intros Hk HM. pose proof (pow2_pos k Hk) as HP.
  pose proof (Z.div_le_mono M1 M2 (2 ^ k) HP HM) as Hq.
  destruct (Z.eq_dec (M1 / 2 ^ k) (M2 / 2 ^ k)) as [E|NE].
  - assert (Hr : M1 mod 2 ^ k <= M2 mod 2 ^ k).
    { rewrite !Z.mod_eq by lia. rewrite E. lia. }
    unfold rne. cbv zeta. rewrite E.
    destruct (Z.ltb_spec (2 * (M1 mod 2 ^ k)) (2 ^ k));
    destruct (Z.ltb_spec (2 * (M2 mod 2 ^ k)) (2 ^ k));
    destruct (Z.ltb_spec (2 ^ k) (2 * (M1 mod 2 ^ k)));
    destruct (Z.ltb_spec (2 ^ k) (2 * (M2 mod 2 ^ k)));
    destruct (Z.even (M2 / 2 ^ k)); lia.
  - pose proof (rne_bounds M1 k). pose proof (rne_bounds M2 k). lia.
Qed.

Lemma rne_scale (M j k : Z) : 0 <= j -> 0 <= k -> rne (M * 2 ^ j) (k + j) = rne M k.
Proof.
  intros Hj Hk. pose proof (pow2_pos k Hk) as HP. pose proof (pow2_pos j Hj) as HJ.
  unfold rne. cbv zeta.
  rewrite Z.pow_add_r by lia.
  rewrite Z.div_mul_cancel_r, Z.mul_mod_distr_r by lia.
  replace (2 * (M mod 2 ^ k * 2 ^ j)) with ((2 * (M mod 2 ^ k)) * 2 ^ j) by ring.
  destruct (Z.ltb_spec (2 * (M mod 2 ^ k)) (2 ^ k)) as [A|A];
  destruct (Z.ltb_spec (2 * (M mod 2 ^ k) * 2 ^ j) (2 ^ k * 2 ^ j)) as [A'|A'];
    try reflexivity; try nia.
  destruct (Z.ltb_spec (2 ^ k) (2 * (M mod 2 ^ k))) as [C|C];
  destruct (Z.ltb_spec (2 ^ k * 2 ^ j) (2 * (M mod 2 ^ k) * 2 ^ j)) as [C'|C'];
    try reflexivity; nia.
Qed.

(** The result is within half a unit of [M / 2^k]. *)
Lemma rne_error (M k : Z) :
  0 <= k -> - 2 ^ k <= 2 * (rne M k * 2 ^ k - M) <= 2 ^ k.
Proof.
  intros Hk. pose proof (pow2_pos k Hk) as HP.
  pose proof (Z.div_mod M (2 ^ k) ltac:(lia)) as D.
  pose proof (Z.mod_pos_bound M (2 ^ k) HP) as Hr.
  unfold rne. cbv zeta.
  destruct (Z.ltb_spec (2 * (M mod 2 ^ k)) (2 ^ k)); [nia|].
  destruct (Z.ltb_spec (2 ^ k) (2 * (M mod 2 ^ k))); [nia|].
  destruct (Z.even (M / 2 ^ k)); nia.
Qed.

Lemma rne_nonneg (M k : Z) : 0 <= k -> 0 <= M -> 0 <= rne M k.
Proof.
  intros Hk HM. pose proof (pow2_pos k Hk) as HP.
  pose proof (rne_bounds M k). pose proof (Z.div_pos M (2 ^ k) HM HP). lia.
Qed.

(** [digits2_pos] is the position of the leading bit. *)
Lemma digits2_size (p : positive) : digits2_pos p = Pos.size p.
Proof. induction p as [p IH|p IH|]; cbn; [now rewrite IH..|reflexivity]. Qed.

Lemma digits2_log2 (p : positive) : Zpos (digits2_pos p) = Z.log2 (Zpos p) + 1.
Proof.
  rewrite digits2_size. destruct p as [p|p|]; cbn [Z.log2 Pos.size]; lia.
Qed.

Lemma Zdigits2_log2 (m : Z) : 0 < m -> Zdigits2 m = Z.log2 m + 1.
Proof. destruct m as [|p|p]; try lia. intros _. apply digits2_log2. Qed.

Lemma log2_bounds (m : Z) : 0 < m -> 2 ^ Z.log2 m <= m < 2 ^ (Z.log2 m + 1).
Proof. intros H. apply Z.log2_spec. exact H. Qed.


Lemma Zdigits2_nonneg (m : Z) : 0 <= Zdigits2 m.
Proof. destruct m; cbn; lia. Qed.

Lemma Zdigits2_upper (m : Z) : 0 <= m -> m < 2 ^ Zdigits2 m.
Proof.
  intros H. destruct (Z.eq_dec m 0) as [->|N]; [cbn; lia|].
  rewrite Zdigits2_log2 by lia. apply log2_bounds. lia.
Qed.

Lemma Zdigits2_lower (m : Z) : 0 < m -> 2 ^ (Zdigits2 m - 1) <= m.
Proof.
  intros H. rewrite Zdigits2_log2 by lia.
  replace (Z.log2 m + 1 - 1) with (Z.log2 m) by lia. apply log2_bounds. lia.
Qed.

(** *** Shifting right *)

Lemma shr_1_m (mrs : shr_record) : 0 <= shr_m mrs -> shr_m (shr_1 mrs) = shr_m mrs / 2.
Proof.
  destruct mrs as [m r s]. cbn [shr_m]. intros H.
  destruct m as [|[p|p|]|p]; cbn [shr_1 shr_m]; try lia.
  - reflexivity.
  - apply Z.div_unique with (r := 1); lia.
  - apply Z.div_unique with (r := 0); lia.
  - reflexivity.
Qed.

Lemma shr_1_r (mrs : shr_record) : 0 <= shr_m mrs -> shr_r (shr_1 mrs) = Z.odd (shr_m mrs).
Proof.
  destruct mrs as [m r s]. cbn [shr_m]. intros H.
  destruct m as [|[p|p|]|p]; cbn; try lia; reflexivity.
Qed.

Lemma shr_1_s (mrs : shr_record) : shr_s (shr_1 mrs) = shr_r mrs || shr_s mrs.
Proof. destruct mrs as [m r s]. destruct m as [|[p|p|]|[p|p|]]; reflexivity. Qed.

(** What [k] shifts of [M] leave: the quotient, the round bit and the
    sticky bit. *)
Definition shr_spec (M k : Z) (mrs : shr_record) : Prop :=
  shr_m mrs = M / 2 ^ k /\
  (shr_r mrs = true <-> 2 ^ k <= 2 * (M mod 2 ^ k)) /\
  (shr_s mrs = true <-> M mod 2 ^ k <> 0 /\ 2 * (M mod 2 ^ k) <> 2 ^ k).

Lemma shr_spec_0 (M : Z) : shr_spec M 0 (Build_shr_record M false false).
Proof.
  unfold shr_spec. cbn [shr_m shr_r shr_s]. rewrite Z.pow_0_r, Z.div_1_r, Z.mod_1_r.
  repeat split; intros; try lia; try discriminate.
Qed.

Lemma shr_spec_step (M k : Z) (mrs : shr_record) :
  0 <= M -> 0 <= k -> shr_spec M k mrs -> shr_spec M (k + 1) (shr_1 mrs).
Proof.
  intros HM Hk (Hm & Hr & Hs).
  pose proof (pow2_pos k Hk) as HP.
  assert (Hq : 0 <= shr_m mrs) by (rewrite Hm; apply Z.div_pos; lia).
  pose proof (Z.mod_pos_bound M (2 ^ k) HP) as Hrho.
  assert (Epow : 2 ^ (k + 1) = 2 ^ k * 2) by (rewrite Z.pow_add_r by lia; reflexivity).
  assert (Emod : M mod 2 ^ (k + 1) = M mod 2 ^ k + 2 ^ k * ((M / 2 ^ k) mod 2))
    by (rewrite Epow; apply Z.rem_mul_r; lia).
  assert (Eodd : (M / 2 ^ k) mod 2 = if Z.odd (shr_m mrs) then 1 else 0)
    by (rewrite Hm; apply Zmod_odd).
  unfold shr_spec. rewrite shr_1_m, shr_1_r, shr_1_s by exact Hq.
  rewrite Emod, Eodd, Epow.
  split; [rewrite Hm; apply Z.div_div; lia|].
  assert (Hor : shr_r mrs || shr_s mrs = true <-> M mod 2 ^ k <> 0).
  { rewrite orb_true_iff, Hr, Hs. lia. }
  rewrite Hor.
  destruct (Z.odd (shr_m mrs)); split; split; intros; try discriminate; try lia.
Qed.

Lemma iter_pos_inv {A : Type} (f : A -> A) (P : Z -> A -> Prop) :
  (forall k x, 0 <= k -> P k x -> P (k + 1) (f x)) ->
  forall (p : positive) (k : Z) (x : A), 0 <= k -> P k x -> P (k + Zpos p) (iter_pos f p x).
Proof.
  intros Hstep. induction p as [p IH|p IH|]; intros k x Hk Hx; cbn [iter_pos].
  - replace (k + Zpos p~1) with (k + 1 + Zpos p + Zpos p) by lia.
    apply IH; [lia|]. apply IH; [lia|]. apply Hstep; assumption.
  - replace (k + Zpos p~0) with (k + Zpos p + Zpos p) by lia.
    apply IH; [lia|]. apply IH; assumption.
  - apply Hstep; assumption.
Qed.

Lemma shr_spec_iter (M : Z) (p : positive) :
  0 <= M -> shr_spec M (Zpos p) (iter_pos shr_1 p (Build_shr_record M false false)).
Proof.
  intros HM.
  apply (iter_pos_inv shr_1 (fun k mrs => shr_spec M k mrs)
           (fun k x Hk => shr_spec_step M k x HM Hk) p 0); [lia|].
  apply shr_spec_0.
Qed.

Lemma shr_m_iter (p : positive) (mrs : shr_record) :
  0 <= shr_m mrs -> shr_m (iter_pos shr_1 p mrs) = shr_m mrs / 2 ^ Zpos p.
Proof.
  intros H0.
  pose (P := fun (k : Z) (x : shr_record) => shr_m x = shr_m mrs / 2 ^ k).
  apply (iter_pos_inv shr_1 P) with (k := 0); [|lia|].
  - intros k x Hk Hx. unfold P in *.
    pose proof (pow2_pos k Hk) as HP.
    rewrite shr_1_m by (rewrite Hx; apply Z.div_pos; lia).
    rewrite Hx, Z.pow_add_r, Z.div_div by lia. reflexivity.
  - unfold P. rewrite Z.pow_0_r, Z.div_1_r. reflexivity.
Qed.

Lemma round_nearest_even_rne (M k : Z) (mrs : shr_record) :
  0 <= k -> shr_spec M k mrs ->
  round_nearest_even (shr_m mrs) (loc_of_shr_record mrs) = rne M k.
Proof.
  intros Hk (Hm & Hr & Hs). pose proof (pow2_pos k Hk) as HP.
  pose proof (Z.mod_pos_bound M (2 ^ k) HP) as Hrho.
  destruct mrs as [m r s]. cbn [shr_m shr_r shr_s] in *. subst m.
  unfold rne. cbv zeta.
  destruct (Z.ltb_spec (2 * (M mod 2 ^ k)) (2 ^ k)) as [A|A].
  - assert (r = false) by (destruct r; [apply proj1 in Hr; specialize (Hr eq_refl); lia|reflexivity]).
    subst r. destruct s; reflexivity.
  - assert (r = true) by (apply Hr; lia). subst r.
    destruct (Z.ltb_spec (2 ^ k) (2 * (M mod 2 ^ k))) as [C|C].
    + assert (s = true) by (apply Hs; lia). subst s. reflexivity.
    + assert (s = false) by (destruct s; [apply proj1 in Hs; specialize (Hs eq_refl); lia|reflexivity]).
      subst s. reflexivity.
Qed.

Lemma round_nearest_even_bounds (q : Z) (l : location) :
  q <= round_nearest_even q l <= q + 1.
Proof. destruct l as [|[| |]]; cbn; try lia. destruct (Z.even q); lia. Qed.

Lemma shr_m_of_loc (m : Z) (l : location) : shr_m (shr_record_of_loc m l) = m.
Proof. destruct l as [|[| |]]; reflexivity. Qed.


Section Format.
Variables prec emax B : Z.
Hypothesis Hprec : 0 < prec.
Hypothesis Hemax : prec < emax.
Hypothesis HB : B < emin prec emax.

Definition INF : Z := 2 ^ (emax - B).

(** [r] is the valid float of sign [s] and magnitude [W], in units of
    [2^B]; magnitudes from [INF] on are the infinity. *)
Definition encodes (s : bool) (W : Z) (r : spec_float) : Prop :=
  valid_binary prec emax r = true /\
  match r with
  | S754_zero s' => s' = s /\ W = 0
  | S754_infinity s' => s' = s /\ INF <= W
  | S754_finite s' m e => s' = s /\ Zpos m * 2 ^ (e - B) = W /\ W < INF
  | S754_nan => False
  end.

Lemma fexp_ge_emin (e : Z) : emin prec emax <= fexp prec emax e.
Proof. unfold fexp. lia. Qed.

Lemma pow2_le (a b : Z) : 0 <= a <= b -> 2 ^ a <= 2 ^ b.
Proof. intros H. apply Z.pow_le_mono_r; lia. Qed.

Lemma pow2_lt (a b : Z) : 0 <= a < b -> 2 ^ a < 2 ^ b.
Proof. intros H. apply Z.pow_lt_mono_r; lia. Qed.

Lemma pow2_split (a b : Z) : 0 <= a -> 0 <= b -> 2 ^ (a + b) = 2 ^ a * 2 ^ b.
Proof. intros. apply Z.pow_add_r; lia. Qed.

(** The last step of [binary_round_aux]: the rounded mantissa [Q] at
    exponent [E] is brought to canonical form. *)
Lemma encode_final (s : bool) (Q E : Z) :
  0 <= Q <= 2 ^ prec -> emin prec emax <= E ->
  (emin prec emax < E -> 2 ^ (prec - 1) <= Q) ->
  encodes s (Q * 2 ^ (E - B))
    (let '(mrs, e) := shr_fexp prec emax Q E loc_Exact in
     match shr_m mrs with
     | Z0 => S754_zero s
     | Zpos m => if Z.leb e (Z.sub emax prec) then S754_finite s m e else S754_infinity s
     | Zneg _ => S754_nan
     end).
Proof.
  intros HQ HE Hnorm.
  pose proof (pow2_pos prec ltac:(lia)) as Hpp.
  assert (HEB : 0 <= E - B) by (unfold emin in *; lia).
  pose proof (pow2_pos (E - B) HEB) as HPEB.
  unfold shr_fexp, shr. cbn [shr_record_of_loc].
  destruct (Z.eq_dec Q 0) as [->|HQ0].
  { (* zero *)
    cbn [Zdigits2].
    destruct (fexp prec emax (0 + E) - E) as [|p|p] eqn:En;
      [ | unfold fexp in En; lia | ]; cbn [shr_m];
      (split; [reflexivity|split; [reflexivity|lia]]). }
  destruct (Z.eq_dec Q (2 ^ prec)) as [EQ|NQ].
  { (* the rounding carried into a new digit *)
    assert (Hd : Zdigits2 Q = prec + 1).
    { rewrite Zdigits2_log2 by lia. rewrite EQ, Z.log2_pow2 by lia. reflexivity. }
    rewrite Hd.
    assert (En : fexp prec emax (prec + 1 + E) - E = 1) by (unfold fexp; lia).
    rewrite En. cbn [iter_pos].
    assert (Hm : shr_m (shr_1 (Build_shr_record Q false false)) = 2 ^ (prec - 1)).
    { rewrite shr_1_m by (cbn; lia). cbn [shr_m]. rewrite EQ.
      replace prec with (prec - 1 + 1) at 1 by lia.
      rewrite pow2_split by lia. rewrite Z.pow_1_r. apply Z.div_mul. lia. }
    pose proof (pow2_pos (prec - 1) ltac:(lia)) as Hp1.
    destruct (shr_m (shr_1 (Build_shr_record Q false false))) as [|mm|mm] eqn:Em; try lia.
    assert (HW : Zpos mm * 2 ^ (E + 1 - B) = Q * 2 ^ (E - B)).
    { rewrite Hm, EQ.
      replace (E + 1 - B) with (1 + (E - B)) by lia.
      replace prec with (prec - 1 + 1) at 2 by lia.
      rewrite !pow2_split by lia. rewrite Z.pow_1_r. ring. }
    assert (Hcan : canonical_mantissa prec emax mm (E + 1) = true).
    { unfold canonical_mantissa. apply Z.eqb_eq.
      rewrite digits2_log2, Hm, Z.log2_pow2 by lia. unfold fexp. lia. }
    destruct (Z.leb_spec (E + 1) (emax - prec)) as [Hle|Hgt].
    - split.
      + cbn [valid_binary]. unfold bounded. rewrite Hcan. cbn.
        apply Z.leb_le. lia.
      + split; [reflexivity|]. split; [exact HW|].
        rewrite EQ. unfold INF. rewrite <- pow2_split by lia.
        apply pow2_lt. lia.
    - split; [reflexivity|]. split; [reflexivity|].
      rewrite EQ. unfold INF. rewrite <- pow2_split by lia.
      apply pow2_le. unfold emin in *. lia. }
  (* the mantissa fits *)
  assert (HQlt : 0 < Q < 2 ^ prec) by lia.
  assert (Hlog : Z.log2 Q < prec) by (apply Z.log2_lt_pow2; lia).
  pose proof (Z.log2_nonneg Q) as Hlog0.
  assert (Hd : Zdigits2 Q = Z.log2 Q + 1) by (apply Zdigits2_log2; lia).
  assert (Hfe : fexp prec emax (Zdigits2 Q + E) = E).
  { rewrite Hd. unfold fexp.
    destruct (Z.eq_dec E (emin prec emax)) as [->|NE]; [lia|].
    assert (Hn : 2 ^ (prec - 1) <= Q) by (apply Hnorm; lia).
    apply Z.log2_le_pow2 in Hn; lia. }
  rewrite Hfe, Z.sub_diag. cbn [shr_m].
  destruct Q as [|q|q]; try lia.
  assert (Hcan : canonical_mantissa prec emax q E = true).
  { unfold canonical_mantissa. apply Z.eqb_eq. exact Hfe. }
  destruct (Z.leb_spec E (emax - prec)) as [Hle|Hgt].
  - split.
    + cbn [valid_binary]. unfold bounded. rewrite Hcan. cbn. apply Z.leb_le. lia.
    + split; [reflexivity|]. split; [reflexivity|].
      unfold INF.
      apply Z.lt_le_trans with (2 ^ prec * 2 ^ (E - B)).
      * apply Z.mul_lt_mono_pos_r; lia.
      * rewrite <- pow2_split by lia. apply pow2_le. lia.
  - split; [reflexivity|]. split; [reflexivity|].
    assert (Hn : 2 ^ (prec - 1) <= Zpos q) by (apply Hnorm; unfold emin; lia).
    unfold INF.
    apply Z.le_trans with (2 ^ (prec - 1) * 2 ^ (E - B)).
    + rewrite <- pow2_split by lia. apply pow2_le. unfold emin in *. lia.
    + apply Z.mul_le_mono_nonneg_r; lia.
Qed.


Lemma loc_of_shr_record_of_loc (m : Z) (l : location) :
  loc_of_shr_record (shr_record_of_loc m l) = l.
Proof. destruct l as [|[| |]]; reflexivity. Qed.

(** [binary_round_aux] at a mantissa that is shifted right, or not at all:
    the floor of the quotient is rounded, to nearest even when the location
    is exact, and the result is canonical. *)
Lemma binary_round_aux_spec (s : bool) (m e : Z) (l : location) :
  0 <= m -> B <= e -> e <= fexp prec emax (Zdigits2 m + e) ->
  exists Q,
    m / 2 ^ (fexp prec emax (Zdigits2 m + e) - e) <= Q
      <= m / 2 ^ (fexp prec emax (Zdigits2 m + e) - e) + 1 /\
    (l = loc_Exact -> Q = rne m (fexp prec emax (Zdigits2 m + e) - e)) /\
    encodes s (Q * 2 ^ (fexp prec emax (Zdigits2 m + e) - B))
            (binary_round_aux prec emax s m e l).
Proof.
  intros Hm HBe HE.
  set (E := fexp prec emax (Zdigits2 m + e)) in *.
  set (n := E - e).
  assert (Hn : 0 <= n) by (unfold n; lia).
  pose proof (pow2_pos n Hn) as HPn.
  pose proof (pow2_pos prec ltac:(lia)) as Hpp.
  pose proof (fexp_ge_emin (Zdigits2 m + e)) as HEmin. fold E in HEmin.
  (* the first shift *)
  assert (Hfirst : exists mrs,
             shr_fexp prec emax m e l = (mrs, E) /\
             shr_m mrs = m / 2 ^ n /\
             (l = loc_Exact -> round_nearest_even (shr_m mrs) (loc_of_shr_record mrs) = rne m n)).
  { unfold shr_fexp, shr. fold E. fold n.
    destruct n as [|p|p] eqn:En; [ | | lia].
    - exists (shr_record_of_loc m l). split; [f_equal; lia|].
      rewrite shr_m_of_loc, Z.pow_0_r, Z.div_1_r. split; [reflexivity|].
      intros ->. cbn [shr_record_of_loc].
      apply (round_nearest_even_rne m 0); [lia|apply shr_spec_0].
    - exists (iter_pos shr_1 p (shr_record_of_loc m l)). split; [f_equal; lia|].
      rewrite shr_m_iter by (rewrite shr_m_of_loc; exact Hm).
      rewrite shr_m_of_loc. split; [reflexivity|].
      intros ->. cbn [shr_record_of_loc].
      rewrite <- (Z.div_1_r m) at 1. 
      pose proof (shr_spec_iter m p Hm) as Hsp.
      rewrite <- (round_nearest_even_rne m (Zpos p) _ ltac:(lia) Hsp).
      f_equal. rewrite Z.div_1_r. symmetry. apply Hsp. }
  destruct Hfirst as (mrs & Eshr & Hq & Hex).
  exists (round_nearest_even (shr_m mrs) (loc_of_shr_record mrs)).
  pose proof (round_nearest_even_bounds (shr_m mrs) (loc_of_shr_record mrs)) as Hb.
  rewrite Hq in Hb. fold n.
  split; [rewrite Hq; exact Hb|].
  split; [exact Hex|].
  unfold binary_round_aux. rewrite Eshr.
  apply encode_final.
  - (* 0 <= Q <= 2^prec *)
    rewrite Hq.
    pose proof (Z.div_pos m (2 ^ n) Hm HPn).
    assert (m / 2 ^ n < 2 ^ prec).
    { apply Z.div_lt_upper_bound; [lia|].
      pose proof (Zdigits2_upper m Hm) as Hu.
      pose proof (Zdigits2_nonneg m) as Hd0.
      rewrite Z.mul_comm, <- pow2_split by lia.
      apply Z.lt_le_trans with (1 := Hu). apply pow2_le.
      unfold n, E, fexp. lia. }
    lia.
  - exact HEmin.
  - (* normal numbers have a full mantissa *)
    intros Hnorm. rewrite Hq.
    assert (Hmpos : 0 < m).
    { destruct (Z.eq_dec m 0) as [->|]; [|lia].
      unfold E, fexp in *. cbn [Zdigits2] in *. lia. }
    pose proof (Zdigits2_lower m Hmpos) as Hl.
    pose proof (Zdigits2_log2 m Hmpos) as Hd. pose proof (Z.log2_nonneg m) as Hl0.
    assert (En : Zdigits2 m - 1 = (prec - 1) + n) by (unfold n, E, fexp in *; lia).
    rewrite En, pow2_split in Hl by lia.
    apply Z.le_trans with (2 ^ (prec - 1) * 2 ^ n / 2 ^ n).
    + rewrite Z.div_mul by lia. 
      pose proof (round_nearest_even_bounds (2 ^ (prec - 1)) loc_Exact). lia.
    + apply Z.le_trans with (m / 2 ^ n); [|lia].
      apply Z.div_le_mono; lia.
Qed.

(** The exponent of the rounding of [V] (in units of [2^B]), counted from
    [B], and the rounding itself (without the overflow). *)
Definition kexp (V : Z) : Z := fexp prec emax (Z.log2 V + 1 + B) - B.

Definition Rm (V : Z) : Z := rne V (kexp V) * 2 ^ kexp V.

Lemma kexp_pos (V : Z) : 0 < kexp V.
Proof. unfold kexp. pose proof (fexp_ge_emin (Z.log2 V + 1 + B)). lia. Qed.

Lemma kexp_scaled (m e : Z) :
  0 < m -> B <= e -> kexp (m * 2 ^ (e - B)) = fexp prec emax (Zdigits2 m + e) - B.
Proof.
  intros Hm He. unfold kexp.
  rewrite Z.log2_mul_pow2 by lia. rewrite Zdigits2_log2 by lia.
  f_equal. f_equal. lia.
Qed.

Lemma iter_xO (m d : positive) : Zpos (Pos.iter xO m d) = Zpos m * 2 ^ Zpos d.
Proof.
  apply Pos.iter_ind with (P := fun p r => Zpos r = Zpos m * 2 ^ Zpos p).
  - rewrite Z.pow_1_r. lia.
  - intros p a Ha. rewrite Pos2Z.inj_succ, Z.pow_succ_r by lia.
    rewrite Pos2Z.inj_xO, Ha. ring.
Qed.

(** [binary_round]: the mantissa is aligned first when it is too short. *)
Lemma binary_round_spec (s : bool) (m : positive) (e : Z) :
  B <= e ->
  encodes s (Rm (Zpos m * 2 ^ (e - B))) (binary_round prec emax s m e).
Proof.
  intros He.
  unfold binary_round, shl_align.
  change (Zpos (digits2_pos m)) with (Zdigits2 (Zpos m)).
  set (E := fexp prec emax (Zdigits2 (Zpos m) + e)).
  pose proof (fexp_ge_emin (Zdigits2 (Zpos m) + e)) as HEmin. fold E in HEmin.
  assert (Hk : kexp (Zpos m * 2 ^ (e - B)) = E - B) by (apply kexp_scaled; lia).
  unfold Rm. rewrite Hk.
  destruct (E - e) as [|p|p] eqn:En.
  - (* already aligned *)
    destruct (binary_round_aux_spec s (Zpos m) e loc_Exact) as (Q & _ & HQ & Henc);
      [lia|lia|fold E; lia|].
    fold E in HQ, Henc. rewrite (HQ eq_refl) in Henc.
    replace (E - B) with ((E - e) + (e - B)) at 1 by lia.
    rewrite rne_scale by lia. exact Henc.
  - destruct (binary_round_aux_spec s (Zpos m) e loc_Exact) as (Q & _ & HQ & Henc);
      [lia|lia|fold E; lia|].
    fold E in HQ, Henc. rewrite (HQ eq_refl) in Henc.
    replace (E - B) with ((E - e) + (e - B)) at 1 by lia.
    rewrite rne_scale by lia. exact Henc.
  - (* the mantissa is shifted left: the result is exact *)
    assert (Hmz : Zpos (Pos.iter xO m p) = Zpos m * 2 ^ (e - E)).
    { rewrite iter_xO. f_equal. f_equal. lia. }
    assert (HEz : fexp prec emax (Zdigits2 (Zpos (Pos.iter xO m p)) + E) = E).
    { rewrite Zdigits2_log2, Hmz by lia. rewrite Z.log2_mul_pow2 by lia.
      replace (e - E + Z.log2 (Zpos m) + 1 + E) with (Zdigits2 (Zpos m) + e);
        [reflexivity|].
      rewrite (Zdigits2_log2 (Zpos m)) by lia. lia. }
    destruct (binary_round_aux_spec s (Zpos (Pos.iter xO m p)) E loc_Exact)
      as (Q & _ & HQ & Henc); [lia|unfold emin in *; lia|rewrite HEz; lia|].
    rewrite HEz in HQ, Henc. rewrite (HQ eq_refl) in Henc.
    rewrite Z.sub_diag in Henc.
    assert (Hr0 : rne (Zpos (Pos.iter xO m p)) 0 = Zpos (Pos.iter xO m p)).
    { rewrite <- (rne_exact (Zpos (Pos.iter xO m p)) 0) at 2 by lia.
      rewrite Z.pow_0_r, Z.mul_1_r. reflexivity. }
    rewrite Hr0 in Henc.
    assert (HV : Zpos m * 2 ^ (e - B) = Zpos (Pos.iter xO m p) * 2 ^ (E - B)).
    { rewrite Hmz, <- Z.mul_assoc, <- pow2_split by (unfold emin in *; lia).
      f_equal. f_equal. lia. }
    rewrite HV, rne_exact by (unfold emin in *; lia). exact Henc.
Qed.


(** *** The rounding as a function on integers *)

Lemma Rm_0 : Rm 0 = 0.
Proof.
  unfold Rm. pose proof (kexp_pos 0) as Hk.
  replace 0 with (0 * 2 ^ kexp 0) at 1 by lia.
  rewrite rne_exact by lia. lia.
Qed.

Lemma Rm_nonneg (V : Z) : 0 <= V -> 0 <= Rm V.
Proof.
  intros HV. unfold Rm. pose proof (kexp_pos V) as Hk.
  pose proof (pow2_pos (kexp V) ltac:(lia)).
  pose proof (rne_nonneg V (kexp V) ltac:(lia) HV). nia.
Qed.

Lemma kexp_mono (V1 V2 : Z) : 0 < V1 <= V2 -> kexp V1 <= kexp V2.
Proof.
  intros H. unfold kexp, fexp.
  pose proof (Z.log2_le_mono V1 V2 ltac:(lia)). lia.
Qed.

Lemma Rm_mono (V1 V2 : Z) : 0 <= V1 <= V2 -> Rm V1 <= Rm V2.
Proof.
  intros [H1 H12].
  destruct (Z.eq_dec V1 0) as [->|N1]; [rewrite Rm_0; apply Rm_nonneg; lia|].
  pose proof (kexp_mono V1 V2 ltac:(lia)) as Hk.
  pose proof (kexp_pos V1) as Hk1. pose proof (kexp_pos V2) as Hk2.
  pose proof (pow2_pos (kexp V1) ltac:(lia)) as HP1.
  pose proof (pow2_pos (kexp V2) ltac:(lia)) as HP2.
  destruct (Z.eq_dec (kexp V1) (kexp V2)) as [E|NE].
  - unfold Rm. rewrite E. apply Z.mul_le_mono_nonneg_r; [lia|].
    apply rne_mono; lia.
  - (* a power of two separates the two binades *)
    pose proof (Z.log2_nonneg V2) as Hl2.
    pose proof (log2_bounds V2 ltac:(lia)) as [Hlow2 _].
    pose proof (log2_bounds V1 ltac:(lia)) as [_ Hup1].
    assert (Hkk : kexp V2 = Z.log2 V2 + 1 - prec /\ Z.log2 V1 < Z.log2 V2).
    { unfold kexp, fexp in *. pose proof (Z.log2_le_mono V1 V2 ltac:(lia)). lia. }
    destruct Hkk as [Hk2e Hlog].
    apply Z.le_trans with (2 ^ Z.log2 V2).
    + (* below *)
      unfold Rm.
      apply Z.le_trans with (rne (2 ^ (Z.log2 V2 - kexp V1) * 2 ^ kexp V1) (kexp V1) * 2 ^ kexp V1).
      * apply Z.mul_le_mono_nonneg_r; [lia|]. apply rne_mono; [lia|].
        rewrite <- pow2_split by lia.
        replace (Z.log2 V2 - kexp V1 + kexp V1) with (Z.log2 V2) by lia.
        apply Z.le_trans with (2 ^ (Z.log2 V1 + 1)); [lia|]. apply pow2_le.
        pose proof (Z.log2_nonneg V1). lia.
      * rewrite rne_exact by lia. rewrite <- pow2_split by lia.
        replace (Z.log2 V2 - kexp V1 + kexp V1) with (Z.log2 V2) by lia. lia.
    + (* above *)
      unfold Rm.
      apply Z.le_trans with (rne (2 ^ (Z.log2 V2 - kexp V2) * 2 ^ kexp V2) (kexp V2) * 2 ^ kexp V2).
      * rewrite rne_exact by lia. rewrite <- pow2_split by lia.
        replace (Z.log2 V2 - kexp V2 + kexp V2) with (Z.log2 V2) by lia. lia.
      * apply Z.mul_le_mono_nonneg_r; [lia|]. apply rne_mono; [lia|].
        rewrite <- pow2_split by lia.
        replace (Z.log2 V2 - kexp V2 + kexp V2) with (Z.log2 V2) by lia. exact Hlow2.
Qed.

Lemma Rm_error (V : Z) : - 2 ^ kexp V <= 2 * (Rm V - V) <= 2 ^ kexp V.
Proof. unfold Rm. apply rne_error. pose proof (kexp_pos V). lia. Qed.

(** The order embedding of the floats that are no NaN: the value in units
    of [2^B], the infinities at [INF]. *)
Definition ord (x : spec_float) : Z :=
  match x with
  | S754_zero _ | S754_nan => 0
  | S754_infinity s => cond_Zopp s INF
  | S754_finite s m e => cond_Zopp s (Zpos m * 2 ^ (e - B))
  end.

Definition not_nan (x : spec_float) : bool :=
  match x with S754_nan => false | _ => true end.

(** The order value of the rounding of [w]. *)
Definition Rnd (w : Z) : Z := Z.sgn w * Z.min (Rm (Z.abs w)) INF.

(** [r] is the rounding of the number [w]. *)
Definition rounded (w : Z) (r : spec_float) : Prop :=
  valid_binary prec emax r = true /\ not_nan r = true /\ ord r = Rnd w.

Lemma INF_pos : 0 < INF.
Proof. unfold INF. apply pow2_pos. unfold emin in *. lia. Qed.

Lemma encodes_rounded (s : bool) (V : Z) (r : spec_float) :
  0 < V -> encodes s (Rm V) r -> rounded (cond_Zopp s V) r.
Proof.
  intros HV [Hval Hr]. pose proof INF_pos as HI.
  pose proof (Rm_nonneg V ltac:(lia)) as HR.
  split; [exact Hval|].
  assert (Hz : Rnd (cond_Zopp s V) = cond_Zopp s (Z.min (Rm V) INF)).
  { unfold Rnd. destruct s; cbn [cond_Zopp].
    - rewrite Z.abs_opp, Z.abs_eq, Z.sgn_neg by lia. lia.
    - rewrite Z.abs_eq, Z.sgn_pos by lia. lia. }
  rewrite Hz.
  destruct r as [s'|s'| |s' m e]; cbn [not_nan ord]; try contradiction.
  - destruct Hr as [-> Hr]. split; [reflexivity|]. rewrite Hr.
    rewrite Z.min_l by lia. destruct s; reflexivity.
  - destruct Hr as [-> Hr]. split; [reflexivity|]. rewrite Z.min_r by lia. reflexivity.
  - destruct Hr as (-> & Hr & Hlt). split; [reflexivity|]. rewrite Z.min_l by lia.
    rewrite Hr. reflexivity.
Qed.

Lemma binary_normalize_rounded (m e : Z) (sz : bool) :
  B <= e -> rounded (m * 2 ^ (e - B)) (binary_normalize prec emax m e sz).
Proof.
  intros He. pose proof (pow2_pos (e - B) ltac:(lia)) as HP.
  destruct m as [|p|p]; cbn [binary_normalize].
  - split; [reflexivity|]. split; [reflexivity|]. reflexivity.
  - apply (encodes_rounded false (Zpos p * 2 ^ (e - B))); [lia|].
    apply binary_round_spec. exact He.
  - replace (Zneg p * 2 ^ (e - B)) with (cond_Zopp true (Zpos p * 2 ^ (e - B)))
      by (cbn [cond_Zopp]; lia).
    apply encodes_rounded; [lia|].
    apply binary_round_spec. exact He.
Qed.

Lemma Rnd_mono (w1 w2 : Z) : w1 <= w2 -> Rnd w1 <= Rnd w2.
Proof.
  intros H. pose proof INF_pos as HI. unfold Rnd.
  pose proof (Rm_nonneg (Z.abs w1) (Z.abs_nonneg w1)) as H1.
  pose proof (Rm_nonneg (Z.abs w2) (Z.abs_nonneg w2)) as H2.
  destruct (Z.lt_trichotomy w1 0) as [N1|[Z1|P1]];
  destruct (Z.lt_trichotomy w2 0) as [N2|[Z2|P2]]; try lia;
    rewrite ?(Z.sgn_neg w1), ?(Z.sgn_neg w2), ?(Z.sgn_pos w1), ?(Z.sgn_pos w2) by lia;
    subst; rewrite ?Z.sgn_0; try lia.
  - pose proof (Rm_mono (Z.abs w2) (Z.abs w1) ltac:(lia)). lia.
  - pose proof (Rm_mono (Z.abs w1) (Z.abs w2) ltac:(lia)). lia.
Qed.


(** *** Valid floats *)

Lemma valid_finite_inv (s : bool) (m : positive) (e : Z) :
  valid_binary prec emax (S754_finite s m e) = true ->
  emin prec emax <= e <= emax - prec /\
  Zpos m < 2 ^ prec /\
  (emin prec emax < e -> 2 ^ (prec - 1) <= Zpos m) /\
  fexp prec emax (Zdigits2 (Zpos m) + e) = e.
Proof.
  cbn [valid_binary]. unfold bounded, canonical_mantissa.
  intros H. apply andb_true_iff in H. destruct H as [Hc Hb].
  apply Z.eqb_eq in Hc. apply Z.leb_le in Hb.
  change (Zpos (digits2_pos m)) with (Zdigits2 (Zpos m)) in Hc.
  pose proof (Zdigits2_upper (Zpos m) ltac:(lia)) as Hu.
  pose proof (Zdigits2_lower (Zpos m) ltac:(lia)) as Hl.
  pose proof (Zdigits2_log2 (Zpos m) ltac:(lia)) as Hd.
  pose proof (Z.log2_nonneg (Zpos m)) as Hl0.
  pose proof (fexp_ge_emin (Zdigits2 (Zpos m) + e)) as Hge.
  split; [lia|]. split; [|split; [|exact Hc]].
  - apply Z.lt_le_trans with (1 := Hu). apply pow2_le. unfold fexp in Hc. lia.
  - intros Hn. apply Z.le_trans with (2 := Hl). apply pow2_le. unfold fexp in Hc. lia.
Qed.

Lemma ord_finite_bounds (s : bool) (m : positive) (e : Z) :
  valid_binary prec emax (S754_finite s m e) = true ->
  0 < Zpos m * 2 ^ (e - B) < INF.
Proof.
  intros H. destruct (valid_finite_inv s m e H) as (He & Hm & _ & _).
  pose proof (pow2_pos (e - B) ltac:(lia)) as HP.
  split; [lia|]. unfold INF.
  apply Z.lt_le_trans with (2 ^ prec * 2 ^ (e - B)).
  - apply Z.mul_lt_mono_pos_r; lia.
  - rewrite <- pow2_split by lia. apply pow2_le. lia.
Qed.

Lemma ord_bounds (x : spec_float) :
  valid_binary prec emax x = true -> - INF <= ord x <= INF.
Proof.
  intros H. pose proof INF_pos.
  destruct x as [s|s| |s m e]; cbn [ord]; try lia.
  - destruct s; cbn; lia.
  - pose proof (ord_finite_bounds s m e H). destruct s; cbn [cond_Zopp]; lia.
Qed.

(** Canonical mantissas are ordered by their exponents first. *)
Lemma canonical_lt (s1 s2 : bool) (m1 m2 : positive) (e1 e2 : Z) :
  valid_binary prec emax (S754_finite s1 m1 e1) = true ->
  valid_binary prec emax (S754_finite s2 m2 e2) = true ->
  e1 < e2 -> Zpos m1 * 2 ^ (e1 - B) < Zpos m2 * 2 ^ (e2 - B).
Proof.
  intros H1 H2 Hlt.
  destruct (valid_finite_inv _ _ _ H1) as (He1 & Hm1 & _ & _).
  destruct (valid_finite_inv _ _ _ H2) as (He2 & _ & Hn2 & _).
  specialize (Hn2 ltac:(lia)).
  pose proof (pow2_pos (e1 - B) ltac:(lia)) as HP1.
  pose proof (pow2_pos (e2 - B) ltac:(lia)) as HP2.
  apply Z.lt_le_trans with (2 ^ prec * 2 ^ (e1 - B)).
  - apply Z.mul_lt_mono_pos_r; lia.
  - apply Z.le_trans with (2 ^ (prec - 1) * 2 ^ (e2 - B)).
    + rewrite <- !pow2_split by lia. apply pow2_le. lia.
    + apply Z.mul_le_mono_nonneg_r; lia.
Qed.

Lemma compare_finite (m1 m2 : positive) (e1 e2 : Z) :
  valid_binary prec emax (S754_finite false m1 e1) = true ->
  valid_binary prec emax (S754_finite false m2 e2) = true ->
  match Z.compare e1 e2 with
  | Lt => Lt
  | Gt => Gt
  | Eq => Pos.compare_cont Eq m1 m2
  end = (Zpos m1 * 2 ^ (e1 - B) ?= Zpos m2 * 2 ^ (e2 - B)).
Proof.
  intros H1 H2.
  destruct (Z.compare_spec e1 e2) as [E|L|G].
  - subst e2. destruct (valid_finite_inv _ _ _ H1) as (He1 & _).
    pose proof (pow2_pos (e1 - B) ltac:(lia)) as HP.
    change (Pos.compare_cont Eq m1 m2) with (Zpos m1 ?= Zpos m2).
    apply Zmult_compare_compat_r. lia.
  - symmetry. apply Z.compare_lt_iff. apply (canonical_lt false false); assumption.
  - symmetry. apply Z.compare_gt_iff. apply (canonical_lt false false); assumption.
Qed.

(** [SFcompare] compares the order values. *)
Lemma compare_ord (x y : spec_float) :
  valid_binary prec emax x = true -> valid_binary prec emax y = true ->
  not_nan x = true -> not_nan y = true ->
  SFcompare x y = Some (ord x ?= ord y).
Proof.
  intros Hx Hy Nx Ny. pose proof INF_pos as HI.
  destruct x as [sx|sx| |sx mx ex]; try discriminate;
  destruct y as [sy|sy| |sy my ey]; try discriminate; cbn [SFcompare ord].
  - reflexivity.
  - destruct sy; cbn [cond_Zopp]; f_equal; symmetry;
      [apply Z.compare_gt_iff|apply Z.compare_lt_iff]; lia.
  - pose proof (ord_finite_bounds sy my ey Hy).
    destruct sy; cbn [cond_Zopp]; f_equal; symmetry;
      [apply Z.compare_gt_iff|apply Z.compare_lt_iff]; lia.
  - destruct sx; cbn [cond_Zopp]; f_equal; symmetry;
      [apply Z.compare_lt_iff|apply Z.compare_gt_iff]; lia.
  - destruct sx, sy; cbn [cond_Zopp]; f_equal; symmetry;
      try (apply Z.compare_eq_iff; lia);
      try (apply Z.compare_lt_iff; lia);
      try (apply Z.compare_gt_iff; lia).
  - pose proof (ord_finite_bounds sy my ey Hy).
    destruct sx, sy; cbn [cond_Zopp]; f_equal; symmetry;
      try (apply Z.compare_lt_iff; lia);
      try (apply Z.compare_gt_iff; lia).
  - pose proof (ord_finite_bounds sx mx ex Hx).
    destruct sx; cbn [cond_Zopp]; f_equal; symmetry;
      [apply Z.compare_lt_iff|apply Z.compare_gt_iff]; lia.
  - pose proof (ord_finite_bounds sx mx ex Hx).
    destruct sx, sy; cbn [cond_Zopp]; f_equal; symmetry;
      try (apply Z.compare_lt_iff; lia);
      try (apply Z.compare_gt_iff; lia).
  - pose proof (ord_finite_bounds sx mx ex Hx).
    pose proof (ord_finite_bounds sy my ey Hy).
    destruct sx, sy; cbn [cond_Zopp]; f_equal.
    + rewrite Z.compare_opp.
      rewrite (Z.compare_antisym (Zpos mx * 2 ^ (ex - B)) (Zpos my * 2 ^ (ey - B))).
      rewrite <- (compare_finite mx my ex ey) by assumption.
      destruct (ex ?= ey); reflexivity.
    + symmetry; apply Z.compare_lt_iff; lia.
    + symmetry; apply Z.compare_gt_iff; lia.
    + apply compare_finite; assumption.
Qed.

Lemma leb_ord (x y : spec_float) :
  valid_binary prec emax x = true -> valid_binary prec emax y = true ->
  not_nan x = true -> not_nan y = true ->
  SFleb x y = (ord x <=? ord y).
Proof.
  intros Hx Hy Nx Ny. unfold SFleb. rewrite (compare_ord x y) by assumption.
  unfold Z.leb. destruct (ord x ?= ord y); reflexivity.
Qed.

Lemma ltb_ord (x y : spec_float) :
  valid_binary prec emax x = true -> valid_binary prec emax y = true ->
  not_nan x = true -> not_nan y = true ->
  SFltb x y = (ord x <? ord y).
Proof.
  intros Hx Hy Nx Ny. unfold SFltb. rewrite (compare_ord x y) by assumption.
  unfold Z.ltb. destruct (ord x ?= ord y); reflexivity.
Qed.


(** *** Addition and subtraction *)

Lemma Rnd_0 : Rnd 0 = 0.
Proof. reflexivity. Qed.

Lemma Rnd_opp (w : Z) : Rnd (- w) = - Rnd w.
Proof. unfold Rnd. rewrite Z.sgn_opp, Z.abs_opp. lia. Qed.

Lemma Rnd_bounds (w : Z) : - INF <= Rnd w <= INF.
Proof.
  unfold Rnd. pose proof INF_pos.
  pose proof (Rm_nonneg (Z.abs w) (Z.abs_nonneg w)).
  destruct (Z.sgn_spec w) as [[_ ->]|[[_ ->]|[_ ->]]]; lia.
Qed.

(** A finite float is its own rounding. *)
Lemma Rnd_id (x : spec_float) :
  valid_binary prec emax x = true -> not_nan x = true ->
  match x with S754_infinity _ => False | _ => True end ->
  Rnd (ord x) = ord x.
Proof.
  intros Hv _ Hfin. destruct x as [s|s| |s m e]; try contradiction; try reflexivity.
  cbn [ord].
  destruct (valid_finite_inv s m e Hv) as (He & Hm & _ & Hc).
  pose proof (ord_finite_bounds s m e Hv) as Hb.
  assert (HRm : Rm (Zpos m * 2 ^ (e - B)) = Zpos m * 2 ^ (e - B)).
  { unfold Rm. rewrite kexp_scaled by lia. rewrite Hc.
    rewrite rne_exact by lia. reflexivity. }
  unfold Rnd. destruct s; cbn [cond_Zopp].
  - rewrite Z.abs_opp, Z.abs_eq, Z.sgn_neg, HRm by lia. lia.
  - rewrite Z.abs_eq, Z.sgn_pos, HRm by lia. lia.
Qed.

Lemma shl_align_fst (m : positive) (e e' : Z) :
  e' <= e -> Zpos (fst (shl_align m e e')) = Zpos m * 2 ^ (e - e').
Proof.
  intros H. unfold shl_align.
  destruct (e' - e) as [|p|p] eqn:E; cbn [fst].
  - replace (e - e') with 0 by lia. lia.
  - lia.
  - rewrite iter_xO. f_equal. f_equal. lia.
Qed.

Lemma cond_Zopp_mul (s : bool) (a b : Z) : cond_Zopp s a * b = cond_Zopp s (a * b).
Proof. destruct s; cbn; lia. Qed.

Lemma add_finite_rounded (sx sy : bool) (mx my : positive) (ex ey : Z) :
  B <= ex -> B <= ey ->
  rounded (ord (S754_finite sx mx ex) + ord (S754_finite sy my ey))
          (SFadd prec emax (S754_finite sx mx ex) (S754_finite sy my ey)).
Proof.
  intros Hx Hy. cbn [SFadd ord]. cbv zeta.
  rewrite !shl_align_fst by lia.
  match goal with |- rounded ?w (binary_normalize _ _ ?M ?ez _) =>
    replace w with (M * 2 ^ (ez - B))
  end.
  - apply binary_normalize_rounded. lia.
  - rewrite Z.mul_add_distr_r, !cond_Zopp_mul, <- !Z.mul_assoc, <- !pow2_split by lia.
    do 2 f_equal; f_equal; f_equal; lia.
Qed.

(** The order value of a sum. *)
Definition addF (a b : Z) : Z :=
  if Z.abs a =? INF then a else if Z.abs b =? INF then b else Rnd (a + b).

Lemma add_ord (x y : spec_float) :
  valid_binary prec emax x = true -> valid_binary prec emax y = true ->
  not_nan (SFadd prec emax x y) = true ->
  valid_binary prec emax (SFadd prec emax x y) = true /\
  ord (SFadd prec emax x y) = addF (ord x) (ord y) /\
  not_nan x = true /\ not_nan y = true /\
  (Z.abs (ord y) = INF -> ord x <> - ord y).
Proof.
  intros Hx Hy Hn. pose proof INF_pos as HI.
  destruct x as [sx|sx| |sx mx ex]; destruct y as [sy|sy| |sy my ey];
    try discriminate Hn.
  - (* zero, zero *)
    assert (E : ord (SFadd prec emax (S754_zero sx) (S754_zero sy)) = 0)
      by (destruct sx, sy; reflexivity).
    rewrite E. unfold addF. cbn [ord].
    destruct (Z.eqb_spec (Z.abs 0) INF); [lia|].
    repeat split; try lia. destruct sx, sy; reflexivity.
  - cbn [SFadd ord]. unfold addF.
    destruct (Z.eqb_spec (Z.abs 0) INF); [lia|].
    destruct (Z.eqb_spec (Z.abs (cond_Zopp sy INF)) INF) as [_|N];
      [|destruct sy; cbn in N; lia].
    repeat split; try assumption. destruct sy; cbn; lia.
  - cbn [SFadd]. unfold addF. 
    pose proof (ord_finite_bounds sy my ey Hy) as Hb.
    change (ord (S754_zero sx)) with 0.
    destruct (Z.eqb_spec (Z.abs 0) INF); [lia|].
    destruct (Z.eqb_spec (Z.abs (ord (S754_finite sy my ey))) INF) as [A|_].
    { cbn [ord] in A. destruct sy; cbn [cond_Zopp] in A; lia. }
    rewrite Z.add_0_l, Rnd_id by (cbn; trivial).
    repeat split; try assumption. cbn [ord]. destruct sy; cbn [cond_Zopp]; lia.
  - cbn [SFadd ord]. unfold addF.
    destruct (Z.eqb_spec (Z.abs (cond_Zopp sx INF)) INF) as [_|N];
      [|destruct sx; cbn in N; lia].
    repeat split; try assumption. lia.
  - assert (A1 : (Z.abs INF =? INF) = true) by (apply Z.eqb_eq; lia).
    assert (A2 : (Z.abs (- INF) =? INF) = true) by (apply Z.eqb_eq; lia).
    destruct sx, sy; try discriminate Hn; cbn [SFadd ord]; unfold addF; cbn [cond_Zopp];
      rewrite ?A1, ?A2; repeat split; try reflexivity; lia.
  - cbn [SFadd ord]. unfold addF.
    pose proof (ord_finite_bounds sy my ey Hy) as Hb.
    destruct (Z.eqb_spec (Z.abs (cond_Zopp sx INF)) INF) as [_|N];
      [|destruct sx; cbn in N; lia].
    repeat split; try assumption; try reflexivity.
    destruct sy; cbn [cond_Zopp]; lia.
  - cbn [SFadd]. unfold addF.
    pose proof (ord_finite_bounds sx mx ex Hx) as Hb.
    change (ord (S754_zero sy)) with 0.
    destruct (Z.eqb_spec (Z.abs (ord (S754_finite sx mx ex))) INF) as [A|_].
    { cbn [ord] in A. destruct sx; cbn [cond_Zopp] in A; lia. }
    destruct (Z.eqb_spec (Z.abs 0) INF); [lia|].
    rewrite Z.add_0_r, Rnd_id by (cbn; trivial).
    repeat split; try assumption; try reflexivity. lia.
  - cbn [SFadd]. unfold addF.
    pose proof (ord_finite_bounds sx mx ex Hx) as Hb.
    destruct (Z.eqb_spec (Z.abs (ord (S754_finite sx mx ex))) INF) as [A|_].
    { cbn [ord] in A. destruct sx; cbn [cond_Zopp] in A; lia. }
    destruct (Z.eqb_spec (Z.abs (ord (S754_infinity sy))) INF) as [_|N];
      [|destruct sy; cbn in N; lia].
    repeat split; try assumption; try reflexivity.
    cbn [ord]. destruct sx, sy; cbn [cond_Zopp]; lia.
  - destruct (valid_finite_inv _ _ _ Hx) as (Hex & _).
    destruct (valid_finite_inv _ _ _ Hy) as (Hey & _).
    destruct (add_finite_rounded sx sy mx my ex ey) as (Hv & _ & Ho); [lia|lia|].
    pose proof (ord_finite_bounds sx mx ex Hx) as Hbx.
    pose proof (ord_finite_bounds sy my ey Hy) as Hby.
    unfold addF.
    destruct (Z.eqb_spec (Z.abs (ord (S754_finite sx mx ex))) INF) as [A|_].
    { cbn [ord] in A. destruct sx; cbn [cond_Zopp] in A; lia. }
    destruct (Z.eqb_spec (Z.abs (ord (S754_finite sy my ey))) INF) as [A|_].
    { cbn [ord] in A. destruct sy; cbn [cond_Zopp] in A; lia. }
    repeat split; try assumption; try reflexivity.
    cbn [ord]. destruct sy; cbn [cond_Zopp]; lia.
Qed.

Lemma addF_mono (a1 a2 b : Z) :
  a1 <= a2 -> - INF <= a1 -> a2 <= INF -> - INF <= b <= INF ->
  (Z.abs b = INF -> a1 <> - b /\ a2 <> - b) ->
  addF a1 b <= addF a2 b.
Proof.
  intros H12 H1 H2 Hb Hex. pose proof INF_pos as HI. unfold addF.
  pose proof (Rnd_bounds (a1 + b)). pose proof (Rnd_bounds (a2 + b)).
  pose proof (Rnd_mono (a1 + b) (a2 + b) ltac:(lia)).
  destruct (Z.eqb_spec (Z.abs a1) INF); destruct (Z.eqb_spec (Z.abs a2) INF);
    destruct (Z.eqb_spec (Z.abs b) INF); lia.
Qed.

Lemma add_mono_l (x1 x2 y : spec_float) :
  valid_binary prec emax x1 = true -> valid_binary prec emax x2 = true ->
  valid_binary prec emax y = true ->
  not_nan (SFadd prec emax x1 y) = true -> not_nan (SFadd prec emax x2 y) = true ->
  ord x1 <= ord x2 ->
  ord (SFadd prec emax x1 y) <= ord (SFadd prec emax x2 y).
Proof.
  intros H1 H2 Hy N1 N2 Hle.
  destruct (add_ord x1 y H1 Hy N1) as (_ & -> & _ & _ & E1).
  destruct (add_ord x2 y H2 Hy N2) as (_ & -> & _ & _ & E2).
  pose proof (ord_bounds x1 H1). pose proof (ord_bounds x2 H2). pose proof (ord_bounds y Hy).
  apply addF_mono; lia.
Qed.

Lemma valid_opp (x : spec_float) :
  valid_binary prec emax (SFopp x) = valid_binary prec emax x.
Proof. destruct x; reflexivity. Qed.

Lemma ord_opp (x : spec_float) : ord (SFopp x) = - ord x.
Proof. destruct x as [s|s| |s m e]; cbn [SFopp ord]; try lia; destruct s; cbn; lia. Qed.

Lemma sub_add_opp (x y : spec_float) :
  SFsub prec emax x y = SFadd prec emax x (SFopp y).
Proof.
  destruct x as [sx|sx| |sx mx ex]; destruct y as [sy|sy| |sy my ey];
    try reflexivity; destruct sx, sy; reflexivity.
Qed.

Lemma sub_ord (x y : spec_float) :
  valid_binary prec emax x = true -> valid_binary prec emax y = true ->
  not_nan (SFsub prec emax x y) = true ->
  valid_binary prec emax (SFsub prec emax x y) = true /\
  ord (SFsub prec emax x y) = addF (ord x) (- ord y) /\
  not_nan x = true /\ not_nan y = true.
Proof.
  intros Hx Hy Hn. rewrite sub_add_opp in *.
  destruct (add_ord x (SFopp y) Hx) as (A & C & D & E & _);
    [rewrite valid_opp; exact Hy|exact Hn|].
  rewrite ord_opp in C. repeat split; try assumption.
  destruct y; try reflexivity; discriminate.
Qed.

Lemma sub_mono_l (x1 x2 y : spec_float) :
  valid_binary prec emax x1 = true -> valid_binary prec emax x2 = true ->
  valid_binary prec emax y = true ->
  not_nan (SFsub prec emax x1 y) = true -> not_nan (SFsub prec emax x2 y) = true ->
  ord x1 <= ord x2 ->
  ord (SFsub prec emax x1 y) <= ord (SFsub prec emax x2 y).
Proof.
  intros H1 H2 Hy N1 N2 Hle. rewrite !sub_add_opp in *.
  apply add_mono_l; try assumption. rewrite valid_opp; exact Hy.
Qed.


(** *** Multiplication and division *)

Hypothesis HB2 : B <= - 2 * (emax + prec).

Lemma binary_round_aux_exact (s : bool) (m e : Z) :
  0 < m -> B <= e -> e <= fexp prec emax (Zdigits2 m + e) ->
  encodes s (Rm (m * 2 ^ (e - B))) (binary_round_aux prec emax s m e loc_Exact).
Proof.
  intros Hm He HE.
  destruct (binary_round_aux_spec s m e loc_Exact) as (Q & _ & HQ & Henc); [lia|lia|lia|].
  rewrite (HQ eq_refl) in Henc.
  unfold Rm. rewrite kexp_scaled by lia.
  replace (fexp prec emax (Zdigits2 m + e) - B)
    with ((fexp prec emax (Zdigits2 m + e) - e) + (e - B)) at 1 by lia.
  rewrite rne_scale by lia. exact Henc.
Qed.

Lemma emin_nonpos : emin prec emax <= 0.
Proof. unfold emin. lia. Qed.

(** The product of two canonical mantissas is long enough: it is shifted
    right, or not at all. *)
Lemma mul_aligned (sx sy : bool) (mx my : positive) (ex ey : Z) :
  valid_binary prec emax (S754_finite sx mx ex) = true ->
  valid_binary prec emax (S754_finite sy my ey) = true ->
  ex + ey <= fexp prec emax (Zdigits2 (Zpos (mx * my)) + (ex + ey)).
Proof.
  intros Hx Hy.
  destruct (valid_finite_inv _ _ _ Hx) as (Hex & _ & _ & Hcx).
  destruct (valid_finite_inv _ _ _ Hy) as (Hey & _ & _ & Hcy).
  rewrite Zdigits2_log2 in * by lia.
  pose proof (Z.log2_mul_below (Zpos mx) (Zpos my) ltac:(lia) ltac:(lia)) as Hl.
  pose proof (Z.log2_nonneg (Zpos mx)). pose proof (Z.log2_nonneg (Zpos my)).
  pose proof emin_nonpos.
  rewrite Pos2Z.inj_mul. unfold fexp in *. lia.
Qed.

Lemma mul_finite_rounded (sx sy : bool) (mx my : positive) (ex ey : Z) :
  valid_binary prec emax (S754_finite sx mx ex) = true ->
  valid_binary prec emax (S754_finite sy my ey) = true ->
  rounded (cond_Zopp (xorb sx sy) (Zpos mx * Zpos my * 2 ^ (ex + ey - B)))
          (SFmul prec emax (S754_finite sx mx ex) (S754_finite sy my ey)).
Proof.
  intros Hx Hy.
  destruct (valid_finite_inv _ _ _ Hx) as (Hex & _).
  destruct (valid_finite_inv _ _ _ Hy) as (Hey & _).
  assert (HBe : B <= ex + ey) by (unfold emin in *; lia).
  pose proof (pow2_pos (ex + ey - B) ltac:(lia)).
  cbn [SFmul].
  apply encodes_rounded; [lia|].
  rewrite <- Pos2Z.inj_mul.
  apply binary_round_aux_exact; [lia|exact HBe|].
  apply (mul_aligned sx sy); assumption.
Qed.

Lemma mul_valid (x y : spec_float) :
  valid_binary prec emax x = true -> valid_binary prec emax y = true ->
  valid_binary prec emax (SFmul prec emax x y) = true.
Proof.
  intros Hx Hy.
  destruct x as [sx|sx| |sx mx ex]; destruct y as [sy|sy| |sy my ey]; try reflexivity.
  apply (mul_finite_rounded sx sy mx my ex ey Hx Hy).
Qed.

Lemma add_valid (x y : spec_float) :
  valid_binary prec emax x = true -> valid_binary prec emax y = true ->
  valid_binary prec emax (SFadd prec emax x y) = true.
Proof.
  intros Hx Hy.
  destruct (not_nan (SFadd prec emax x y)) eqn:N.
  - apply (add_ord x y Hx Hy N).
  - destruct (SFadd prec emax x y); try discriminate. reflexivity.
Qed.

Lemma sub_valid (x y : spec_float) :
  valid_binary prec emax x = true -> valid_binary prec emax y = true ->
  valid_binary prec emax (SFsub prec emax x y) = true.
Proof.
  intros Hx Hy. rewrite sub_add_opp. apply add_valid; [exact Hx|].
  rewrite valid_opp. exact Hy.
Qed.

Lemma normalize_valid (m e : Z) (sz : bool) :
  B <= e -> valid_binary prec emax (binary_normalize prec emax m e sz) = true.
Proof. intros He. apply (binary_normalize_rounded m e sz He). Qed.

(** The quotient of the division, its exponent, and why it is long
    enough. *)
Lemma div_core_spec (m1 m2 e1 e2 : Z) :
  0 < m1 -> 0 < m2 ->
  let e' := Z.min (fexp prec emax (Zdigits2 m1 + e1 - (Zdigits2 m2 + e2))) (e1 - e2) in
  exists l,
    SFdiv_core_binary prec emax m1 e1 m2 e2 = (m1 * 2 ^ (e1 - e2 - e') / m2, e', l) /\
    e' <= fexp prec emax (Zdigits2 (m1 * 2 ^ (e1 - e2 - e') / m2) + e') /\
    Zdigits2 m1 + e1 - (Zdigits2 m2 + e2) <= Zdigits2 (m1 * 2 ^ (e1 - e2 - e') / m2) + e'.
Proof.
  intros H1 H2 e'.
  set (s := e1 - e2 - e').
  assert (Hs : 0 <= s) by (unfold s, e'; lia).
  pose proof (pow2_pos s Hs) as HPs.
  unfold SFdiv_core_binary. fold e'. fold s.
  assert (Hm' : match s with
                | Zpos _ => Z.shiftl m1 s
                | Z0 => m1
                | Zneg _ => 0
                end = m1 * 2 ^ s).
  { destruct s as [|p|p] eqn:Es; [rewrite Z.pow_0_r; lia|apply Z.shiftl_mul_pow2; lia|lia]. }
  rewrite Hm'.
  assert (Hq : fst (Z.div_eucl (m1 * 2 ^ s) m2) = m1 * 2 ^ s / m2) by reflexivity.
  destruct (Z.div_eucl (m1 * 2 ^ s) m2) as [q r]. cbn [fst] in Hq. subst q.
  eexists. split; [reflexivity|].
  (* the quotient has at least d1 - d2 + s digits *)
  pose proof (Zdigits2_lower m1 H1) as Hl1.
  pose proof (Zdigits2_upper m2 ltac:(lia)) as Hu2.
  pose proof (Zdigits2_log2 m1 H1) as Hd1. pose proof (Z.log2_nonneg m1) as Hn1.
  pose proof (Zdigits2_log2 m2 H2) as Hd2. pose proof (Z.log2_nonneg m2) as Hn2.
  set (q := m1 * 2 ^ s / m2).
  assert (Hq0 : 0 <= q) by (apply Z.div_pos; nia).
  assert (Hdq : Zdigits2 m1 - Zdigits2 m2 + s <= Zdigits2 q).
  { pose proof (Zdigits2_nonneg q) as Hq1.
    destruct (Z_le_gt_dec (Zdigits2 m1 - Zdigits2 m2 + s) 0) as [Hle|Hgt]; [lia|].
    set (t := Zdigits2 m1 - Zdigits2 m2 + s - 1).
    assert (Ht : 0 <= t) by (unfold t; lia).
    assert (Hqt : 2 ^ t <= q).
    { unfold q. apply Z.div_le_lower_bound; [lia|].
      apply Z.le_trans with (2 ^ Zdigits2 m2 * 2 ^ t).
      - apply Z.mul_le_mono_nonneg_r; [pose proof (pow2_pos t Ht)|]; lia.
      - rewrite <- pow2_split by lia.
        replace (Zdigits2 m2 + t) with ((Zdigits2 m1 - 1) + s) by (unfold t; lia).
        rewrite pow2_split by lia. apply Z.mul_le_mono_nonneg_r; lia. }
    pose proof (pow2_pos t Ht).
    rewrite (Zdigits2_log2 q) by lia.
    apply Z.log2_le_pow2 in Hqt; [|lia]. unfold t in Hqt. lia. }
  split; [|unfold s in Hdq; lia].
  unfold e' at 1. unfold fexp in *. unfold s, e' in *. lia.
Qed.

Lemma div_finite_spec (sx sy : bool) (mx my : positive) (ex ey : Z) :
  valid_binary prec emax (S754_finite sx mx ex) = true ->
  valid_binary prec emax (S754_finite sy my ey) = true ->
  let e' := Z.min (fexp prec emax (Zdigits2 (Zpos mx) + ex - (Zdigits2 (Zpos my) + ey)))
                  (ex - ey) in
  let q := Zpos mx * 2 ^ (ex - ey - e') / Zpos my in
  let E := fexp prec emax (Zdigits2 q + e') in
  exists Q,
    q / 2 ^ (E - e') <= Q <= q / 2 ^ (E - e') + 1 /\
    0 <= q /\ e' <= E /\
    Zdigits2 (Zpos mx) + ex - (Zdigits2 (Zpos my) + ey) <= Zdigits2 q + e' /\
    encodes (xorb sx sy) (Q * 2 ^ (E - B))
            (SFdiv prec emax (S754_finite sx mx ex) (S754_finite sy my ey)).
Proof.
  intros Hx Hy e' q E.
  destruct (valid_finite_inv _ _ _ Hx) as (Hex & _).
  destruct (valid_finite_inv _ _ _ Hy) as (Hey & _).
  destruct (div_core_spec (Zpos mx) (Zpos my) ex ey) as (l & Hcore & Hal & Hdig); [lia|lia|].
  fold e' in Hcore, Hal, Hdig. fold q in Hcore, Hal, Hdig.
  cbn [SFdiv]. rewrite Hcore.
  assert (Hq0 : 0 <= q).
  { unfold q. apply Z.div_pos; [|lia].
    assert (0 <= ex - ey - e') by (unfold e'; lia).
    pose proof (pow2_pos (ex - ey - e') ltac:(lia)). lia. }
  assert (HBe : B <= e').
  { unfold e'. pose proof (fexp_ge_emin (Zdigits2 (Zpos mx) + ex - (Zdigits2 (Zpos my) + ey))).
    unfold emin in *. lia. }
  destruct (binary_round_aux_spec (xorb sx sy) q e' l Hq0 HBe Hal) as (Q & HQ & _ & Henc).
  exists Q. split; [exact HQ|]. split; [exact Hq0|]. split; [exact Hal|].
  split; [exact Hdig|exact Henc].
Qed.

Lemma div_valid (x y : spec_float) :
  valid_binary prec emax x = true -> valid_binary prec emax y = true ->
  valid_binary prec emax (SFdiv prec emax x y) = true.
Proof.
  intros Hx Hy.
  destruct x as [sx|sx| |sx mx ex]; destruct y as [sy|sy| |sy my ey]; try reflexivity.
  destruct (div_finite_spec sx sy mx my ex ey Hx Hy) as (Q & _ & _ & _ & _ & Henc).
  apply Henc.
Qed.

(** A quotient of finite floats is at least the power of two below the
    quotient of the leading bits, unless it is subnormal. *)
Lemma div_finite_lower (sx sy : bool) (mx my : positive) (ex ey : Z) :
  valid_binary prec emax (S754_finite sx mx ex) = true ->
  valid_binary prec emax (S754_finite sy my ey) = true ->
  let D := Zdigits2 (Zpos mx) + ex - (Zdigits2 (Zpos my) + ey) in
  emin prec emax < D - prec ->
  exists W,
    2 ^ (D - 1 - B) <= W /\
    encodes (xorb sx sy) W (SFdiv prec emax (S754_finite sx mx ex) (S754_finite sy my ey)).
Proof.
  intros Hx Hy D HD.
  destruct (div_finite_spec sx sy mx my ex ey Hx Hy) as (Q & HQ & Hq0 & Hal & Hdig & Henc).
  cbv zeta in HQ, Hq0, Hal, Hdig, Henc. fold D in HQ, Hq0, Hal, Hdig, Henc.
  set (e' := Z.min (fexp prec emax D) (ex - ey)) in *.
  set (q := Zpos mx * 2 ^ (ex - ey - e') / Zpos my) in *.
  set (E := fexp prec emax (Zdigits2 q + e')) in *.
  exists (Q * 2 ^ (E - B)). split; [|exact Henc].
  assert (HE : E = Zdigits2 q + e' - prec) by (unfold E, fexp in *; lia).
  assert (Hn : 0 <= E - e') by lia.
  assert (Hqpos : 0 < q).
  { destruct (Z.eq_dec q 0) as [Z0|]; [|lia].
    rewrite Z0 in HE, Hdig. cbn [Zdigits2] in HE, Hdig. unfold fexp in *. lia. }
  pose proof (Zdigits2_lower q Hqpos) as Hl.
  pose proof (pow2_pos (E - e') Hn) as HPn.
  assert (HQ23 : 2 ^ (prec - 1) <= Q).
  { apply Z.le_trans with (q / 2 ^ (E - e')); [|lia].
    apply Z.div_le_lower_bound; [lia|].
    rewrite Z.mul_comm, <- pow2_split by lia.
    replace (prec - 1 + (E - e')) with (Zdigits2 q - 1) by lia. exact Hl. }
  assert (HEB : 0 <= E - B).
  { pose proof (fexp_ge_emin (Zdigits2 q + e')). fold E in H. lia. }
  pose proof (pow2_pos (E - B) HEB).
  apply Z.le_trans with (2 ^ (prec - 1) * 2 ^ (E - B)).
  - rewrite <- pow2_split by lia. apply pow2_le. unfold emin in *. lia.
  - apply Z.mul_le_mono_nonneg_r; lia.
Qed.

(** *** Finite operands *)

Definition finite (x : spec_float) : bool :=
  match x with S754_zero _ | S754_finite _ _ _ => true | _ => false end.

Lemma finite_ord_lt (x : spec_float) :
  valid_binary prec emax x = true -> finite x = true -> - INF < ord x < INF.
Proof.
  intros Hv Hf. pose proof INF_pos.
  destruct x as [s|s| |s m e]; try discriminate; cbn [ord]; [lia|].
  pose proof (ord_finite_bounds s m e Hv). destruct s; cbn [cond_Zopp]; lia.
Qed.

Lemma finite_of_ord (x : spec_float) :
  not_nan x = true -> - INF < ord x < INF -> finite x = true.
Proof.
  intros Hn Ho. destruct x as [s|s| |s m e]; try discriminate; try reflexivity.
  cbn [ord] in Ho. destruct s; cbn [cond_Zopp] in Ho; lia.
Qed.

(** With a finite first operand a sum is a number as soon as the second
    operand is. *)
Lemma add_finite_l (x y : spec_float) :
  valid_binary prec emax x = true -> valid_binary prec emax y = true ->
  finite x = true -> not_nan y = true ->
  valid_binary prec emax (SFadd prec emax x y) = true /\
  not_nan (SFadd prec emax x y) = true /\
  ord (SFadd prec emax x y) =
    if Z.abs (ord y) =? INF then ord y else Rnd (ord x + ord y).
Proof.
  intros Hx Hy Hf Hn.
  assert (N : not_nan (SFadd prec emax x y) = true).
  { destruct x as [sx|sx| |sx mx ex]; try discriminate;
    destruct y as [sy|sy| |sy my ey]; try discriminate; try reflexivity.
    - destruct sx, sy; reflexivity.
    - destruct (valid_finite_inv _ _ _ Hx) as (Hex & _).
      destruct (valid_finite_inv _ _ _ Hy) as (Hey & _).
      apply (add_finite_rounded sx sy mx my ex ey); lia. }
  destruct (add_ord x y Hx Hy N) as (V & O & _).
  split; [exact V|]. split; [exact N|].
  rewrite O. unfold addF.
  pose proof (finite_ord_lt x Hx Hf).
  destruct (Z.eqb_spec (Z.abs (ord x)) INF); [lia|reflexivity].
Qed.

Lemma finite_opp (x : spec_float) : finite (SFopp x) = finite x.
Proof. destruct x; reflexivity. Qed.

Lemma sub_finite (x y : spec_float) :
  valid_binary prec emax x = true -> valid_binary prec emax y = true ->
  finite x = true -> finite y = true ->
  valid_binary prec emax (SFsub prec emax x y) = true /\
  not_nan (SFsub prec emax x y) = true /\
  ord (SFsub prec emax x y) = Rnd (ord x - ord y).
Proof.
  intros Hx Hy Fx Fy. rewrite sub_add_opp.
  destruct (add_finite_l x (SFopp y)) as (V & N & O); try assumption.
  - rewrite valid_opp. exact Hy.
  - destruct y; try discriminate; reflexivity.
  - split; [exact V|]. split; [exact N|]. rewrite O, ord_opp.
    pose proof (finite_ord_lt y Hy Fy).
    destruct (Z.eqb_spec (Z.abs (- ord y)) INF); [lia|]. reflexivity.
Qed.

Lemma mul_finite (x y : spec_float) :
  valid_binary prec emax x = true -> valid_binary prec emax y = true ->
  finite x = true -> finite y = true ->
  valid_binary prec emax (SFmul prec emax x y) = true /\
  not_nan (SFmul prec emax x y) = true /\
  ord (SFmul prec emax x y) = Rnd (ord x * ord y / 2 ^ (- B)).
Proof.
  intros Hx Hy Fx Fy.
  assert (HB0 : 0 < - B) by (unfold emin in *; lia).
  pose proof (pow2_pos (- B) ltac:(lia)) as HPB.
  destruct x as [sx|sx| |sx mx ex]; try discriminate;
  destruct y as [sy|sy| |sy my ey]; try discriminate.
  - cbn. repeat split.
  - cbn [SFmul ord valid_binary not_nan]. rewrite Z.mul_0_l, Z.div_0_l by lia. repeat split.
  - cbn [SFmul ord valid_binary not_nan]. rewrite Z.mul_0_r, Z.div_0_l by lia. repeat split.
  - destruct (valid_finite_inv _ _ _ Hx) as (Hex & _).
    destruct (valid_finite_inv _ _ _ Hy) as (Hey & _).
    destruct (mul_finite_rounded sx sy mx my ex ey Hx Hy) as (V & N & O).
    split; [exact V|]. split; [exact N|]. rewrite O. f_equal.
    cbn [ord].
    assert (Hprod : cond_Zopp sx (Zpos mx * 2 ^ (ex - B)) * cond_Zopp sy (Zpos my * 2 ^ (ey - B)) =
                    cond_Zopp (xorb sx sy) (Zpos mx * Zpos my * 2 ^ (ex + ey - B)) * 2 ^ (- B)).
    { replace (ex - B) with ((ex + ey - B) + (- ey)) by lia.
      replace (ey - B) with (ey + - B) at 1 by lia.
      assert (Hsplit : 2 ^ (ex + ey - B + - ey) * 2 ^ (ey + - B) = 2 ^ (ex + ey - B) * 2 ^ (- B)).
      { rewrite <- !Z.pow_add_r by (unfold emin in *; lia). f_equal. lia. }
      destruct sx, sy; cbn [xorb cond_Zopp]; nia. }
    rewrite Hprod, Z.div_mul by lia. reflexivity.
Qed.

(** An addition makes progress when the number added is more than half a
    unit in the last place of the sum. *)
Lemma Rnd_add_gt (a d : Z) :
  0 <= a < INF -> 0 < d -> 2 ^ kexp (a + d) < 2 * d -> a < Rnd (a + d).
Proof.
  intros Ha Hd Hk. unfold Rnd.
  rewrite Z.sgn_pos, Z.abs_eq by lia.
  pose proof (Rm_error (a + d)). lia.
Qed.

Lemma kexp_le (W K : Z) :
  0 < W < 2 ^ (K + prec) -> emin prec emax - B <= K -> kexp W <= K.
Proof.
  intros HW HK. unfold kexp, fexp.
  assert (Z.log2 W < K + prec) by (apply Z.log2_lt_pow2; lia).
  lia.
Qed.

End Format.

End Rounding.

(** * Part VII: the displayed server time grows with the clock *)

Module DoubleFacts.
Import ServerConnection.
Import EstimatorFacts.
Import Rounding.

(** The unit of the order values of [double]: [2^B]. *)
Definition B : Z := -2200.

(** A [double] as the hardware has it: a finite one is in canonical form,
    its exponent in range. *)
Definition valid (x : double) : Prop := valid_binary Double.prec Double.emax x = true.

Definition value (x : double) : Z := ord Double.emax B x.

Lemma Hprec : 0 < Double.prec.
Proof. reflexivity. Qed.

Lemma Hemax : Double.prec < Double.emax.
Proof. reflexivity. Qed.

Lemma HB : B < emin Double.prec Double.emax.
Proof. reflexivity. Qed.

Lemma HB2 : B <= - 2 * (Double.emax + Double.prec).
Proof. discriminate. Qed.

Lemma valid_add (x y : double) : valid x -> valid y -> valid (Double.add x y).
Proof. apply (add_valid _ _ B Hprec Hemax HB). Qed.

Lemma valid_sub (x y : double) : valid x -> valid y -> valid (Double.sub x y).
Proof. apply (sub_valid _ _ B Hprec Hemax HB). Qed.

Lemma valid_mul (x y : double) : valid x -> valid y -> valid (Double.mul x y).
Proof. apply (mul_valid _ _ B Hprec Hemax HB HB2). Qed.

Lemma valid_div (x y : double) : valid x -> valid y -> valid (Double.div x y).
Proof. apply (div_valid _ _ B Hprec Hemax HB HB2). Qed.

Lemma valid_of_Z (n : Z) : valid (Double.of_Z n).
Proof. apply (normalize_valid _ _ B Hprec Hemax HB). discriminate. Qed.

Lemma estimate_loop_valid (c : Connection) (n i : nat) (os ps o p : double) :
  Forall valid (lastTimeOffsets c) -> Forall valid (lastPings c) ->
  valid os -> valid ps ->
  estimate_loop c n i os ps = Some (o, p) -> valid o /\ valid p.
Proof.
  intros Ho Hp. revert i os ps.
  induction n as [|n IH]; intros i os ps Hos Hps H; cbn [estimate_loop] in H.
  - injection H as <- <-. split; assumption.
  - destruct (nth_error (lastTimeOffsets c) i) as [x|] eqn:Ex; [|discriminate].
    destruct (nth_error (lastPings c) i) as [y|] eqn:Ey; [|discriminate].
    apply IH in H; [exact H| |].
    + apply valid_add; [exact Hos|].
      apply (proj1 (Forall_forall _ _) Ho). eapply nth_error_In; eassumption.
    + apply valid_add; [exact Hps|].
      apply (proj1 (Forall_forall _ _) Hp). eapply nth_error_In; eassumption.
Qed.

Lemma estimate_valid (c : Connection) (filteredPing filteredOffset : double) :
  Forall valid (lastTimeOffsets c) -> Forall valid (lastPings c) ->
  EstimateCurrentPingAndOffset c = Some (filteredPing, filteredOffset) ->
  valid filteredPing /\ valid filteredOffset.
Proof.
  intros Ho Hp H. unfold EstimateCurrentPingAndOffset in H.
  destruct (estimate_loop c _ 0 Double.zero Double.zero) as [[os ps]|] eqn:E; [|discriminate].
  injection H as <- <-.
  destruct (estimate_loop_valid c _ 0%nat Double.zero Double.zero os ps Ho Hp eq_refl eq_refl E) as [Vo Vp].
  split; apply valid_div; try assumption; apply valid_of_Z.
Qed.

Lemma is_nan_not_nan (x : double) : Double.is_nan x = false -> not_nan x = true.
Proof. destruct x; cbn; congruence. Qed.

(** C8, as the code has it: for a sample window that does not change, whose
    samples are valid doubles, and clock readings [t1 <= t2], the displayed
    server time at [t2] is at least the one at [t1] whenever the two are
    numbers (no NaN). *)
Theorem displayed_server_time_monotone (c : Connection) (t1 t2 r1 r2 : double) :
  Forall valid (lastTimeOffsets c) -> Forall valid (lastPings c) ->
  valid t1 -> valid t2 ->
  Double.leb t1 t2 = true ->
  GetDisplayedServerTime c t1 = Some r1 ->
  GetDisplayedServerTime c t2 = Some r2 ->
  Double.is_nan r1 = false -> Double.is_nan r2 = false ->
  Double.leb r1 r2 = true.
Proof.
  intros Ho Hp V1 V2 Hle G1 G2 N1 N2.
  unfold GetDisplayedServerTime in G1, G2.
  destruct (EstimateCurrentPingAndOffset c) as [[fp fo]|] eqn:E; [|discriminate].
  destruct (estimate_valid c fp fo Ho Hp E) as [Vp Vo].
  cbv zeta in G1, G2. injection G1 as <-. injection G2 as <-.
  apply is_nan_not_nan in N1, N2.
  set (h := Double.mul one_half fp) in *.
  assert (Vh : valid h) by (apply valid_mul; [reflexivity|exact Vp]).
  assert (Vm : valid kSafetyMargin) by reflexivity.
  pose proof (valid_add t1 fo V1 Vo) as Va1.
  pose proof (valid_add t2 fo V2 Vo) as Va2.
  pose proof (valid_sub _ h Va1 Vh) as Vb1.
  pose proof (valid_sub _ h Va2 Vh) as Vb2.
  destruct (sub_ord _ _ B Hprec Hemax HB _ _ Vb1 Vm N1) as (Vr1 & _ & Nb1 & _).
  destruct (sub_ord _ _ B Hprec Hemax HB _ _ Vb2 Vm N2) as (Vr2 & _ & Nb2 & _).
  destruct (sub_ord _ _ B Hprec Hemax HB _ _ Va1 Vh Nb1) as (_ & _ & Na1 & _).
  destruct (sub_ord _ _ B Hprec Hemax HB _ _ Va2 Vh Nb2) as (_ & _ & Na2 & _).
  destruct (add_ord _ _ B Hprec Hemax HB _ _ V1 Vo Na1) as (_ & _ & Nt1 & _).
  destruct (add_ord _ _ B Hprec Hemax HB _ _ V2 Vo Na2) as (_ & _ & Nt2 & _).
  unfold Double.leb in *.
  rewrite (leb_ord _ _ B Hprec Hemax HB) in Hle by assumption.
  rewrite (leb_ord _ _ B Hprec Hemax HB) by assumption.
  apply Z.leb_le in Hle. apply Z.leb_le.
  apply (sub_mono_l _ _ B Hprec Hemax HB); try assumption.
  apply (sub_mono_l _ _ B Hprec Hemax HB); try assumption.
  apply (add_mono_l _ _ B Hprec Hemax HB); assumption.
Qed.

Lemma displayed_server_time_monotone_witness :
  exists r1 r2,
    GetDisplayedServerTime scenario (Double.dec 10000 3) = Some r1 /\
    GetDisplayedServerTime scenario (Double.dec 10016 3) = Some r2 /\
    Double.leb r1 r2 = true.
Proof.
  eexists _, _. split; [reflexivity|]. split; [reflexivity|].
  apply (displayed_server_time_monotone scenario (Double.dec 10000 3) (Double.dec 10016 3)).
  - repeat constructor.
  - repeat constructor.
  - reflexivity.
  - reflexivity.
  - vm_compute. reflexivity.
  - reflexivity.
  - reflexivity.
  - vm_compute. reflexivity.
  - vm_compute. reflexivity.
Defined.

(** C8, counterexample: on the empty window the displayed server time is
    NaN at every clock reading, and NaN is not at least NaN. *)
Lemma displayed_server_time_nan_not_ordered :
  Double.leb (Double.dec 1 0) (Double.dec 2 0) = true /\
  exists r1 r2,
    GetDisplayedServerTime empty_window (Double.dec 1 0) = Some r1 /\
    GetDisplayedServerTime empty_window (Double.dec 2 0) = Some r2 /\
    Double.leb r1 r2 = false.
Proof.
  split; [vm_compute; reflexivity|].
  eexists _, _. split; [vm_compute; reflexivity|]. split; vm_compute; reflexivity.
Qed.

End DoubleFacts.

(** * Part VIII: the animation loop of [Render] *)

Module AnimationFacts.
Import ClientUnit.
Import Rounding.
Import DoubleFacts.

Ltac format_side := first [exact Hprec | exact Hemax | exact HB | exact HB2].

Definition round (w : Z) : Z := Rnd Double.prec Double.emax B w.

Definition inf : Z := INF Double.emax B.

Lemma round_mono (w1 w2 : Z) : w1 <= w2 -> round w1 <= round w2.
Proof. unfold round. apply Rnd_mono; format_side. Qed.

Lemma round_id (x : double) : valid x -> finite x = true -> round (value x) = value x.
Proof.
  intros Hv Hf. unfold round, value.
  apply Rnd_id; try format_side; try exact Hv; destruct x; try discriminate; trivial.
Qed.

Lemma value_finite (x : double) : valid x -> finite x = true -> - inf < value x < inf.
Proof. unfold value, inf. apply finite_ord_lt; format_side. Qed.

Lemma finite_of_value (x : double) :
  not_nan x = true -> - inf < value x < inf -> finite x = true.
Proof. apply finite_of_ord. Qed.

Lemma sub_finite_value (x y : double) :
  valid x -> valid y -> finite x = true -> finite y = true ->
  valid (Double.sub x y) /\ not_nan (Double.sub x y) = true /\
  value (Double.sub x y) = round (value x - value y).
Proof. unfold value, round. apply sub_finite; format_side. Qed.

Lemma mul_finite_value (x y : double) :
  valid x -> valid y -> finite x = true -> finite y = true ->
  valid (Double.mul x y) /\ not_nan (Double.mul x y) = true /\
  value (Double.mul x y) = round (value x * value y / 2 ^ (- B)).
Proof. unfold value, round. apply mul_finite; format_side. Qed.

Lemma round_opp (w : Z) : round (- w) = - round w.
Proof. apply Rnd_opp. Qed.

Lemma round_0 : round 0 = 0.
Proof. reflexivity. Qed.

Lemma round_between (w lo hi : Z) :
  round lo = lo -> round hi = hi -> lo <= w <= hi -> lo <= round w <= hi.
Proof.
  intros Hlo Hhi Hw. split.
  - rewrite <- Hlo. apply round_mono. lia.
  - rewrite <- Hhi. apply round_mono. lia.
Qed.

Lemma round_fixed_opp (a : Z) : round a = a -> round (- a) = - a.
Proof. intros H. rewrite round_opp, H. reflexivity. Qed.

Lemma add_finite_value (x y : double) :
  valid x -> valid y -> finite x = true -> not_nan y = true ->
  valid (Double.add x y) /\ not_nan (Double.add x y) = true /\
  value (Double.add x y) =
    if Z.abs (value y) =? inf then value y else round (value x + value y).
Proof. unfold value, round, inf. apply add_finite_l; format_side. Qed.

Lemma ltb_value (x y : double) :
  valid x -> valid y -> not_nan x = true -> not_nan y = true ->
  Double.ltb x y = (value x <? value y).
Proof. unfold value. apply ltb_ord; format_side. Qed.

Lemma leb_value (x y : double) :
  valid x -> valid y -> not_nan x = true -> not_nan y = true ->
  Double.leb x y = (value x <=? value y).
Proof. unfold value. apply leb_ord; format_side. Qed.

Lemma finite_not_nan (x : double) : finite x = true -> not_nan x = true.
Proof. destruct x; try discriminate; reflexivity. Qed.

(** One second, in units of [2^B]. *)
Definition unit : Z := 2 ^ (- B).

Lemma unit_pos : 0 < unit.
Proof. unfold unit. apply pow2_pos. discriminate. Qed.

Lemma quot_range (a u bound : Z) :
  0 < u -> 0 < bound -> - (bound * u) < a < bound * u -> - bound < Z.quot a u < bound.
Proof.
  intros Hu Hb Ha.
  pose proof (Z.quot_rem' a u) as Hqr.
  destruct (Z_le_gt_dec 0 a) as [Hpos|Hneg].
  - pose proof (Z.rem_bound_pos a u Hpos Hu) as Hr.
    generalize dependent (Z.rem a u). generalize dependent (Z.quot a u).
    intros q r Hqr Hr. split.
    + destruct (Z_lt_le_dec (- bound) q) as [|Hc]; [assumption|].
      assert (u * (q + 1) <= u * 0) by (apply Z.mul_le_mono_nonneg_l; lia). lia.
    + destruct (Z_lt_le_dec q bound) as [|Hc]; [assumption|].
      assert (u * bound <= u * q) by (apply Z.mul_le_mono_nonneg_l; lia). lia.
  - pose proof (Z.rem_bound_pos_neg a u Hu ltac:(lia)) as Hr.
    generalize dependent (Z.rem a u). generalize dependent (Z.quot a u).
    intros q r Hqr Hr. split.
    + destruct (Z_lt_le_dec (- bound) q) as [|Hc]; [assumption|].
      assert (u * q <= u * - bound) by (apply Z.mul_le_mono_nonneg_l; lia). lia.
    + destruct (Z_lt_le_dec q bound) as [|Hc]; [assumption|].
      assert (u * 0 <= u * (q - 1)) by (apply Z.mul_le_mono_nonneg_l; lia). lia.
Qed.

(** [static_cast<int>]: the order value, divided by the unit toward
    zero. *)
Lemma to_int_spec (x : double) :
  valid x -> finite x = true ->
  - (2 ^ 31 * unit) < value x < 2 ^ 31 * unit ->
  Double.to_int x = Some (Z.quot (value x) unit).
Proof.
  intros Hv Hf Hb. pose proof unit_pos as HU.
  destruct x as [s|s| |s m e]; try discriminate.
  - cbn [Double.to_int]. unfold value. cbn [ord]. rewrite Z.quot_0_l by lia. reflexivity.
  - destruct (valid_finite_inv _ _ Hprec s m e Hv) as (He & _).
    assert (HeB : 0 <= e - B) by (change (emin Double.prec Double.emax) with (-1074) in He;
                                  cbv [B]; lia).
    pose proof (pow2_pos (e - B) HeB) as HP.
    unfold value in *. cbn [ord] in *. cbn [Double.to_int]. cbv zeta.
    set (c := cond_Zopp s (Zpos m)).
    assert (Hc : cond_Zopp s (Zpos m * 2 ^ (e - B)) = c * 2 ^ (e - B))
      by (unfold c; destruct s; cbn [cond_Zopp]; lia).
    rewrite Hc in *.
    assert (Ht : match e with
                 | Zneg k => Z.quot c (2 ^ Zpos k)
                 | _ => c * 2 ^ e
                 end = Z.quot (c * 2 ^ (e - B)) unit).
    { unfold unit. destruct e as [|k|k].
      - rewrite Z.pow_0_r, Z.mul_1_r. cbn [Z.sub Z.add Z.opp]. 
        symmetry. apply Z.quot_mul. unfold unit in HU. lia.
      - replace (Zpos k - B) with (Zpos k + - B) by lia.
        rewrite Z.pow_add_r, Z.mul_assoc by (cbv [B]; lia).
        symmetry. apply Z.quot_mul. unfold unit in HU. lia.
      - replace (- B) with (Zpos k + (Zneg k - B)) by lia.
        rewrite Z.pow_add_r by lia.
        symmetry. apply Z.quot_mul_cancel_r; [|lia].
        pose proof (pow2_pos (Zpos k) ltac:(lia)). lia. }
    rewrite Ht.
    set (t := Z.quot (c * 2 ^ (e - B)) unit).
    assert (Hrange : - 2 ^ 31 < t < 2 ^ 31).
    { apply quot_range; [exact HU|lia|exact Hb]. }
    destruct (Z.leb_spec (- 2 ^ 31) t); [|lia].
    destruct (Z.ltb_spec t (2 ^ 31)); [|lia].
    reflexivity.
Qed.


(** The constants of the loop, and the largest values the bounds below
    speak of. *)
Definition c30 : double := Double.of_float framesPerSecond.
Definition c05 : double := Double.of_float half_f.

(** The bound on the times: [2^26] seconds. *)
Definition maxTime : double := Double.of_Z 67108864.
Definition maxFrames : double := Double.of_Z 2013265920.
Definition maxFramesHalf : double := Double.add maxFrames c05.

(** [2^-5] seconds, in units of [2^B]. *)
Definition tick : Z := 2 ^ (- B - 5).

Lemma c30_facts : valid c30 /\ finite c30 = true /\ value c30 = 30 * unit.
Proof. repeat split; vm_compute; reflexivity. Qed.

Lemma c05_facts : valid c05 /\ finite c05 = true /\ 2 * value c05 = unit.
Proof. repeat split; vm_compute; reflexivity. Qed.

Lemma maxTime_facts :
  valid maxTime /\ finite maxTime = true /\ value maxTime = 67108864 * unit.
Proof. repeat split; vm_compute; reflexivity. Qed.

Lemma maxFrames_facts :
  valid maxFrames /\ finite maxFrames = true /\ value maxFrames = 2013265920 * unit.
Proof. repeat split; vm_compute; reflexivity. Qed.

Lemma maxFramesHalf_facts :
  valid maxFramesHalf /\ finite maxFramesHalf = true /\
  value maxFramesHalf = 2013265920 * unit + value c05.
Proof. repeat split; vm_compute; reflexivity. Qed.

Lemma int_range_below_inf : 2147483648 * unit < inf.
Proof. vm_compute. reflexivity. Qed.

Lemma tick_facts : 0 < tick /\ 32 * tick = unit.
Proof. split; vm_compute; reflexivity. Qed.

(** The frame number is defined as long as the two times are at most
    [2^26] seconds apart, and it is 0 when the animation has not started
    before the server time. *)
Lemma frame_at_spec (serverTime last : double) :
  valid serverTime -> valid last ->
  finite serverTime = true -> finite last = true ->
  - (67108864 * unit) <= value serverTime - value last <= 67108864 * unit ->
  exists n,
    frame_at serverTime last = Some n /\ 0 <= n /\
    (value serverTime <= value last -> n = 0).
Proof.
  intros VS VL FS FL Hb.
  pose proof unit_pos as HU.
  destruct c30_facts as (V30 & F30 & E30).
  destruct c05_facts as (V05 & F05 & E05).
  destruct maxTime_facts as (VT & FT & ET).
  destruct maxFrames_facts as (VF & FF & EF).
  destruct maxFramesHalf_facts as (VH & FH & EH).
  pose proof int_range_below_inf as HI.
  (* the difference *)
  destruct (sub_finite_value serverTime last VS VL FS FL) as (Vd & Nd & Ed).
  set (d := Double.sub serverTime last) in *.
  assert (Hd : - (67108864 * unit) <= value d <= 67108864 * unit).
  { rewrite Ed. apply round_between; [apply round_fixed_opp| |lia];
      rewrite <- ET; apply round_id; assumption. }
  assert (Fd : finite d = true) by (apply finite_of_value; [exact Nd|lia]).
  (* times 30 *)
  destruct (mul_finite_value c30 d V30 Vd F30 Fd) as (Vp & Np & Ep).
  fold c30 in Vp, Np, Ep.
  set (p := Double.mul c30 d) in *.
  assert (Ep' : value p = round (30 * value d)).
  { rewrite Ep, E30. f_equal.
    replace (30 * unit * value d) with (30 * value d * unit) by ring.
    change (2 ^ (- B)) with unit. apply Z.div_mul. lia. }
  assert (Hp : - (2013265920 * unit) <= value p <= 2013265920 * unit).
  { rewrite Ep'. apply round_between; [apply round_fixed_opp| |lia];
      rewrite <- EF; apply round_id; assumption. }
  assert (Fp : finite p = true) by (apply finite_of_value; [exact Np|lia]).
  (* plus one half *)
  destruct (add_finite_value p c05 Vp V05 Fp (finite_not_nan c05 F05)) as (Vx & Nx & Ex).
  fold c05 in Vx, Nx, Ex.
  set (x := Double.add p c05) in *.
  assert (Ex' : value x = round (value p + value c05)).
  { rewrite Ex. destruct (Z.eqb_spec (Z.abs (value c05)) inf); [lia|reflexivity]. }
  assert (Hx : - (2013265920 * unit) <= value x <= 2013265920 * unit + value c05).
  { rewrite Ex'. apply round_between; [apply round_fixed_opp| |lia].
    - rewrite <- EF; apply round_id; assumption.
    - rewrite <- EH; apply round_id; assumption. }
  assert (Fx : finite x = true) by (apply finite_of_value; [exact Nx|lia]).
  unfold frame_at. fold c30 c05 d p x.
  rewrite (to_int_spec x Vx Fx) by lia.
  eexists. split; [reflexivity|]. split; [lia|].
  intros Hle.
  assert (Hd0 : value d <= 0).
  { rewrite Ed, <- round_0. apply round_mono. lia. }
  assert (Hp0 : value p <= 0).
  { rewrite Ep', <- round_0. apply round_mono. lia. }
  assert (Hx0 : value x <= value c05).
  { rewrite Ex'. rewrite <- (round_id c05 V05 F05) at 2. apply round_mono. lia. }
  assert (Z.quot (value x) unit <= 0); [|lia].
  destruct (Z_le_gt_dec 0 (value x)) as [Hpos|Hneg].
  - rewrite Z.quot_small by lia. lia.
  - apply Z.quot_le_upper_bound; lia.
Qed.


Lemma add_tick_progress (a : Z) :
  0 <= a <= 67108864 * unit -> a < round (a + tick).
Proof.
  intros Ha. pose proof unit_pos as HU. destruct tick_facts as [Ht0 Ht].
  pose proof int_range_below_inf as HI.
  unfold round. apply Rnd_add_gt; try format_side; try lia.
  - fold inf. lia.
  - apply Z.le_lt_trans with (2 ^ (- B - 26)).
    + apply pow2_le. split; [apply Z.lt_le_incl, kexp_pos; format_side|].
      apply kexp_le; try format_side.
      split; [lia|].
      replace (- B - 26 + Double.prec) with (27 + - B) by reflexivity.
      rewrite pow2_split by (cbv [B]; lia). fold unit.
      change (2 ^ 27) with 134217728. lia.
    + replace (2 * tick) with (2 ^ (- B - 4)).
      * apply pow2_lt. cbv [B]. lia.
      * unfold tick. replace (- B - 4) with (1 + (- B - 5)) by lia.
        rewrite pow2_split by (cbv [B]; lia). reflexivity.
Qed.

(** One turn of the loop moves the start of the animation forward, and not
    past the server time. *)
Lemma min_add_progress (serverTime last len : double) :
  valid serverTime -> valid last -> valid len ->
  finite serverTime = true -> finite last = true -> not_nan len = true ->
  0 <= value last -> value last < value serverTime ->
  value serverTime <= 67108864 * unit ->
  tick <= value len ->
  let last' := Double.min serverTime (Double.add last len) in
  valid last' /\ finite last' = true /\
  value last < value last' <= value serverTime.
Proof.
  intros VS VL Vl FS FL Nl HL0 HLS HS Hlen last'.
  pose proof unit_pos as HU. destruct tick_facts as [Ht0 Ht].
  pose proof int_range_below_inf as HI.
  destruct (add_finite_value last len VL Vl FL Nl) as (Va & Na & Ea).
  set (a := Double.add last len) in *.
  assert (Hgt : value last < value a).
  { rewrite Ea. destruct (Z.eqb_spec (Z.abs (value len)) inf) as [E|_].
    - pose proof (value_finite last VL FL). lia.
    - apply Z.lt_le_trans with (round (value last + tick)).
      + apply add_tick_progress. lia.
      + apply round_mono. lia. }
  unfold last', Double.min. fold a.
  rewrite (ltb_value a serverTime Va VS Na (finite_not_nan _ FS)).
  destruct (Z.ltb_spec (value a) (value serverTime)) as [Hlt|Hge].
  - split; [exact Va|]. split; [|lia].
    apply finite_of_value; [exact Na|]. pose proof (value_finite serverTime VS FS). lia.
  - split; [exact VS|]. split; [exact FS|]. lia.
Qed.


(** The unit of the order values of [float]: [2^B32]. *)
Definition B32 : Z := -400.

Lemma Hprec32 : 0 < Single.prec.
Proof. reflexivity. Qed.

Lemma Hemax32 : Single.prec < Single.emax.
Proof. reflexivity. Qed.

Lemma HB32 : B32 < emin Single.prec Single.emax.
Proof. reflexivity. Qed.

Lemma HB2_32 : B32 <= - 2 * (Single.emax + Single.prec).
Proof. discriminate. Qed.

Ltac single_side := first [exact Hprec32 | exact Hemax32 | exact HB32 | exact HB2_32].

(** A [float] of at least [2^-5] is a [double] of at least [2^-5]. *)
Lemma of_float_lower (r : Single.float) (W : Z) :
  2 ^ (- 5 - B32) <= W ->
  encodes Single.prec Single.emax B32 false W r ->
  valid (Double.of_float r) /\ not_nan (Double.of_float r) = true /\
  tick <= value (Double.of_float r).
Proof.
  intros HW [Vr Hr].
  pose proof (pow2_pos (- 5 - B32) ltac:(discriminate)) as HP.
  destruct r as [s|s| |s m e]; try contradiction.
  - destruct Hr as [_ Hr]. lia.
  - destruct Hr as [-> _]. split; [reflexivity|]. split; [reflexivity|].
    apply Z.leb_le. vm_compute. reflexivity.
  - destruct Hr as (-> & Hm & _).
    destruct (valid_finite_inv _ _ Hprec32 false m e Vr) as (He & _).
    change (emin Single.prec Single.emax) with (-149) in He.
    cbn [Double.of_float cond_Zopp].
    destruct (binary_normalize_rounded Double.prec Double.emax B Hprec Hemax HB (Zpos m) e false)
      as (V & N & O); [cbv [B]; lia|].
    split; [exact V|]. split; [exact N|].
    unfold value. rewrite O. fold (round (Zpos m * 2 ^ (e - B))).
    assert (Hscale : Zpos m * 2 ^ (e - B) = W * 2 ^ (B32 - B)).
    { rewrite <- Hm, <- Z.mul_assoc, <- pow2_split by (cbv [B B32]; lia).
      f_equal. f_equal. lia. }
    assert (Htick : tick = 2 ^ (- 5 - B32) * 2 ^ (B32 - B)).
    { unfold tick. rewrite <- pow2_split by (cbv [B B32]; lia). f_equal. }
    assert (Hrt : round tick = tick) by (vm_compute; reflexivity).
    rewrite <- Hrt. apply round_mono. rewrite Hscale, Htick.
    apply Z.mul_le_mono_nonneg_r; [|exact HW].
    apply Z.lt_le_incl, pow2_pos. discriminate.
Qed.

(** The length of one animation, [framesPerDirection / 30.f] seconds, is at
    least [2^-5] seconds (or infinite). *)
Lemma animation_length_spec (framesPerDirection : Z) :
  1 <= framesPerDirection ->
  valid (animation_length framesPerDirection) /\
  not_nan (animation_length framesPerDirection) = true /\
  tick <= value (animation_length framesPerDirection).
Proof.
  intros Hf. unfold animation_length.
  destruct (binary_normalize_rounded Single.prec Single.emax B32 Hprec32 Hemax32 HB32
              framesPerDirection 0 false) as (Vx & Nx & Ox); [discriminate|].
  fold (Single.of_Z framesPerDirection) in Vx, Nx, Ox.
  assert (Hone : 2 ^ (- B32) <= ord Single.emax B32 (Single.of_Z framesPerDirection)).
  { rewrite Ox.
    replace (2 ^ (- B32)) with (Rnd Single.prec Single.emax B32 (1 * 2 ^ (0 - B32)))
      by (vm_compute; reflexivity).
    apply Rnd_mono; try single_side.
    apply Z.mul_le_mono_nonneg_r; [|lia]. apply Z.lt_le_incl, pow2_pos. discriminate. }
  pose proof (pow2_pos (- B32) ltac:(discriminate)) as HP.
  destruct (Single.of_Z framesPerDirection) as [s|s| |s mx ex]; try discriminate.
  - cbn [ord] in Hone. lia.
  - destruct s.
    + cbn [ord cond_Zopp] in Hone.
      pose proof (INF_pos Single.prec Single.emax B32 Hprec32 Hemax32 HB32). lia.
    + split; [reflexivity|]. split; [reflexivity|].
      apply Z.leb_le. vm_compute. reflexivity.
  - destruct s; cbn [ord cond_Zopp] in Hone; [lia|].
    change framesPerSecond with (S754_finite false 15728640 (-19)).
    destruct (valid_finite_inv _ _ Hprec32 false mx ex Vx) as (Hex & _).
    change (emin Single.prec Single.emax) with (-149) in Hex.
    assert (Hdig : 1 <= Zdigits2 (Zpos mx) + ex).
    { pose proof (Zdigits2_upper (Zpos mx) ltac:(lia)) as Hu.
      pose proof (Zdigits2_nonneg (Zpos mx)) as Hd0.
      destruct (Z_le_gt_dec 1 (Zdigits2 (Zpos mx) + ex)) as [|Hc]; [assumption|].
      exfalso.
      assert (Hlt : Zpos mx * 2 ^ (ex - B32) < 2 ^ Zdigits2 (Zpos mx) * 2 ^ (ex - B32)).
      { apply Z.mul_lt_mono_pos_r; [apply pow2_pos; cbv [B32]; lia|exact Hu]. }
      rewrite <- pow2_split in Hlt by (cbv [B32]; lia).
      assert (Hle : 2 ^ (Zdigits2 (Zpos mx) + (ex - B32)) <= 2 ^ (- B32)).
      { apply pow2_le. cbv [B32]. lia. }
      lia. }
    destruct (div_finite_lower Single.prec Single.emax B32 Hprec32 Hemax32 HB32 HB2_32
                false false mx 15728640 ex (-19) Vx eq_refl) as (W & HW & Henc).
    { change (Zdigits2 15728640) with 24. change (emin Single.prec Single.emax) with (-149).
      change Single.prec with 24. lia. }
    cbn [xorb] in Henc.
    apply (of_float_lower _ W); [|exact Henc].
    apply Z.le_trans with (2 := HW). apply pow2_le.
    change (Zdigits2 15728640) with 24. cbv [B32]. lia.
Qed.


(** The loop is left after finitely many turns: the start of the animation
    moves toward the server time by at least one double each turn. *)
Lemma animation_loop_terminates (framesPerDirection numVariants : Z) (rand : nat -> Z)
  (serverTime : double) :
  1 <= framesPerDirection -> numVariants <> 0 ->
  valid serverTime -> finite serverTime = true ->
  0 <= value serverTime <= 67108864 * unit ->
  forall mu, 0 <= mu ->
  forall (k : nat) (variant : Z) (last : double),
    valid last -> finite last = true -> 0 <= value last <= 67108864 * unit ->
    value serverTime - value last <= mu ->
    exists fuel frame u',
      animation_loop fuel framesPerDirection numVariants rand serverTime k
                     (mkUnit variant last) = Finished frame u' /\
      0 <= frame < framesPerDirection.
Proof.
  intros Hf Hnv VS FS HS.
  destruct (animation_length_spec framesPerDirection Hf) as (Vlen & Nlen & Hlen).
  assert (Hturn : forall (k : nat) (variant : Z) (last : double),
             valid last -> finite last = true -> 0 <= value last <= 67108864 * unit ->
             (exists frame,
                 animation_loop 1 framesPerDirection numVariants rand serverTime k
                                (mkUnit variant last) = Finished frame (mkUnit variant last) /\
                 0 <= frame < framesPerDirection) \/
             (value last < value serverTime /\
              forall fuel,
                animation_loop (S fuel) framesPerDirection numVariants rand serverTime k
                               (mkUnit variant last) =
                animation_loop fuel framesPerDirection numVariants rand serverTime
                  (if variant =? 1 then k else S k)
                  (mkUnit (if variant =? 1 then 0 else Z.rem (rand k) numVariants)
                          (Double.min serverTime
                             (Double.add last (animation_length framesPerDirection)))))).
  { intros k variant last VL FL HL.
    destruct (frame_at_spec serverTime last VS VL FS FL ltac:(lia)) as (n & En & Hn0 & Hz).
    destruct (Z.ltb_spec n framesPerDirection) as [Hlt|Hge].
    - left. exists n. split; [|lia].
      cbn [animation_loop lastAnimationStartTime]. rewrite En.
      destruct (Z.ltb_spec n framesPerDirection); [reflexivity|lia].
    - right. split.
      + destruct (Z_lt_le_dec (value last) (value serverTime)) as [|Hc]; [assumption|].
        specialize (Hz Hc). lia.
      + intros fuel. cbn [animation_loop lastAnimationStartTime currentAnimationVariant].
        rewrite En.
        destruct (Z.ltb_spec n framesPerDirection); [lia|].
        destruct (variant =? 1); [reflexivity|].
        destruct (Z.eqb_spec numVariants 0); [contradiction|reflexivity]. }
  intros mu Hmu. pattern mu. apply natlike_ind; [| |exact Hmu]; clear mu Hmu.
  - intros k variant last VL FL HL Hd.
    destruct (Hturn k variant last VL FL HL) as [(frame & E & Hfr)|[Hlt _]]; [|lia].
    exists 1%nat, frame, (mkUnit variant last). split; assumption.
  - intros mu Hmu IH k variant last VL FL HL Hd.
    destruct (Hturn k variant last VL FL HL) as [(frame & E & Hfr)|[Hlt Hnext]].
    + exists 1%nat, frame, (mkUnit variant last). split; assumption.
    + destruct (min_add_progress serverTime last (animation_length framesPerDirection)
                  VS VL Vlen FS FL Nlen ltac:(lia) Hlt ltac:(lia) Hlen) as (V' & F' & H').
      destruct (IH (if variant =? 1 then k else S k)
                   (if variant =? 1 then 0 else Z.rem (rand k) numVariants)
                   _ V' F' ltac:(lia) ltac:(lia)) as (fuel & frame & u' & E & Hfr).
      exists (S fuel), frame, u'. split; [|exact Hfr].
      rewrite Hnext. exact E.
Qed.

(** With no frame per direction the loop is never left. *)
Lemma animation_loop_no_frames (fuel : nat) (framesPerDirection numVariants : Z)
  (rand : nat -> Z) (serverTime : double) (k : nat) (u : Unit) (frame : Z) (u' : Unit) :
  framesPerDirection <= 0 ->
  animation_loop fuel framesPerDirection numVariants rand serverTime k u <> Finished frame u'.
Proof.
  intros Hf. revert k u.
  induction fuel as [|fuel IH]; intros k u; cbn [animation_loop]; [discriminate|].
  unfold frame_at.
  destruct (Double.to_int _) as [n|]; [|discriminate].
  destruct (Z.ltb_spec (Z.max 0 n) framesPerDirection); [lia|].
  destruct (currentAnimationVariant u =? 1); [apply IH|].
  destruct (numVariants =? 0); [discriminate|apply IH].
Qed.

(** The bound on the times of the theorem below: [2^26] seconds, a little
    more than two years. *)
Definition in_range (serverTime last : double) : Prop :=
  valid serverTime /\ valid last /\
  finite serverTime = true /\ finite last = true /\
  Double.leb Double.zero serverTime = true /\
  Double.leb serverTime maxTime = true /\
  Double.leb last maxTime = true.

(** C10, as the code has it: when the sprite of the current variant has at
    least [kNumFacingDirections] frames and the times are in range (the
    server time between 0 and [2^26] seconds, the start of the animation a
    finite number of at most [2^26] seconds), the loop of [Render] is left
    after finitely many turns, with [0 <= frame < framesPerDirection]; and
    whatever the times, a loop with [framesPerDirection <= 0] is never
    left. *)
Theorem Render_animation_loop_terminates (kNumFacingDirections numFrames : Z)
  (animation : list Z) (rand : nat -> Z) (serverTime : double) (u : Unit) :
  0 < kNumFacingDirections ->
  0 <= currentAnimationVariant u ->
  nth_error animation (Z.to_nat (currentAnimationVariant u)) = Some numFrames ->
  kNumFacingDirections <= numFrames ->
  in_range serverTime (lastAnimationStartTime u) ->
  (exists fuel frame u',
      Render fuel kNumFacingDirections animation rand serverTime u = Finished frame u' /\
      0 <= frame < Z.quot numFrames kNumFacingDirections) /\
  (forall fuel framesPerDirection numVariants k u1 frame u',
      framesPerDirection <= 0 ->
      animation_loop fuel framesPerDirection numVariants rand serverTime k u1
        <> Finished frame u').
Proof.
  intros Hk Hv Hnth Hn (VS & VL & FS & FL & H0 & HS & HL).
  split; [|intros; apply animation_loop_no_frames; assumption].
  pose proof unit_pos as HU.
  destruct maxTime_facts as (VT & FT & ET).
  rewrite (leb_value Double.zero serverTime eq_refl VS eq_refl (finite_not_nan _ FS)) in H0.
  rewrite (leb_value _ _ VS VT (finite_not_nan _ FS) (finite_not_nan _ FT)) in HS.
  rewrite (leb_value _ _ VL VT (finite_not_nan _ FL) (finite_not_nan _ FT)) in HL.
  apply Z.leb_le in H0, HS, HL. rewrite ET in HS, HL.
  change (value Double.zero) with 0 in H0.
  assert (Hfpd : 1 <= Z.quot numFrames kNumFacingDirections).
  { apply Z.quot_le_lower_bound; lia. }
  assert (Hlen : Z.of_nat (length animation) <> 0).
  { destruct animation as [|a l]; [|cbn; lia].
    destruct (Z.to_nat (currentAnimationVariant u)); discriminate. }
  unfold Render.
  destruct (Z.ltb_spec (currentAnimationVariant u) 0); [lia|].
  rewrite Hnth.
  destruct (Z.eqb_spec kNumFacingDirections 0); [lia|].
  rewrite (ltb_value (lastAnimationStartTime u) Double.zero VL eq_refl
             (finite_not_nan _ FL) eq_refl).
  change (value Double.zero) with 0.
  destruct (Z.ltb_spec (value (lastAnimationStartTime u)) 0) as [Hneg|Hpos].
  - apply (animation_loop_terminates _ _ rand serverTime Hfpd Hlen VS FS ltac:(lia)
             0 ltac:(lia) 0%nat (currentAnimationVariant u) serverTime VS FS); lia.
  - destruct u as [variant last]. cbn [lastAnimationStartTime currentAnimationVariant] in *.
    apply (animation_loop_terminates _ _ rand serverTime Hfpd Hlen VS FS ltac:(lia)
             (Z.max 0 (value serverTime - value last)) ltac:(lia) 0%nat variant last VL FL);
      lia.
Qed.

Definition sixteen_frames : list Z := [16].

Definition idle_unit : Unit := mkUnit 0 Double.zero.

Lemma Render_animation_loop_terminates_witness :
  (exists fuel frame u',
      Render fuel 16 sixteen_frames (fun _ => 0) (Double.dec 125 2) idle_unit
        = Finished frame u' /\
      0 <= frame < Z.quot 16 16) /\
  (forall fuel framesPerDirection numVariants k u1 frame u',
      framesPerDirection <= 0 ->
      animation_loop fuel framesPerDirection numVariants (fun _ => 0) (Double.dec 125 2) k u1
        <> Finished frame u').
Proof.
  apply (Render_animation_loop_terminates 16 16 sixteen_frames (fun _ => 0)
           (Double.dec 125 2) idle_unit).
  - lia.
  - cbn. lia.
  - reflexivity.
  - lia.
  - unfold in_range. repeat split; vm_compute; reflexivity.
Defined.

(** The times of the counterexample: [2^60] seconds and 1024 seconds
    later.  At this magnitude two neighbouring doubles are 256 seconds
    apart, and adding the length of an animation changes nothing. *)
Definition far_start : double := Double.of_Z (2 ^ 60).
Definition far_time : double := Double.of_Z (2 ^ 60 + 1024).
Definition far_unit : Unit := mkUnit 0 far_start.

Lemma far_turn :
  frame_at far_time far_start = Some 30720 /\
  Double.min far_time (Double.add far_start (animation_length 1)) = far_start.
Proof. split; vm_compute; reflexivity. Qed.

Lemma far_loop_runs (fuel k : nat) :
  animation_loop fuel 1 1 (fun _ => 0) far_time k far_unit = Running far_unit.
Proof.
  revert k. induction fuel as [|fuel IH]; intros k; [reflexivity|].
  destruct far_turn as [E1 E2].
  unfold far_unit. cbn [animation_loop lastAnimationStartTime currentAnimationVariant].
  rewrite E1, E2. cbn [Z.ltb Z.compare Pos.compare Pos.compare_cont Z.eqb Z.rem Z.quotrem snd].
  apply IH.
Qed.

(** C10, counterexample: a sprite with [kNumFacingDirections] frames, one
    frame per direction, and a loop that is never left. *)
Lemma Render_animation_loop_stuck :
  Z.quot 16 16 = 1 /\
  ~ exists fuel frame u',
      Render fuel 16 sixteen_frames (fun _ => 0) far_time far_unit = Finished frame u'.
Proof.
  split; [reflexivity|].
  intros (fuel & frame & u' & H).
  assert (E : Render fuel 16 sixteen_frames (fun _ => 0) far_time far_unit =
              animation_loop fuel 1 1 (fun _ => 0) far_time 0 far_unit) by reflexivity.
  rewrite E, far_loop_runs in H. discriminate.
Qed.

End AnimationFacts.

(** * Part IX: the estimation query on any window *)

Module WindowFacts.
Import ServerConnection EstimatorFacts Rounding DoubleFacts AnimationFacts.

(** [0 <= x] on [double]. *)
Definition nonneg (x : double) : Prop := Double.leb Double.zero x = true.

(** A connection whose window holds at least as many round trips as
    offsets, and one with fewer. *)
Definition long_pings : Connection :=
  with_window [Double.dec 2000 3] [Double.dec 40 3; Double.dec 60 3].

Definition short_pings : Connection :=
  with_window [Double.dec 2000 3; Double.dec 2010 3] [Double.dec 40 3].

(** The index loop adds all remaining offsets, and as many round trips. *)
Lemma estimate_loop_firstn (c : Connection) (n i : nat) (os ps : double) :
  (i + n)%nat = length (lastTimeOffsets c) ->
  (length (lastTimeOffsets c) <= length (lastPings c))%nat ->
  estimate_loop c n i os ps =
    Some (fold_left Double.add (skipn i (lastTimeOffsets c)) os,
          fold_left Double.add (firstn n (skipn i (lastPings c))) ps).
Proof.
  revert i os ps.
  induction n as [|n IH]; intros i os ps Hlen Hle; cbn [estimate_loop].
  - rewrite skipn_all2 by lia. reflexivity.
  - destruct (nth_error (lastTimeOffsets c) i) as [o|] eqn:Ho.
    2:{ apply nth_error_None in Ho. lia. }
    destruct (nth_error (lastPings c) i) as [p|] eqn:Hp.
    2:{ apply nth_error_None in Hp. lia. }
    rewrite IH by lia.
    rewrite (skipn_cons_nth _ _ _ Ho), (skipn_cons_nth _ _ _ Hp).
    reflexivity.
Qed.

(** With fewer round trips than offsets the loop reads [lastPings] out of
    range. *)
Lemma estimate_loop_out_of_range (c : Connection) (n i : nat) (os ps : double) :
  (i + n)%nat = length (lastTimeOffsets c) ->
  (length (lastPings c) < length (lastTimeOffsets c))%nat ->
  (i <= length (lastPings c))%nat ->
  estimate_loop c n i os ps = None.
Proof.
  revert i os ps.
  induction n as [|n IH]; intros i os ps Hlen Hlt Hi; cbn [estimate_loop]; [lia|].
  destruct (nth_error (lastTimeOffsets c) i) as [o|]; [|reflexivity].
  destruct (nth_error (lastPings c) i) as [p|] eqn:Hp; [|reflexivity].
  apply IH; [lia|exact Hlt|].
  assert (i < length (lastPings c))%nat by (apply nth_error_Some; congruence).
  lia.
Qed.

(** X1: the estimation is defined exactly when [lastPings] holds at least
    as many samples as [lastTimeOffsets]; otherwise the loop, which runs
    over the offsets, reads [lastPings] out of range. *)
Theorem estimate_defined_iff_enough_pings (c : Connection) :
  (exists r, EstimateCurrentPingAndOffset c = Some r) <->
  (length (lastTimeOffsets c) <= length (lastPings c))%nat.
Proof.
  unfold EstimateCurrentPingAndOffset. split.
  - intros [r Hr].
    destruct (Nat.le_gt_cases (length (lastTimeOffsets c)) (length (lastPings c)))
      as [|Hlt]; [assumption|].
    rewrite estimate_loop_out_of_range in Hr by (cbn; lia). discriminate.
  - intros Hle. rewrite estimate_loop_firstn by (cbn; lia). eexists. reflexivity.
Qed.

(** X2: when [lastPings] holds more samples than [lastTimeOffsets], only
    its first [lastTimeOffsets.size()] samples are added, but the sum is
    divided by [lastPings.size()]; the offset is the mean of all offsets. *)
Theorem estimate_sums_leading_pings (c : Connection) :
  (length (lastTimeOffsets c) <= length (lastPings c))%nat ->
  EstimateCurrentPingAndOffset c =
    Some (Double.div (sum_of (firstn (length (lastTimeOffsets c)) (lastPings c)))
                     (Double.of_Z (Z.of_nat (length (lastPings c)))),
          arithmetic_mean (lastTimeOffsets c)).
Proof.
  intros Hle. unfold EstimateCurrentPingAndOffset.
  rewrite estimate_loop_firstn by (cbn; lia). reflexivity.
Qed.

(** Two offsets and one round trip: the second turn of the loop reads
    [lastPings[1]]. *)
Example estimate_short_pings_undefined :
  EstimateCurrentPingAndOffset short_pings = None.
Proof. reflexivity. Qed.

Lemma estimate_sums_leading_pings_witness :
  EstimateCurrentPingAndOffset long_pings =
    Some (Double.div (sum_of (firstn (length (lastTimeOffsets long_pings))
                                     (lastPings long_pings)))
                     (Double.of_Z (Z.of_nat (length (lastPings long_pings)))),
          arithmetic_mean (lastTimeOffsets long_pings)).
Proof.
  apply (estimate_sums_leading_pings long_pings). cbn. lia.
Defined.

(** *** Signs *)

Lemma finite_value_pos (m : positive) (e : Z) :
  valid (S754_finite false m e) -> 0 < value (S754_finite false m e) < inf.
Proof.
  intros V. unfold value, inf. cbn [ord cond_Zopp].
  apply (ord_finite_bounds Double.prec Double.emax B) with (s := false); try format_side.
  exact V.
Qed.

Lemma finite_exponent (s : bool) (m : positive) (e : Z) :
  valid (S754_finite s m e) -> B <= e.
Proof.
  intros V. destruct (valid_finite_inv _ _ Hprec s m e V) as (He & _).
  change (emin Double.prec Double.emax) with (-1074) in He. cbv [B]. lia.
Qed.

Lemma add_finite_is_rounded (sx sy : bool) (mx my : positive) (ex ey : Z) :
  valid (S754_finite sx mx ex) -> valid (S754_finite sy my ey) ->
  rounded Double.prec Double.emax B
    (value (S754_finite sx mx ex) + value (S754_finite sy my ey))
    (Double.add (S754_finite sx mx ex) (S754_finite sy my ey)).
Proof.
  intros Vx Vy. apply add_finite_rounded; try format_side; eapply finite_exponent; eassumption.
Qed.

Lemma nonneg_cases (x : double) :
  valid x -> nonneg x ->
  (exists s, x = S754_zero s) \/ x = S754_infinity false \/
  (exists m e, x = S754_finite false m e).
Proof.
  intros _ H. unfold nonneg in H.
  destruct x as [s|[|]| |[|] m e]; try discriminate; eauto.
Qed.

Lemma nonneg_of_value (x : double) :
  valid x -> not_nan x = true -> 0 <= value x -> nonneg x.
Proof.
  intros V N H. unfold nonneg.
  rewrite (leb_value Double.zero x eq_refl V eq_refl N).
  apply Z.leb_le. exact H.
Qed.

Lemma nonneg_value (x : double) :
  valid x -> nonneg x -> not_nan x = true /\ 0 <= value x.
Proof.
  intros V H.
  assert (N : not_nan x = true) by (destruct x; try reflexivity; discriminate).
  split; [exact N|].
  unfold nonneg in H.
  rewrite (leb_value Double.zero x eq_refl V eq_refl N) in H.
  apply Z.leb_le in H. exact H.
Qed.

Lemma rounded_nonneg (w : Z) (r : double) :
  0 <= w -> rounded Double.prec Double.emax B w r -> nonneg r.
Proof.
  intros Hw (V & N & O).
  apply nonneg_of_value; [exact V|exact N|].
  unfold value. rewrite O.
  fold (round w). rewrite <- round_0. apply round_mono. exact Hw.
Qed.

Lemma add_nonneg (x y : double) :
  valid x -> valid y -> nonneg x -> nonneg y -> nonneg (Double.add x y).
Proof.
  intros Vx Vy Hx Hy.
  destruct (nonneg_cases x Vx Hx) as [[sx ->]|[->|(mx & ex & ->)]];
  destruct (nonneg_cases y Vy Hy) as [[sy ->]|[->|(my & ey & ->)]];
    try reflexivity.
  - destruct sx, sy; reflexivity.
  - apply (rounded_nonneg (value (S754_finite false mx ex) + value (S754_finite false my ey))).
    + pose proof (finite_value_pos mx ex Vx). pose proof (finite_value_pos my ey Vy). lia.
    + apply add_finite_is_rounded; assumption.
Qed.

Lemma sum_nonneg (xs : list double) (acc : double) :
  Forall valid xs -> Forall nonneg xs -> valid acc -> nonneg acc ->
  valid (fold_left Double.add xs acc) /\ nonneg (fold_left Double.add xs acc).
Proof.
  revert acc. induction xs as [|x xs IH]; intros acc Vs Ns Va Na; cbn [fold_left].
  - split; assumption.
  - inversion Vs; subst. inversion Ns; subst.
    apply IH; try assumption.
    + apply valid_add; assumption.
    + apply add_nonneg; assumption.
Qed.

(** A vector size, as a [double]: positive and finite. *)
Lemma size_positive (n : Z) :
  1 <= n < 2 ^ 64 ->
  exists m e, Double.of_Z n = S754_finite false m e /\ valid (Double.of_Z n).
Proof.
  intros Hn.
  destruct (binary_normalize_rounded Double.prec Double.emax B Hprec Hemax HB n 0 false)
    as (V & N & O); [discriminate|].
  fold (Double.of_Z n) in V, N, O. fold (value (Double.of_Z n)) in O.
  fold (round (n * 2 ^ (0 - B))) in O. change (2 ^ (0 - B)) with unit in O.
  pose proof unit_pos as HU.
  assert (Hlo : round (1 * unit) = 1 * unit) by (vm_compute; reflexivity).
  assert (Hhi : round (2 ^ 64 * unit) = 2 ^ 64 * unit) by (vm_compute; reflexivity).
  assert (Hinf : 2 ^ 64 * unit < inf) by (vm_compute; reflexivity).
  assert (Hb : 1 * unit <= value (Double.of_Z n) <= 2 ^ 64 * unit).
  { rewrite O. apply round_between; [exact Hlo|exact Hhi|].
    split; apply Z.mul_le_mono_nonneg_r; lia. }
  clear Hlo Hhi O.
  destruct (Double.of_Z n) as [s|s| |[|] m e]; [| |discriminate N| |].
  - change (value (S754_zero s)) with 0 in Hb. lia.
  - destruct s; change (value (S754_infinity true)) with (- inf) in Hb;
      change (value (S754_infinity false)) with inf in Hb; lia.
  - exfalso. pose proof (finite_value_pos m e V) as Hp.
    change (value (S754_finite true m e)) with (- value (S754_finite false m e)) in Hb.
    lia.
  - exists m, e. split; [reflexivity|exact V].
Qed.

Lemma div_nonneg (x : double) (n : Z) :
  valid x -> nonneg x -> 1 <= n < 2 ^ 64 ->
  nonneg (Double.div x (Double.of_Z n)).
Proof.
  intros Vx Hx Hn.
  destruct (size_positive n Hn) as (my & ey & -> & Vy).
  destruct (nonneg_cases x Vx Hx) as [[sx ->]|[->|(mx & ex & ->)]];
    try reflexivity.
  destruct (div_finite_spec Double.prec Double.emax B Hprec Hemax HB HB2
              false false mx my ex ey Vx Vy) as (Q & _ & _ & _ & _ & V & E).
  cbn [xorb] in E. unfold nonneg, Double.div.
  destruct (SFdiv Double.prec Double.emax _ _) as [s|s| |s m e];
    cbv beta iota in E; try contradiction.
  - reflexivity.
  - destruct E as [-> _]. reflexivity.
  - destruct E as (-> & _). reflexivity.
Qed.

Lemma estimate_ping_nonneg (c : Connection) (filteredPing filteredOffset : double) :
  lastPings c <> [] ->
  length (lastPings c) = length (lastTimeOffsets c) ->
  Z.of_nat (length (lastPings c)) < 2 ^ 64 ->
  Forall valid (lastPings c) ->
  Forall nonneg (lastPings c) ->
  EstimateCurrentPingAndOffset c = Some (filteredPing, filteredOffset) ->
  nonneg filteredPing.
Proof.
  intros Hne Heq Hsz Vp Np E.
  rewrite (estimate_mean c Heq) in E. injection E as <- _.
  unfold arithmetic_mean, sum_of.
  destruct (sum_nonneg (lastPings c) Double.zero Vp Np eq_refl eq_refl) as [Vs Ns].
  apply div_nonneg; [exact Vs|exact Ns|].
  destruct (lastPings c); [contradiction|]. cbn [length] in *. lia.
Qed.

(** X3: on a window that is not empty, when no round trip is negative (or
    NaN) the filtered ping is not negative, and it is no NaN. *)
Theorem filtered_ping_nonneg (c : Connection) (filteredPing filteredOffset : double) :
  lastPings c <> [] ->
  length (lastPings c) = length (lastTimeOffsets c) ->
  Z.of_nat (length (lastPings c)) < 2 ^ 64 ->
  Forall valid (lastPings c) ->
  Forall (fun p => Double.leb Double.zero p = true) (lastPings c) ->
  EstimateCurrentPingAndOffset c = Some (filteredPing, filteredOffset) ->
  Double.leb Double.zero filteredPing = true /\ Double.is_nan filteredPing = false.
Proof.
  intros Hne Heq Hsz Vp Np E.
  pose proof (estimate_ping_nonneg c _ _ Hne Heq Hsz Vp Np E) as H.
  split; [exact H|].
  destruct filteredPing; try reflexivity; discriminate.
Qed.

Lemma filtered_ping_nonneg_witness :
  exists filteredPing filteredOffset,
    EstimateCurrentPingAndOffset scenario = Some (filteredPing, filteredOffset) /\
    Double.leb Double.zero filteredPing = true /\ Double.is_nan filteredPing = false.
Proof.
  eexists _, _. split; [reflexivity|].
  eapply (filtered_ping_nonneg scenario).
  - discriminate.
  - reflexivity.
  - vm_compute. reflexivity.
  - repeat constructor.
  - repeat constructor.
  - reflexivity.
Defined.

(** *** The displayed time and the estimated server time *)

Lemma mul_nonneg (x y : double) :
  valid x -> valid y -> nonneg x -> nonneg y ->
  Double.is_nan (Double.mul x y) = false ->
  nonneg (Double.mul x y).
Proof.
  intros Vx Vy Hx Hy Hn.
  destruct (nonneg_cases x Vx Hx) as [[sx ->]|[->|(mx & ex & ->)]];
  destruct (nonneg_cases y Vy Hy) as [[sy ->]|[->|(my & ey & ->)]];
    try reflexivity; try discriminate.
  destruct (mul_finite_rounded Double.prec Double.emax B Hprec Hemax HB HB2
              false false mx my ex ey Vx Vy) as (V & N & O).
  apply nonneg_of_value; [exact V|exact N|].
  unfold value. fold (Double.mul (S754_finite false mx ex) (S754_finite false my ey)) in O.
  rewrite O. cbn [xorb cond_Zopp].
  fold (round (Zpos mx * Zpos my * 2 ^ (ex + ey - B))).
  rewrite <- round_0. apply round_mono.
  apply Z.mul_nonneg_nonneg; [lia|]. apply Z.pow_nonneg. lia.
Qed.

(** Subtracting what is not negative does not give more. *)
Lemma sub_nonneg_le (a b : double) :
  valid a -> valid b -> nonneg b ->
  Double.is_nan (Double.sub a b) = false ->
  valid (Double.sub a b) /\ not_nan a = true /\
  value (Double.sub a b) <= value a.
Proof.
  intros Va Vb Hb Hn.
  destruct (nonneg_value b Vb Hb) as [Nb Hb0].
  destruct (sub_ord Double.prec Double.emax B Hprec Hemax HB a b Va Vb
              (is_nan_not_nan _ Hn)) as (V & O & Na & _).
  split; [exact V|]. split; [exact Na|].
  unfold value. fold (Double.sub a b) in O. rewrite O.
  fold (value a) (value b). unfold addF. fold inf.
  pose proof (ord_bounds Double.prec Double.emax B Hprec Hemax HB a Va) as Ha.
  pose proof (ord_bounds Double.prec Double.emax B Hprec Hemax HB b Vb) as Hb'.
  fold (value a) inf in Ha. fold (value b) inf in Hb'.
  destruct (Z.eqb_spec (Z.abs (value a)) inf) as [E1|E1]; [lia|].
  destruct (Z.eqb_spec (Z.abs (- value b)) inf) as [E2|E2]; [lia|].
  fold (round (value a + - value b)).
  assert (Fa : finite a = true) by (apply finite_of_value; [exact Na|lia]).
  rewrite <- (round_id a Va Fa) at 2.
  apply round_mono. lia.
Qed.

(** X4: when no round trip is negative, the displayed server time is never
    later than the estimated current server time, the clock reading plus
    the filtered offset. *)
Theorem displayed_time_not_after_estimate (c : Connection)
  (clientTimeSeconds filteredPing filteredOffset displayed : double) :
  lastPings c <> [] ->
  length (lastPings c) = length (lastTimeOffsets c) ->
  Z.of_nat (length (lastPings c)) < 2 ^ 64 ->
  Forall valid (lastTimeOffsets c) ->
  Forall valid (lastPings c) ->
  Forall (fun p => Double.leb Double.zero p = true) (lastPings c) ->
  valid clientTimeSeconds ->
  EstimateCurrentPingAndOffset c = Some (filteredPing, filteredOffset) ->
  GetDisplayedServerTime c clientTimeSeconds = Some displayed ->
  Double.is_nan displayed = false ->
  Double.leb displayed (Double.add clientTimeSeconds filteredOffset) = true.
Proof.
  intros Hne Heq Hsz Vo Vp Np Vt E D Hn.
  pose proof (estimate_ping_nonneg c _ _ Hne Heq Hsz Vp Np E) as Hp.
  destruct (estimate_valid c _ _ Vo Vp E) as [Vfp Vfo].
  unfold GetDisplayedServerTime in D. rewrite E in D. cbv beta iota zeta in D.
  assert (Ed : displayed =
               Double.sub (Double.sub (Double.add clientTimeSeconds filteredOffset)
                                      (Double.mul one_half filteredPing)) kSafetyMargin)
    by congruence.
  clear D. subst displayed.
  set (est := Double.add clientTimeSeconds filteredOffset) in *.
  set (half := Double.mul one_half filteredPing) in *.
  assert (Vest : valid est) by (apply valid_add; assumption).
  assert (Vhalf : valid half) by (apply valid_mul; [reflexivity|assumption]).
  assert (Vk : valid kSafetyMargin) by reflexivity.
  assert (Nk : nonneg kSafetyMargin) by reflexivity.
  destruct (sub_nonneg_le (Double.sub est half) kSafetyMargin
              (valid_sub _ _ Vest Vhalf) Vk Nk Hn) as (V2 & N1 & H2).
  assert (Hn1 : Double.is_nan (Double.sub est half) = false)
    by (destruct (Double.sub est half); try reflexivity; discriminate).
  assert (Hnh : Double.is_nan half = false).
  { destruct half; try reflexivity.
    destruct est; discriminate. }
  assert (Nhalf : nonneg half).
  { apply mul_nonneg; [reflexivity|exact Vfp|reflexivity|exact Hp|exact Hnh]. }
  destruct (sub_nonneg_le est half Vest Vhalf Nhalf Hn1) as (V1 & Nest & H1).
  rewrite (leb_value _ _ V2 Vest (is_nan_not_nan _ Hn) Nest).
  apply Z.leb_le. lia.
Qed.

Lemma displayed_time_not_after_estimate_witness :
  exists filteredPing filteredOffset displayed,
    EstimateCurrentPingAndOffset scenario = Some (filteredPing, filteredOffset) /\
    GetDisplayedServerTime scenario (Double.dec 10000 3) = Some displayed /\
    Double.leb displayed (Double.add (Double.dec 10000 3) filteredOffset) = true.
Proof.
  eexists _, _, _. split; [reflexivity|]. split; [reflexivity|].
  eapply (displayed_time_not_after_estimate scenario (Double.dec 10000 3)).
  - discriminate.
  - reflexivity.
  - vm_compute. reflexivity.
  - repeat constructor.
  - repeat constructor.
  - repeat constructor.
  - reflexivity.
  - reflexivity.
  - reflexivity.
  - reflexivity.
Defined.

End WindowFacts.

(** * Part X: a sequence of writes *)

Module WriteSequenceFacts.
Import ServerConnection WriteFacts.


(** The transport did not take the whole message. *)
Definition short_write (w : World) (message : list byte) : bool :=
  negb (write_returns w message =? Z.of_nat (length message)).

Lemma Write_effect (w : World) (message : list byte) :
  Write message w =
    (tt,
     mkWorld (write_returns w)
             (socket_calls w ++ [CallWrite message; CallFlush])
             (error_log w ++
                if short_write w message
                then [mkLogLine (write_returns w message) (Z.of_nat (length message))]
                else [])).
Proof.
  unfold Write, bind, socket_write, socket_flush, LOG_ERROR, ret, short_write. cbn.
  destruct (write_returns w message =? Z.of_nat (length message)); cbn;
    rewrite <- app_assoc, ?app_nil_r; reflexivity.
Qed.

(** X5: [Write] adds a line to the error log exactly when [socket.write]
    returns another number than the size of the message: fewer bytes, -1, or
    more; when it returns the size, the log stays as it is. *)
Theorem Write_logs_iff_result_differs (w : World) (message : list byte) :
  (error_log (snd (Write message w)) = error_log w <->
   write_returns w message = Z.of_nat (length message)) /\
  (error_log (snd (Write message w)) =
     error_log w ++ [mkLogLine (write_returns w message) (Z.of_nat (length message))] <->
   write_returns w message <> Z.of_nat (length message)).
Proof.
  rewrite Write_effect. cbn [snd error_log]. unfold short_write.
  destruct (Z.eqb_spec (write_returns w message) (Z.of_nat (length message))) as [E|E];
    cbn [negb]; rewrite ?app_nil_r; split; split; intros H; try tauto.
  - exfalso. apply (f_equal (@length _)) in H. rewrite length_app in H. cbn in H. lia.
  - exfalso. apply (f_equal (@length _)) in H. rewrite length_app in H. cbn in H. lia.
Qed.


End WriteSequenceFacts.

(** * Part XI: rendering a unit *)

Module RenderFacts.
Import ClientUnit Rounding DoubleFacts AnimationFacts.

(** The server time is a number: neither NaN nor an infinity. *)
Definition is_time (t : double) : Prop := valid t /\ finite t = true.

(** [Render], called once for each server time of the list, in order; the
    result lists the frames shown. *)
Fixpoint Render_each (fuel : nat) (kNumFacingDirections : Z) (animation : list Z)
  (rand : nat -> Z) (serverTimes : list double) (u : Unit) : option (list Z * Unit) :=
  match serverTimes with
  | [] => Some ([], u)
  | serverTime :: rest =>
      match Render fuel kNumFacingDirections animation rand serverTime u with
      | Finished frame u' =>
          match Render_each fuel kNumFacingDirections animation rand rest u' with
          | Some (frames, u'') => Some (frame :: frames, u'')
          | None => None
          end
      | _ => None
      end
  end.

(** At the start of an animation the frame is 0. *)
Lemma frame_at_start (serverTime : double) :
  is_time serverTime -> frame_at serverTime serverTime = Some 0.
Proof.
  intros [V F]. pose proof unit_pos as HU.
  destruct (frame_at_spec serverTime serverTime V V F F ltac:(lia)) as (n & E & _ & H).
  rewrite E, (H ltac:(lia)). reflexivity.
Qed.

Lemma Render_unfold (fuel : nat) (kNumFacingDirections numFrames : Z) (animation : list Z)
  (rand : nat -> Z) (serverTime : double) (u : Unit) :
  kNumFacingDirections <> 0 ->
  0 <= currentAnimationVariant u ->
  nth_error animation (Z.to_nat (currentAnimationVariant u)) = Some numFrames ->
  Render fuel kNumFacingDirections animation rand serverTime u =
    animation_loop fuel (Z.quot numFrames kNumFacingDirections)
      (Z.of_nat (length animation)) rand serverTime 0
      (if Double.ltb (lastAnimationStartTime u) Double.zero
       then mkUnit (currentAnimationVariant u) serverTime
       else u).
Proof.
  intros Hk Hv Hnth. unfold Render.
  destruct (Z.ltb_spec (currentAnimationVariant u) 0); [lia|].
  rewrite Hnth.
  destruct (Z.eqb_spec kNumFacingDirections 0); [contradiction|reflexivity].
Qed.

Lemma Render_starts (fuel : nat) (kNumFacingDirections numFrames : Z) (animation : list Z)
  (rand : nat -> Z) (serverTime : double) (u : Unit) :
  0 < kNumFacingDirections ->
  0 <= currentAnimationVariant u ->
  nth_error animation (Z.to_nat (currentAnimationVariant u)) = Some numFrames ->
  kNumFacingDirections <= numFrames ->
  is_time serverTime ->
  Double.ltb (lastAnimationStartTime u) Double.zero = true ->
  Render (S fuel) kNumFacingDirections animation rand serverTime u =
    Finished 0 (mkUnit (currentAnimationVariant u) serverTime).
Proof.
  intros Hk Hv Hnth Hn Ht Hneg.
  rewrite (Render_unfold _ _ numFrames) by (try assumption; lia).
  rewrite Hneg. cbn [animation_loop lastAnimationStartTime].
  rewrite (frame_at_start serverTime Ht).
  assert (Hfpd : 1 <= Z.quot numFrames kNumFacingDirections)
    by (apply Z.quot_le_lower_bound; lia).
  destruct (Z.ltb_spec 0 (Z.quot numFrames kNumFacingDirections)); [reflexivity|lia].
Qed.

(** X7: a unit whose animation has no start yet (the constructor leaves -1
    in [lastAnimationStartTime], and any negative number does the same)
    starts its animation at the first call of [Render]: the frame is 0, the
    server time becomes the start of the animation, the variant stays. *)
Theorem Render_starts_animation (fuel : nat) (kNumFacingDirections numFrames : Z)
  (animation : list Z) (rand : nat -> Z) (serverTime : double) (u : Unit) :
  0 < kNumFacingDirections ->
  0 <= currentAnimationVariant u ->
  nth_error animation (Z.to_nat (currentAnimationVariant u)) = Some numFrames ->
  kNumFacingDirections <= numFrames ->
  is_time serverTime ->
  Double.ltb (lastAnimationStartTime u) Double.zero = true ->
  Render (S fuel) kNumFacingDirections animation rand serverTime u =
    Finished 0 (mkUnit (currentAnimationVariant u) serverTime).
Proof. apply Render_starts. Qed.

Lemma Render_starts_animation_witness :
  Render 1 16 sixteen_frames (fun _ => 0) (Double.dec 125 2) (mkUnit 0 (Double.of_Z (-1))) =
    Finished 0 (mkUnit 0 (Double.dec 125 2)).
Proof.
  apply (Render_starts_animation 0 16 16 sixteen_frames (fun _ => 0) (Double.dec 125 2)
           (mkUnit 0 (Double.of_Z (-1)))).
  - lia.
  - cbn. lia.
  - reflexivity.
  - lia.
  - split; reflexivity.
  - reflexivity.
Defined.

(** X8: as long as the server time is negative the animation does not
    advance: every call of [Render] shows frame 0 and starts the animation
    again. *)
Theorem Render_frozen_before_time_zero (fuel : nat) (kNumFacingDirections numFrames : Z)
  (animation : list Z) (rand : nat -> Z) (serverTimes : list double) (u : Unit) :
  0 < kNumFacingDirections ->
  0 <= currentAnimationVariant u ->
  nth_error animation (Z.to_nat (currentAnimationVariant u)) = Some numFrames ->
  kNumFacingDirections <= numFrames ->
  Forall (fun t => is_time t /\ Double.ltb t Double.zero = true) serverTimes ->
  Double.ltb (lastAnimationStartTime u) Double.zero = true ->
  exists u',
    Render_each (S fuel) kNumFacingDirections animation rand serverTimes u =
      Some (map (fun _ => 0) serverTimes, u') /\
    currentAnimationVariant u' = currentAnimationVariant u.
Proof.
  intros Hk Hv Hnth Hn Hts. revert u Hv Hnth.
  induction Hts as [|t ts [Ht Hneg] _ IH]; intros u Hv Hnth Hu.
  - exists u. split; reflexivity.
  - cbn [Render_each map].
    rewrite (Render_starts fuel _ numFrames) by assumption.
    destruct (IH (mkUnit (currentAnimationVariant u) t) Hv Hnth Hneg) as (u' & E & Ev).
    rewrite E. exists u'. split; [reflexivity|exact Ev].
Qed.

Lemma Render_frozen_before_time_zero_witness :
  exists u',
    Render_each 1 16 sixteen_frames (fun _ => 0)
      [Double.dec (-30) 2; Double.dec (-20) 2; Double.dec (-10) 2]
      (mkUnit 0 (Double.of_Z (-1))) =
      Some ([0; 0; 0], u') /\
    currentAnimationVariant u' = 0.
Proof.
  apply (Render_frozen_before_time_zero 0 16 16 sixteen_frames (fun _ => 0)
           [Double.dec (-30) 2; Double.dec (-20) 2; Double.dec (-10) 2]
           (mkUnit 0 (Double.of_Z (-1)))).
  - lia.
  - cbn. lia.
  - reflexivity.
  - lia.
  - repeat constructor.
  - reflexivity.
Defined.

(** X9: when the animation has started after the server time (the estimate
    of the server time went back), [Render] shows frame 0 and leaves the
    unit as it is. *)
Theorem Render_before_animation_start (fuel : nat) (kNumFacingDirections numFrames : Z)
  (animation : list Z) (rand : nat -> Z) (serverTime : double) (u : Unit) :
  0 < kNumFacingDirections ->
  0 <= currentAnimationVariant u ->
  nth_error animation (Z.to_nat (currentAnimationVariant u)) = Some numFrames ->
  kNumFacingDirections <= numFrames ->
  in_range serverTime (lastAnimationStartTime u) ->
  Double.leb serverTime (lastAnimationStartTime u) = true ->
  Render (S fuel) kNumFacingDirections animation rand serverTime u = Finished 0 u.
Proof.
  intros Hk Hv Hnth Hn (VS & VL & FS & FL & H0 & HS & HL) Hle.
  pose proof unit_pos as HU.
  destruct maxTime_facts as (VT & FT & ET).
  rewrite (leb_value Double.zero serverTime eq_refl VS eq_refl (finite_not_nan _ FS)) in H0.
  rewrite (leb_value _ _ VS VT (finite_not_nan _ FS) (finite_not_nan _ FT)) in HS.
  rewrite (leb_value _ _ VL VT (finite_not_nan _ FL) (finite_not_nan _ FT)) in HL.
  rewrite (leb_value _ _ VS VL (finite_not_nan _ FS) (finite_not_nan _ FL)) in Hle.
  apply Z.leb_le in H0, HS, HL, Hle. rewrite ET in HS, HL.
  change (value Double.zero) with 0 in H0.
  rewrite (Render_unfold _ _ numFrames) by (try assumption; lia).
  rewrite (ltb_value (lastAnimationStartTime u) Double.zero VL eq_refl
             (finite_not_nan _ FL) eq_refl).
  change (value Double.zero) with 0.
  destruct (Z.ltb_spec (value (lastAnimationStartTime u)) 0) as [Hneg|_]; [lia|].
  cbn [animation_loop].
  destruct (frame_at_spec serverTime (lastAnimationStartTime u) VS VL FS FL ltac:(lia))
    as (n & E & _ & Hz).
  rewrite E, (Hz Hle).
  assert (Hfpd : 1 <= Z.quot numFrames kNumFacingDirections)
    by (apply Z.quot_le_lower_bound; lia).
  destruct (Z.ltb_spec 0 (Z.quot numFrames kNumFacingDirections)); [reflexivity|lia].
Qed.

Lemma Render_before_animation_start_witness :
  Render 1 16 sixteen_frames (fun _ => 0) (Double.dec 125 2) (mkUnit 0 (Double.dec 200 2)) =
    Finished 0 (mkUnit 0 (Double.dec 200 2)).
Proof.
  apply (Render_before_animation_start 0 16 16 sixteen_frames (fun _ => 0) (Double.dec 125 2)
           (mkUnit 0 (Double.dec 200 2))).
  - lia.
  - cbn. lia.
  - reflexivity.
  - lia.
  - unfold in_range. repeat split; vm_compute; reflexivity.
  - vm_compute. reflexivity.
Defined.

(** *** What the loop keeps *)

Lemma animation_loop_finished (fuel : nat) (framesPerDirection numVariants : Z)
  (rand : nat -> Z) (serverTime : double) (k : nat) (u : Unit) (frame : Z) (u' : Unit) :
  animation_loop fuel framesPerDirection numVariants rand serverTime k u = Finished frame u' ->
  0 <= frame < framesPerDirection /\
  ((forall i, 0 <= rand i) ->
   0 <= currentAnimationVariant u < numVariants ->
   0 <= currentAnimationVariant u' < numVariants).
Proof.
  revert k u. induction fuel as [|fuel IH]; intros k u; cbn [animation_loop]; [discriminate|].
  unfold frame_at.
  destruct (Double.to_int _) as [n|]; [|discriminate].
  destruct (Z.ltb_spec (Z.max 0 n) framesPerDirection) as [Hlt|Hge].
  - intros E. injection E as <- <-. split; [lia|]. intros _ H. exact H.
  - destruct (Z.eqb_spec (currentAnimationVariant u) 1) as [E1|E1].
    + intros E. destruct (IH _ _ E) as [Hf Hv]. split; [exact Hf|].
      intros Hr Hu. apply Hv; [exact Hr|]. cbn [currentAnimationVariant]. lia.
    + destruct (Z.eqb_spec numVariants 0) as [E0|E0]; [discriminate|].
      intros E. destruct (IH _ _ E) as [Hf Hv]. split; [exact Hf|].
      intros Hr Hu. apply Hv; [exact Hr|]. cbn [currentAnimationVariant].
      pose proof (Z.rem_bound_pos (rand k) numVariants (Hr k) ltac:(lia)). lia.
Qed.

(** X10: whenever the loop of [Render] is left, whatever the times, the frame
    is one of the frames of the facing direction, and the frame index handed
    to [DrawSprite], [direction * framesPerDirection + frame], is an index
    of the sprite that was looked up before the loop. *)
Theorem Render_frame_index_within_sprite (fuel : nat) (kNumFacingDirections numFrames : Z)
  (animation : list Z) (rand : nat -> Z) (serverTime : double) (u : Unit)
  (direction frame : Z) (u' : Unit) :
  0 <= currentAnimationVariant u ->
  nth_error animation (Z.to_nat (currentAnimationVariant u)) = Some numFrames ->
  numFrames < 2 ^ 31 ->
  0 <= direction < kNumFacingDirections ->
  Render fuel kNumFacingDirections animation rand serverTime u = Finished frame u' ->
  0 <= frame < Z.quot numFrames kNumFacingDirections /\
  exists frameIndex,
    Render_frameIndex direction (Z.quot numFrames kNumFacingDirections) frame =
      Some frameIndex /\
    0 <= frameIndex < numFrames.
Proof.
  intros Hv Hnth Hsz Hd E.
  rewrite (Render_unfold _ _ numFrames) in E by (try assumption; lia).
  apply animation_loop_finished in E. destruct E as [Hf _].
  split; [exact Hf|].
  set (fpd := Z.quot numFrames kNumFacingDirections) in *.
  assert (Hn0 : 0 <= numFrames).
  { destruct (Z_le_gt_dec 0 numFrames) as [|Hc]; [assumption|].
    assert (fpd <= 0); [|lia].
    unfold fpd. apply Z.quot_le_upper_bound; lia. }
  assert (Hmul : kNumFacingDirections * fpd <= numFrames).
  { unfold fpd. apply Z.mul_quot_le; lia. }
  assert (Hblock : (direction + 1) * fpd <= kNumFacingDirections * fpd).
  { apply Z.mul_le_mono_nonneg_r; lia. }
  assert (Hbase : 0 <= direction * fpd) by (apply Z.mul_nonneg_nonneg; lia).
  unfold Render_frameIndex, int_result.
  destruct (Z.leb_spec (- 2 ^ 31) (direction * fpd)); [|lia].
  destruct (Z.ltb_spec (direction * fpd) (2 ^ 31)); [|lia].
  cbn [andb].
  destruct (Z.leb_spec (- 2 ^ 31) (direction * fpd + frame)); [|lia].
  destruct (Z.ltb_spec (direction * fpd + frame) (2 ^ 31)); [|lia].
  cbn [andb]. eexists. split; [reflexivity|lia].
Qed.

Lemma Render_frame_index_within_sprite_witness :
  0 <= 0 < Z.quot 16 16 /\
  exists frameIndex,
    Render_frameIndex 3 (Z.quot 16 16) 0 = Some frameIndex /\
    0 <= frameIndex < 16.
Proof.
  apply (Render_frame_index_within_sprite 1 16 16 sixteen_frames (fun _ => 0)
           (Double.dec 125 2) (mkUnit 0 (Double.dec 200 2)) 3 0 (mkUnit 0 (Double.dec 200 2))).
  - cbn. lia.
  - reflexivity.
  - lia.
  - lia.
  - vm_compute. reflexivity.
Defined.




(** *** The frame as time advances *)

(** The frame number, in terms of the order values: three roundings, one for
    each operation. *)
Lemma frame_at_value (serverTime last : double) :
  valid serverTime -> valid last ->
  finite serverTime = true -> finite last = true ->
  - (67108864 * unit) <= value serverTime - value last <= 67108864 * unit ->
  frame_at serverTime last =
    Some (Z.max 0
            (Z.quot (round (round (30 * round (value serverTime - value last)) + value c05))
                    unit)).
Proof.
  intros VS VL FS FL Hb.
  pose proof unit_pos as HU.
  destruct c30_facts as (V30 & F30 & E30).
  destruct c05_facts as (V05 & F05 & E05).
  destruct maxTime_facts as (VT & FT & ET).
  destruct maxFrames_facts as (VF & FF & EF).
  destruct maxFramesHalf_facts as (VH & FH & EH).
  pose proof int_range_below_inf as HI.
  destruct (sub_finite_value serverTime last VS VL FS FL) as (Vd & Nd & Ed).
  set (d := Double.sub serverTime last) in *.
  assert (Hd : - (67108864 * unit) <= value d <= 67108864 * unit).
  { rewrite Ed. apply round_between; [apply round_fixed_opp| |lia];
      rewrite <- ET; apply round_id; assumption. }
  assert (Fd : finite d = true) by (apply finite_of_value; [exact Nd|lia]).
  destruct (mul_finite_value c30 d V30 Vd F30 Fd) as (Vp & Np & Ep).
  fold c30 in Vp, Np, Ep.
  set (p := Double.mul c30 d) in *.
  assert (Ep' : value p = round (30 * value d)).
  { rewrite Ep, E30. f_equal.
    replace (30 * unit * value d) with (30 * value d * unit) by ring.
    change (2 ^ (- B)) with unit. apply Z.div_mul. lia. }
  assert (Hp : - (2013265920 * unit) <= value p <= 2013265920 * unit).
  { rewrite Ep'. apply round_between; [apply round_fixed_opp| |lia];
      rewrite <- EF; apply round_id; assumption. }
  assert (Fp : finite p = true) by (apply finite_of_value; [exact Np|lia]).
  destruct (add_finite_value p c05 Vp V05 Fp (finite_not_nan c05 F05)) as (Vx & Nx & Ex).
  fold c05 in Vx, Nx, Ex.
  set (x := Double.add p c05) in *.
  assert (Ex' : value x = round (value p + value c05)).
  { rewrite Ex. destruct (Z.eqb_spec (Z.abs (value c05)) inf); [lia|reflexivity]. }
  assert (Hx : - (2013265920 * unit) <= value x <= 2013265920 * unit + value c05).
  { rewrite Ex'. apply round_between; [apply round_fixed_opp| |lia].
    - rewrite <- EF; apply round_id; assumption.
    - rewrite <- EH; apply round_id; assumption. }
  assert (Fx : finite x = true) by (apply finite_of_value; [exact Nx|lia]).
  unfold frame_at. fold c30 c05 d p x.
  rewrite (to_int_spec x Vx Fx) by lia.
  rewrite Ex', Ep', Ed. reflexivity.
Qed.

Lemma quot_mono (a b u : Z) : 0 < u -> a <= b -> Z.quot a u <= Z.quot b u.
Proof. intros Hu Hab. apply Z.quot_le_mono; lia. Qed.

(** X24: for one start of the animation, the frame number does not go back
    when the server time advances: each of the three roundings and the
    truncation keep the order.  The times are between 0 and [2^26]
    seconds. *)
Theorem frame_never_goes_back (serverTime1 serverTime2 last : double) :
  in_range serverTime1 last -> in_range serverTime2 last ->
  Double.leb Double.zero last = true ->
  Double.leb serverTime1 serverTime2 = true ->
  exists frame1 frame2,
    frame_at serverTime1 last = Some frame1 /\
    frame_at serverTime2 last = Some frame2 /\
    0 <= frame1 <= frame2.
Proof.
  intros (V1 & VL & F1 & FL & H01 & HM1 & HL) (V2 & _ & F2 & _ & H02 & HM2 & _) HL0 H12.
  pose proof unit_pos as HU.
  destruct maxTime_facts as (VT & FT & ET).
  rewrite (leb_value Double.zero _ eq_refl V1 eq_refl (finite_not_nan _ F1)) in H01.
  rewrite (leb_value Double.zero _ eq_refl V2 eq_refl (finite_not_nan _ F2)) in H02.
  rewrite (leb_value Double.zero _ eq_refl VL eq_refl (finite_not_nan _ FL)) in HL0.
  rewrite (leb_value _ _ V1 VT (finite_not_nan _ F1) (finite_not_nan _ FT)) in HM1.
  rewrite (leb_value _ _ V2 VT (finite_not_nan _ F2) (finite_not_nan _ FT)) in HM2.
  rewrite (leb_value _ _ VL VT (finite_not_nan _ FL) (finite_not_nan _ FT)) in HL.
  rewrite (leb_value _ _ V1 V2 (finite_not_nan _ F1) (finite_not_nan _ F2)) in H12.
  apply Z.leb_le in H01, H02, HL0, HM1, HM2, HL, H12. rewrite ET in HM1, HM2, HL.
  change (value Double.zero) with 0 in *.
  rewrite (frame_at_value serverTime1 last V1 VL F1 FL) by lia.
  rewrite (frame_at_value serverTime2 last V2 VL F2 FL) by lia.
  eexists _, _. split; [reflexivity|]. split; [reflexivity|].
  split; [lia|].
  apply Z.max_le_compat_l. apply quot_mono; [exact HU|].
  apply round_mono. apply Z.add_le_mono_r.
  apply round_mono. apply Z.mul_le_mono_nonneg_l; [lia|].
  apply round_mono. lia.
Qed.

Lemma frame_never_goes_back_witness :
  exists frame1 frame2,
    frame_at (Double.dec 125 2) (Double.dec 100 2) = Some frame1 /\
    frame_at (Double.dec 200 2) (Double.dec 100 2) = Some frame2 /\
    0 <= frame1 <= frame2.
Proof.
  apply (frame_never_goes_back (Double.dec 125 2) (Double.dec 200 2) (Double.dec 100 2)).
  - unfold in_range. repeat split; vm_compute; reflexivity.
  - unfold in_range. repeat split; vm_compute; reflexivity.
  - vm_compute. reflexivity.
  - vm_compute. reflexivity.
Defined.

End RenderFacts.

(** * Part XII: the rectangle of a unit *)

Module RectFacts.
Import ClientUnit Rounding DoubleFacts AnimationFacts.

(** [-2^26] seconds. *)
Definition minTime : double := Double.of_Z (-67108864).

Lemma minTime_facts :
  valid minTime /\ finite minTime = true /\ value minTime = - (67108864 * unit).
Proof. repeat split; vm_compute; reflexivity. Qed.

(** The image sizes of a frame are sizes. *)
Definition image_sizes (f : Frame) : Prop :=
  0 <= imageWidth (graphic f) < 2 ^ 31 /\ 0 <= imageHeight (graphic f) < 2 ^ 31 /\
  0 <= imageWidth (shadow f) < 2 ^ 31 /\ 0 <= imageHeight (shadow f) < 2 ^ 31.

(** [static_cast<int>(framesPerSecond * elapsedSeconds + 0.5f)] is defined
    for an elapsed time of at most [2^26] seconds, and has the sign of the
    elapsed time. *)
Lemma elapsed_frames_spec (elapsedSeconds : double) :
  valid elapsedSeconds -> finite elapsedSeconds = true ->
  - (67108864 * unit) <= value elapsedSeconds <= 67108864 * unit ->
  exists n,
    Double.to_int (Double.add (Double.mul (Double.of_float framesPerSecond) elapsedSeconds)
                              (Double.of_float half_f)) = Some n /\
    - 2 ^ 31 < n < 2 ^ 31 /\
    (0 <= value elapsedSeconds -> 0 <= n) /\
    (value elapsedSeconds <= 0 -> n <= 0).
Proof.
  intros Vd Fd Hd.
  pose proof unit_pos as HU.
  destruct c30_facts as (V30 & F30 & E30).
  destruct c05_facts as (V05 & F05 & E05).
  destruct maxFrames_facts as (VF & FF & EF).
  destruct maxFramesHalf_facts as (VH & FH & EH).
  pose proof int_range_below_inf as HI.
  set (d := elapsedSeconds) in *.
  destruct (mul_finite_value c30 d V30 Vd F30 Fd) as (Vp & Np & Ep).
  fold c30 in Vp, Np, Ep.
  set (p := Double.mul c30 d) in *.
  assert (Ep' : value p = round (30 * value d)).
  { rewrite Ep, E30. f_equal.
    replace (30 * unit * value d) with (30 * value d * unit) by ring.
    change (2 ^ (- B)) with unit. apply Z.div_mul. lia. }
  assert (Hp : - (2013265920 * unit) <= value p <= 2013265920 * unit).
  { rewrite Ep'. apply round_between; [apply round_fixed_opp| |lia];
      rewrite <- EF; apply round_id; assumption. }
  assert (Fp : finite p = true) by (apply finite_of_value; [exact Np|lia]).
  destruct (add_finite_value p c05 Vp V05 Fp (finite_not_nan c05 F05)) as (Vx & Nx & Ex).
  fold c05 in Vx, Nx, Ex.
  set (x := Double.add p c05) in *.
  assert (Ex' : value x = round (value p + value c05)).
  { rewrite Ex. destruct (Z.eqb_spec (Z.abs (value c05)) inf); [lia|reflexivity]. }
  assert (Hx : - (2013265920 * unit) <= value x <= 2013265920 * unit + value c05).
  { rewrite Ex'. apply round_between; [apply round_fixed_opp| |lia].
    - rewrite <- EF; apply round_id; assumption.
    - rewrite <- EH; apply round_id; assumption. }
  assert (Fx : finite x = true) by (apply finite_of_value; [exact Nx|lia]).
  fold c30 c05 p x.
  rewrite (to_int_spec x Vx Fx) by lia.
  eexists. split; [reflexivity|].
  split; [apply quot_range; [exact HU|lia|lia]|].
  split.
  - intros H0.
    assert (Hp0 : 0 <= value p).
    { rewrite Ep', <- round_0. apply round_mono. lia. }
    assert (Hx0 : 0 <= value x).
    { rewrite Ex', <- round_0. apply round_mono. lia. }
    apply Z.quot_pos; lia.
  - intros H0.
    assert (Hp0 : value p <= 0).
    { rewrite Ep', <- round_0. apply round_mono. lia. }
    assert (Hx0 : value x <= value c05).
    { rewrite Ex'. rewrite <- (round_id c05 V05 F05) at 2. apply round_mono. lia. }
    destruct (Z_le_gt_dec 0 (value x)) as [Hpos|Hneg].
    + rewrite Z.quot_small by lia. lia.
    + apply Z.quot_le_upper_bound; lia.
Qed.

Lemma int_result_in_range (z : Z) : - 2 ^ 31 <= z < 2 ^ 31 -> int_result z = Some z.
Proof.
  intros H. unfold int_result.
  destruct (Z.leb_spec (- 2 ^ 31) z); [|lia].
  destruct (Z.ltb_spec z (2 ^ 31)); [reflexivity|lia].
Qed.

Lemma frameIndex_at_spec (direction framesPerDirection : Z) (elapsedSeconds : double) :
  valid elapsedSeconds -> finite elapsedSeconds = true ->
  - (67108864 * unit) <= value elapsedSeconds <= 67108864 * unit ->
  1 <= framesPerDirection ->
  0 <= direction -> (direction + 1) * framesPerDirection < 2 ^ 31 ->
  exists n,
    frameIndex_at direction framesPerDirection elapsedSeconds =
      Some (direction * framesPerDirection + Z.rem n framesPerDirection) /\
    (0 <= value elapsedSeconds -> 0 <= n) /\
    (value elapsedSeconds <= 0 -> n <= 0).
Proof.
  intros V F Hb Hf Hd Hsz.
  destruct (elapsed_frames_spec elapsedSeconds V F Hb) as (n & E & Hn & Hpos & Hneg).
  exists n. split; [|split; assumption].
  unfold frameIndex_at. rewrite E.
  destruct (Z.eqb_spec framesPerDirection 0); [lia|].
  destruct (Z.eqb_spec n (- 2 ^ 31)); [lia|]. cbn [andb].
  assert (Hbase : 0 <= direction * framesPerDirection) by (apply Z.mul_nonneg_nonneg; lia).
  assert (Hrem : - framesPerDirection < Z.rem n framesPerDirection < framesPerDirection).
  { pose proof (Z.rem_bound_abs n framesPerDirection ltac:(lia)). lia. }
  rewrite int_result_in_range by lia.
  rewrite int_result_in_range by lia.
  reflexivity.
Qed.

Lemma frames_of_direction (kNumFacingDirections numFrames direction : Z) :
  0 <= direction < kNumFacingDirections -> kNumFacingDirections <= numFrames ->
  1 <= Z.quot numFrames kNumFacingDirections /\
  (direction + 1) * Z.quot numFrames kNumFacingDirections <= numFrames.
Proof.
  intros Hd Hn.
  assert (Hfpd : 1 <= Z.quot numFrames kNumFacingDirections)
    by (apply Z.quot_le_lower_bound; lia).
  split; [exact Hfpd|].
  apply Z.le_trans with (kNumFacingDirections * Z.quot numFrames kNumFacingDirections).
  - apply Z.mul_le_mono_nonneg_r; lia.
  - apply Z.mul_quot_le; lia.
Qed.

(** X12: for an elapsed time between 0 and [2^26] seconds the frame that
    [GetRectInProjectedCoords] reads is a frame of the facing direction: the
    index lies in the block of [framesPerDirection] frames of [direction],
    the frame exists, and the rectangle is defined. *)
Theorem GetRect_frame_of_direction (kNumFacingDirections : Z) (animation : list Sprite)
  (centerProjectedCoord : QPointF) (direction : Z) (u : Unit) (sprite : Sprite)
  (elapsedSeconds : double) (shadow outline : bool) :
  0 <= currentAnimationVariant u ->
  nth_error animation (Z.to_nat (currentAnimationVariant u)) = Some sprite ->
  0 <= direction < kNumFacingDirections ->
  kNumFacingDirections <= NumFrames sprite < 2 ^ 31 ->
  Forall image_sizes sprite ->
  valid elapsedSeconds -> finite elapsedSeconds = true ->
  Double.leb Double.zero elapsedSeconds = true ->
  Double.leb elapsedSeconds maxTime = true ->
  let framesPerDirection := Z.quot (NumFrames sprite) kNumFacingDirections in
  exists frameIndex f rect,
    frameIndex_at direction framesPerDirection elapsedSeconds = Some frameIndex /\
    direction * framesPerDirection <= frameIndex < (direction + 1) * framesPerDirection /\
    frame sprite frameIndex = Some f /\
    GetRectInProjectedCoords kNumFacingDirections animation centerProjectedCoord direction u
      elapsedSeconds shadow outline = Some rect.
Proof.
  intros Hv Hnth Hd Hn Himg V F H0 H1 fpd.
  pose proof unit_pos as HU.
  destruct maxTime_facts as (VT & FT & ET).
  rewrite (leb_value Double.zero _ eq_refl V eq_refl (finite_not_nan _ F)) in H0.
  rewrite (leb_value _ _ V VT (finite_not_nan _ F) (finite_not_nan _ FT)) in H1.
  apply Z.leb_le in H0, H1. rewrite ET in H1. change (value Double.zero) with 0 in H0.
  destruct (frames_of_direction kNumFacingDirections (NumFrames sprite) direction Hd ltac:(lia))
    as [Hfpd Hblock].
  fold fpd in Hfpd, Hblock.
  destruct (frameIndex_at_spec direction fpd elapsedSeconds V F ltac:(lia) Hfpd ltac:(lia)
              ltac:(lia)) as (n & E & Hpos & _).
  specialize (Hpos H0).
  pose proof (Z.rem_bound_pos n fpd Hpos ltac:(lia)) as Hrem.
  set (frameIndex := direction * fpd + Z.rem n fpd) in *.
  assert (Hbase : 0 <= direction * fpd) by (apply Z.mul_nonneg_nonneg; lia).
  assert (Hidx : direction * fpd <= frameIndex < (direction + 1) * fpd)
    by (unfold frameIndex; lia).
  assert (Hframe : exists f, frame sprite frameIndex = Some f).
  { unfold frame. destruct (Z.ltb_spec frameIndex 0); [lia|].
    destruct (nth_error sprite (Z.to_nat frameIndex)) as [f|] eqn:Ef; [eauto|].
    apply nth_error_None in Ef. unfold NumFrames in *. lia. }
  destruct Hframe as [f Ef].
  assert (Hf : image_sizes f).
  { rewrite Forall_forall in Himg. apply Himg.
    unfold frame in Ef. destruct (frameIndex <? 0); [discriminate|].
    eapply nth_error_In; eassumption. }
  destruct Hf as (Hgw & Hgh & Hsw & Hsh).
  assert (Hrect : exists rect,
             GetRectInProjectedCoords kNumFacingDirections animation centerProjectedCoord
               direction u elapsedSeconds shadow outline = Some rect).
  { unfold GetRectInProjectedCoords.
    destruct (Z.ltb_spec (currentAnimationVariant u) 0); [lia|].
    rewrite Hnth.
    destruct (Z.eqb_spec kNumFacingDirections 0); [lia|].
    cbv zeta. fold fpd. rewrite E, Ef.
    destruct f as [g s]. cbn [graphic ClientUnit.shadow] in *.
    destruct shadow, outline; cbn [negb andb];
      rewrite !int_result_in_range by lia; eexists; reflexivity. }
  destruct Hrect as [rect Er].
  exists frameIndex, f, rect. repeat split; try assumption; lia.
Qed.

Definition plain_layer : Layer := mkLayer 10 20 30 40.

Definition plain_frame : Frame := mkFrame plain_layer plain_layer.

(** A sprite of two facing directions with two frames each. *)
Definition four_frames : Sprite := [plain_frame; plain_frame; plain_frame; plain_frame].

Definition center : QPointF := mkQPointF (Double.of_Z 100) (Double.of_Z 100).

Lemma GetRect_frame_of_direction_witness :
  exists frameIndex f rect,
    frameIndex_at 1 (Z.quot (NumFrames four_frames) 2) (Double.dec 125 2) = Some frameIndex /\
    1 * Z.quot (NumFrames four_frames) 2 <= frameIndex
      < (1 + 1) * Z.quot (NumFrames four_frames) 2 /\
    frame four_frames frameIndex = Some f /\
    GetRectInProjectedCoords 2 [four_frames] center 1 (mkUnit 0 Double.zero)
      (Double.dec 125 2) false false = Some rect.
Proof.
  apply (GetRect_frame_of_direction 2 [four_frames] center 1 (mkUnit 0 Double.zero)
           four_frames (Double.dec 125 2) false false).
  - cbn. lia.
  - reflexivity.
  - lia.
  - cbn. lia.
  - repeat constructor; cbn; lia.
  - reflexivity.
  - reflexivity.
  - reflexivity.
  - vm_compute. reflexivity.
Defined.

(** X13: for an elapsed time that is negative (down to [-2^26] seconds) the
    remainder is not positive: the frame index is at most the first index of
    the facing direction and lies in the block of the direction before when
    the remainder is not 0; a negative index, which direction 0 gives, is
    outside the sprite, and the function is undefined. *)
Theorem GetRect_negative_elapsed_time (kNumFacingDirections : Z) (animation : list Sprite)
  (centerProjectedCoord : QPointF) (direction : Z) (u : Unit) (sprite : Sprite)
  (elapsedSeconds : double) (shadow outline : bool) :
  0 <= currentAnimationVariant u ->
  nth_error animation (Z.to_nat (currentAnimationVariant u)) = Some sprite ->
  0 <= direction < kNumFacingDirections ->
  kNumFacingDirections <= NumFrames sprite < 2 ^ 31 ->
  valid elapsedSeconds -> finite elapsedSeconds = true ->
  Double.leb minTime elapsedSeconds = true ->
  Double.leb elapsedSeconds Double.zero = true ->
  let framesPerDirection := Z.quot (NumFrames sprite) kNumFacingDirections in
  exists frameIndex,
    frameIndex_at direction framesPerDirection elapsedSeconds = Some frameIndex /\
    (direction - 1) * framesPerDirection < frameIndex <= direction * framesPerDirection /\
    (frameIndex < 0 ->
     GetRectInProjectedCoords kNumFacingDirections animation centerProjectedCoord direction u
       elapsedSeconds shadow outline = None).
Proof.
  intros Hv Hnth Hd Hn V F H0 H1 fpd.
  pose proof unit_pos as HU.
  destruct minTime_facts as (VT & FT & ET).
  rewrite (leb_value _ Double.zero V eq_refl (finite_not_nan _ F) eq_refl) in H1.
  rewrite (leb_value _ _ VT V (finite_not_nan _ FT) (finite_not_nan _ F)) in H0.
  apply Z.leb_le in H0, H1. rewrite ET in H0. change (value Double.zero) with 0 in H1.
  destruct (frames_of_direction kNumFacingDirections (NumFrames sprite) direction Hd ltac:(lia))
    as [Hfpd Hblock].
  fold fpd in Hfpd, Hblock.
  destruct (frameIndex_at_spec direction fpd elapsedSeconds V F ltac:(lia) Hfpd ltac:(lia)
              ltac:(lia)) as (n & E & _ & Hneg).
  specialize (Hneg H1).
  pose proof (Z.rem_bound_pos_neg n fpd ltac:(lia) Hneg) as Hrem.
  exists (direction * fpd + Z.rem n fpd).
  split; [exact E|]. split; [lia|].
  intros Hlt. unfold GetRectInProjectedCoords.
  destruct (Z.ltb_spec (currentAnimationVariant u) 0); [reflexivity|].
  rewrite Hnth.
  destruct (Z.eqb_spec kNumFacingDirections 0); [reflexivity|].
  cbv zeta. fold fpd. rewrite E. unfold frame.
  destruct (Z.ltb_spec (direction * fpd + Z.rem n fpd) 0); [reflexivity|lia].
Qed.

Lemma GetRect_negative_elapsed_time_witness :
  exists frameIndex,
    frameIndex_at 0 (Z.quot (NumFrames four_frames) 2) (Double.dec (-1) 0) = Some frameIndex /\
    (0 - 1) * Z.quot (NumFrames four_frames) 2 < frameIndex
      <= 0 * Z.quot (NumFrames four_frames) 2 /\
    (frameIndex < 0 ->
     GetRectInProjectedCoords 2 [four_frames] center 0 (mkUnit 0 Double.zero)
       (Double.dec (-1) 0) false false = None).
Proof.
  apply (GetRect_negative_elapsed_time 2 [four_frames] center 0 (mkUnit 0 Double.zero)
           four_frames (Double.dec (-1) 0) false false).
  - cbn. lia.
  - reflexivity.
  - lia.
  - cbn. lia.
  - reflexivity.
  - reflexivity.
  - vm_compute. reflexivity.
  - reflexivity.
Defined.

(** One second before the start, in direction 0: the index is -1. *)
Example GetRect_one_second_early :
  frameIndex_at 0 2 (Double.dec (-1) 0) = Some (-1) /\
  GetRectInProjectedCoords 2 [four_frames] center 0 (mkUnit 0 Double.zero)
    (Double.dec (-1) 0) false false = None.
Proof. split; vm_compute; reflexivity. Qed.

End RectFacts.

(** * Part XIII: the state of a unit *)

Module StateFacts.
Import ClientUnit Rounding DoubleFacts AnimationFacts RenderFacts.

(** [Render] at the very start of the animation. *)
Lemma Render_at_start (fuel : nat) (kNumFacingDirections numFrames : Z) (animation : list Z)
  (rand : nat -> Z) (serverTime : double) (variant : Z) :
  0 < kNumFacingDirections ->
  0 <= variant ->
  nth_error animation (Z.to_nat variant) = Some numFrames ->
  kNumFacingDirections <= numFrames ->
  is_time serverTime ->
  Render (S fuel) kNumFacingDirections animation rand serverTime (mkUnit variant serverTime) =
    Finished 0 (mkUnit variant serverTime).
Proof.
  intros Hk Hv Hnth Hn Ht.
  rewrite (Render_unfold _ _ numFrames) by (try assumption; lia).
  cbn [lastAnimationStartTime currentAnimationVariant].
  assert (E : (if Double.ltb serverTime Double.zero
               then mkUnit variant serverTime else mkUnit variant serverTime) =
              mkUnit variant serverTime) by (destruct (Double.ltb _ _); reflexivity).
  rewrite E. cbn [animation_loop lastAnimationStartTime].
  rewrite (frame_at_start serverTime Ht).
  assert (Hfpd : 1 <= Z.quot numFrames kNumFacingDirections)
    by (apply Z.quot_le_lower_bound; lia).
  destruct (Z.ltb_spec 0 (Z.quot numFrames kNumFacingDirections)); [reflexivity|lia].
Qed.

(** Exact comparison of two points, for the examples. *)
Definition exactly_equal (p q : QPointF) : bool :=
  SFeqb (xp p) (xp q) && SFeqb (yp p) (yp q).

(** An [atan2] for the examples: every speed points to the right. *)
Definition to_the_right (y x : double) : double := Double.zero.

Definition one_variant (a : UnitAnimation.t) : list Sprite :=
  [repeat (mkFrame (mkLayer 0 0 1 1) (mkLayer 0 0 1 1)) 16].

Definition origin_unit : State :=
  mkState QPointF_origin 0 UnitAnimation.Idle (mkUnit 0 (Double.of_Z (-1)))
          (MovementSegment.mk (Double.of_Z (-1)) QPointF_origin QPointF_origin
                              UnitAction.Idle).

Definition walking_unit : State :=
  mkState QPointF_origin 0 UnitAnimation.Idle (mkUnit 0 (Double.of_Z (-1)))
          (MovementSegment.mk (Double.of_Z 1) QPointF_origin
                              (mkQPointF (Double.of_Z 1) (Double.of_Z 0))
                              UnitAction.Other).

(** X14: a new unit faces one of the [kNumFacingDirections] directions, is
    idle, and its first [Render] shows frame 0 of variant 0 and starts the
    animation at the server time of that call. *)
Theorem new_unit_starts_idle (kNumFacingDirections : Z) (rand : nat -> Z) (k : nat)
  (mapCoord0 : QPointF) :
  0 < kNumFacingDirections ->
  (forall i, 0 <= rand i) ->
  exists u,
    ClientUnit kNumFacingDirections rand k mapCoord0 = Some (S k, u) /\
    0 <= direction u < kNumFacingDirections /\
    mapCoord u = mapCoord0 /\
    currentAnimation u = UnitAnimation.Idle /\
    forall (fuel : nat) (animation : list Z) (numFrames : Z) (rand' : nat -> Z)
           (serverTime : double),
      nth_error animation 0 = Some numFrames ->
      kNumFacingDirections <= numFrames ->
      is_time serverTime ->
      Render (S fuel) kNumFacingDirections animation rand' serverTime (animationState u) =
        Finished 0 (mkUnit 0 serverTime).
Proof.
  intros Hk Hr. unfold ClientUnit.
  destruct (Z.eqb_spec kNumFacingDirections 0); [lia|].
  eexists. split; [reflexivity|]. cbn [direction mapCoord currentAnimation animationState].
  split; [apply Z.rem_bound_pos; [apply Hr|exact Hk]|].
  split; [reflexivity|]. split; [reflexivity|].
  intros fuel animation numFrames rand' serverTime Hnth Hn Ht.
  apply (Render_starts fuel _ numFrames); try assumption; try reflexivity.
Qed.

Lemma new_unit_starts_idle_witness :
  exists u,
    ClientUnit 16 (fun _ => 35) 0 QPointF_origin = Some (1%nat, u) /\
    0 <= direction u < 16 /\
    mapCoord u = QPointF_origin /\
    currentAnimation u = UnitAnimation.Idle /\
    forall (fuel : nat) (animation : list Z) (numFrames : Z) (rand' : nat -> Z)
           (serverTime : double),
      nth_error animation 0 = Some numFrames ->
      16 <= numFrames ->
      is_time serverTime ->
      Render (S fuel) 16 animation rand' serverTime (animationState u) =
        Finished 0 (mkUnit 0 serverTime).
Proof.
  apply (new_unit_starts_idle 16 (fun _ => 35) 0 QPointF_origin).
  - lia.
  - intros i. lia.
Defined.

(** X15: [SetCurrentAnimation] is undefined in one case only: the unit has to
    change to an animation that has no variant, and [rand() % size()]
    divides by zero. *)
Theorem SetCurrentAnimation_undefined_iff (animations : UnitAnimation.t -> list Sprite)
  (rand : nat -> Z) (animation : UnitAnimation.t) (serverTime : double) (k : nat)
  (u : State) :
  SetCurrentAnimation animations rand animation serverTime k u = None <->
  currentAnimation u <> animation /\ animations animation = [].
Proof.
  unfold SetCurrentAnimation. split.
  - destruct (UnitAnimation.eqb (currentAnimation u) animation) eqn:E; [discriminate|].
    intros H. split.
    + intros Heq. rewrite Heq in E. destruct animation; discriminate.
    + destruct (animations animation) as [|s l]; [reflexivity|].
      cbn [length] in H.
      destruct (Z.eqb_spec (Z.of_nat (S (length l))) 0); [lia|discriminate].
  - intros [Hne Hnil].
    destruct (UnitAnimation.eqb (currentAnimation u) animation) eqn:E.
    + exfalso. apply Hne. destruct (currentAnimation u), animation; try discriminate; reflexivity.
    + rewrite Hnil. reflexivity.
Qed.

(** X16: setting the animation that the unit has already, at whatever time,
    neither starts it again nor chooses another variant nor calls
    [rand()]: a second call changes nothing. *)
Theorem SetCurrentAnimation_again (animations : UnitAnimation.t -> list Sprite)
  (rand : nat -> Z) (animation : UnitAnimation.t) (serverTime serverTime' : double)
  (k k1 : nat) (u u1 : State) :
  SetCurrentAnimation animations rand animation serverTime k u = Some (k1, u1) ->
  SetCurrentAnimation animations rand animation serverTime' k1 u1 = Some (k1, u1).
Proof.
  unfold SetCurrentAnimation.
  destruct (UnitAnimation.eqb (currentAnimation u) animation) eqn:E.
  - intros H. injection H as <- <-. rewrite E. reflexivity.
  - destruct (Z.of_nat (length (animations animation)) =? 0); [discriminate|].
    intros H. injection H as <- <-. cbn [currentAnimation].
    destruct animation; reflexivity.
Qed.

Lemma SetCurrentAnimation_again_witness :
  SetCurrentAnimation one_variant (fun _ => 35) UnitAnimation.Walk (Double.dec 200 2) 1
    (mkState QPointF_origin 0 UnitAnimation.Walk (mkUnit 0 (Double.dec 125 2))
             (movementSegment origin_unit)) =
  Some (1%nat,
        mkState QPointF_origin 0 UnitAnimation.Walk (mkUnit 0 (Double.dec 125 2))
                (movementSegment origin_unit)).
Proof.
  apply (SetCurrentAnimation_again one_variant (fun _ => 35) UnitAnimation.Walk
           (Double.dec 125 2) (Double.dec 200 2) 0 1 origin_unit).
  reflexivity.
Defined.

(** X17: a change of animation starts the new animation: the variant is one
    of its variants, the start is the server time, and a [Render] at this
    server time shows frame 0 and leaves the unit as it is. *)
Theorem SetCurrentAnimation_starts_animation (kNumFacingDirections : Z)
  (animations : UnitAnimation.t -> list Sprite) (rand : nat -> Z)
  (animation : UnitAnimation.t) (serverTime : double) (k k1 : nat) (u u1 : State) :
  0 < kNumFacingDirections ->
  (forall i, 0 <= rand i) ->
  Forall (fun s => kNumFacingDirections <= NumFrames s) (animations animation) ->
  is_time serverTime ->
  currentAnimation u <> animation ->
  SetCurrentAnimation animations rand animation serverTime k u = Some (k1, u1) ->
  currentAnimation u1 = animation /\
  0 <= currentAnimationVariant (animationState u1)
    < Z.of_nat (length (animations animation)) /\
  lastAnimationStartTime (animationState u1) = serverTime /\
  forall (fuel : nat) (rand' : nat -> Z),
    Render (S fuel) kNumFacingDirections (map NumFrames (animations animation)) rand'
           serverTime (animationState u1) = Finished 0 (animationState u1).
Proof.
  intros Hk Hr Hframes Ht Hne. unfold SetCurrentAnimation.
  destruct (UnitAnimation.eqb (currentAnimation u) animation) eqn:E.
  { exfalso. apply Hne. destruct (currentAnimation u), animation; try discriminate; reflexivity. }
  set (n := Z.of_nat (length (animations animation))).
  destruct (Z.eqb_spec n 0) as [|Hn]; [discriminate|].
  intros H. injection H as <- <-.
  cbn [currentAnimation animationState currentAnimationVariant lastAnimationStartTime].
  assert (Hv : 0 <= Z.rem (rand k) n < n).
  { apply Z.rem_bound_pos; [apply Hr|unfold n in *; lia]. }
  split; [reflexivity|]. split; [exact Hv|]. split; [reflexivity|].
  intros fuel rand'.
  destruct (nth_error (animations animation) (Z.to_nat (Z.rem (rand k) n))) as [s|] eqn:Es.
  2:{ apply nth_error_None in Es. unfold n in *. lia. }
  apply (Render_at_start fuel _ (NumFrames s)); try assumption; try lia.
  - rewrite nth_error_map, Es. reflexivity.
  - rewrite Forall_forall in Hframes. apply Hframes. eapply nth_error_In; eassumption.
Qed.

Lemma SetCurrentAnimation_starts_animation_witness :
  exists k1 u1,
    SetCurrentAnimation one_variant (fun _ => 35) UnitAnimation.Walk (Double.dec 125 2) 0
      origin_unit = Some (k1, u1) /\
    currentAnimation u1 = UnitAnimation.Walk /\
    0 <= currentAnimationVariant (animationState u1)
      < Z.of_nat (length (one_variant UnitAnimation.Walk)) /\
    lastAnimationStartTime (animationState u1) = Double.dec 125 2 /\
    forall (fuel : nat) (rand' : nat -> Z),
      Render (S fuel) 16 (map NumFrames (one_variant UnitAnimation.Walk)) rand'
             (Double.dec 125 2) (animationState u1) = Finished 0 (animationState u1).
Proof.
  eexists _, _. split; [reflexivity|].
  eapply (SetCurrentAnimation_starts_animation 16 one_variant (fun _ => 35)
           UnitAnimation.Walk (Double.dec 125 2) 0 _ origin_unit).
  - lia.
  - intros i. lia.
  - repeat constructor. cbn. lia.
  - split; reflexivity.
  - discriminate.
  - reflexivity.
Defined.

(** *** [UpdateGameState] *)

Lemma SetCurrentAnimation_keeps (animations : UnitAnimation.t -> list Sprite)
  (rand : nat -> Z) (animation : UnitAnimation.t) (serverTime : double) (k k1 : nat)
  (u u1 : State) :
  SetCurrentAnimation animations rand animation serverTime k u = Some (k1, u1) ->
  mapCoord u1 = mapCoord u /\ direction u1 = direction u /\
  movementSegment u1 = movementSegment u /\ currentAnimation u1 = animation.
Proof.
  unfold SetCurrentAnimation.
  destruct (UnitAnimation.eqb (currentAnimation u) animation) eqn:E.
  - intros H. injection H as <- <-. repeat split.
    destruct (currentAnimation u), animation; try discriminate; reflexivity.
  - destruct (Z.of_nat (length (animations animation)) =? 0); [discriminate|].
    intros H. injection H as <- <-. repeat split.
Qed.

Lemma facing_direction_range (kNumFacingDirections : Z) (atan2 : double -> double -> double)
  (speed : QPointF) (d : Z) :
  0 < kNumFacingDirections ->
  facing_direction kNumFacingDirections atan2 speed = Some d ->
  0 <= d < kNumFacingDirections.
Proof.
  intros Hk. unfold facing_direction. cbv zeta.
  destruct (Double.to_int _) as [n|]; [|discriminate].
  intros H. injection H as <-.
  destruct (Z.eqb_spec (Z.max 0 (Z.min kNumFacingDirections n)) kNumFacingDirections); lia.
Qed.

(** The animation that [UpdateGameState] sets. *)
Definition animation_of (QPointF_eq : QPointF -> QPointF -> bool) (segment : MovementSegment.t)
  : UnitAnimation.t :=
  if UnitAction.eqb (MovementSegment.action segment) UnitAction.Building
  then UnitAnimation.Task
  else if QPointF_eq (MovementSegment.speed segment) QPointF_origin
       then UnitAnimation.Idle
       else UnitAnimation.Walk.

Lemma UpdateGameState_keeps (kNumFacingDirections : Z)
  (animations : UnitAnimation.t -> list Sprite) (rand : nat -> Z)
  (atan2 : double -> double -> double) (QPointF_eq : QPointF -> QPointF -> bool)
  (serverTime : double) (k k1 : nat) (u u1 : State) :
  UpdateGameState kNumFacingDirections animations rand atan2 QPointF_eq serverTime k u =
    Some (k1, u1) ->
  movementSegment u1 = movementSegment u /\
  currentAnimation u1 = animation_of QPointF_eq (movementSegment u) /\
  (if negb (QPointF_eq (MovementSegment.speed (movementSegment u)) QPointF_origin)
   then facing_direction kNumFacingDirections atan2
          (MovementSegment.speed (movementSegment u)) = Some (direction u1)
   else direction u1 = direction u).
Proof.
  unfold UpdateGameState, animation_of. cbv zeta.
  destruct (QPointF_eq (MovementSegment.speed (movementSegment u)) QPointF_origin) eqn:Ez;
    cbn [negb].
  - destruct (UnitAction.eqb _ _) eqn:Eb.
    + intros H. apply SetCurrentAnimation_keeps in H.
      cbn [mapCoord direction movementSegment] in H. tauto.
    + destruct (SetCurrentAnimation _ _ _ _ _ _) as [[k' u2]|] eqn:Es; [|discriminate].
      intros H. injection H as <- <-.
      apply SetCurrentAnimation_keeps in Es.
      cbn [mapCoord direction movementSegment currentAnimation] in *. tauto.
  - destruct (facing_direction _ _ _) as [d|] eqn:Ed; [|discriminate].
    destruct (UnitAction.eqb _ _) eqn:Eb;
      intros H; apply SetCurrentAnimation_keeps in H;
      cbn [mapCoord direction movementSegment] in H;
      destruct H as (_ & -> & -> & ->); auto.
Qed.

(** X18: [UpdateGameState] keeps the facing direction one of the
    [kNumFacingDirections] directions, whatever [atan2] returns: the
    direction computed is clamped, and [kNumFacingDirections] itself
    becomes 0. *)
Theorem UpdateGameState_direction_in_range (kNumFacingDirections : Z)
  (animations : UnitAnimation.t -> list Sprite) (rand : nat -> Z)
  (atan2 : double -> double -> double) (QPointF_eq : QPointF -> QPointF -> bool)
  (serverTime : double) (k k1 : nat) (u u1 : State) :
  0 < kNumFacingDirections ->
  0 <= direction u < kNumFacingDirections ->
  UpdateGameState kNumFacingDirections animations rand atan2 QPointF_eq serverTime k u =
    Some (k1, u1) ->
  0 <= direction u1 < kNumFacingDirections.
Proof.
  intros Hk Hd H. apply UpdateGameState_keeps in H. destruct H as (_ & _ & H).
  destruct (negb _).
  - eapply facing_direction_range; eassumption.
  - rewrite H. exact Hd.
Qed.

Lemma UpdateGameState_direction_in_range_witness :
  exists k1 u1,
    UpdateGameState 16 one_variant (fun _ => 35) to_the_right exactly_equal
      (Double.dec 125 2) 0 walking_unit = Some (k1, u1) /\
    0 <= direction u1 < 16.
Proof.
  eexists _, _. split; [vm_compute; reflexivity|].
  eapply (UpdateGameState_direction_in_range 16 one_variant (fun _ => 35) to_the_right
           exactly_equal (Double.dec 125 2) 0 _ walking_unit).
  - lia.
  - cbn. lia.
  - vm_compute. reflexivity.
Defined.

(** X19: within one movement segment, a second [UpdateGameState], at whatever
    server time, does not start the animation again: the animation, its
    variant, its start and the facing direction stay, and [rand()] is not
    called. *)
Theorem UpdateGameState_again (kNumFacingDirections : Z)
  (animations : UnitAnimation.t -> list Sprite) (rand : nat -> Z)
  (atan2 : double -> double -> double) (QPointF_eq : QPointF -> QPointF -> bool)
  (serverTime serverTime' : double) (k k1 : nat) (u u1 : State) :
  UpdateGameState kNumFacingDirections animations rand atan2 QPointF_eq serverTime k u =
    Some (k1, u1) ->
  exists u2,
    UpdateGameState kNumFacingDirections animations rand atan2 QPointF_eq serverTime' k1 u1 =
      Some (k1, u2) /\
    currentAnimation u2 = currentAnimation u1 /\
    animationState u2 = animationState u1 /\
    direction u2 = direction u1 /\
    movementSegment u2 = movementSegment u1.
Proof.
  intros H. apply UpdateGameState_keeps in H. destruct H as (Hseg & Hanim & Hdir).
  unfold UpdateGameState. cbv zeta. rewrite Hseg.
  unfold animation_of in Hanim.
  assert (Hset : forall a m d, currentAnimation u1 = a ->
            SetCurrentAnimation animations rand a serverTime' k1
              (mkState m d (currentAnimation u1) (animationState u1) (movementSegment u)) =
            Some (k1, mkState m d (currentAnimation u1) (animationState u1)
                              (movementSegment u))).
  { intros a m d <-. unfold SetCurrentAnimation. cbn [currentAnimation].
    destruct (currentAnimation u1); reflexivity. }
  destruct (QPointF_eq (MovementSegment.speed (movementSegment u)) QPointF_origin) eqn:Ez;
    cbn [negb] in *.
  - destruct (UnitAction.eqb _ _) eqn:Eb.
    + rewrite (Hset _ _ _ Hanim). eexists. split; [reflexivity|].
      cbn; repeat split; try congruence.
    + rewrite (Hset _ _ _ Hanim). eexists. split; [reflexivity|].
      cbn; repeat split; try congruence.
  - rewrite Hdir.
    destruct (UnitAction.eqb _ _) eqn:Eb;
      rewrite (Hset _ _ _ Hanim); eexists; (split; [reflexivity|]);
      cbn; repeat split; try congruence.
Qed.

Lemma UpdateGameState_again_witness :
  exists k1 u1 u2,
    UpdateGameState 16 one_variant (fun _ => 35) to_the_right exactly_equal
      (Double.dec 125 2) 0 walking_unit = Some (k1, u1) /\
    UpdateGameState 16 one_variant (fun _ => 35) to_the_right exactly_equal
      (Double.dec 200 2) k1 u1 = Some (k1, u2) /\
    currentAnimation u2 = currentAnimation u1 /\
    animationState u2 = animationState u1 /\
    direction u2 = direction u1 /\
    movementSegment u2 = movementSegment u1.
Proof.
  eexists _, _.
  assert (E : UpdateGameState 16 one_variant (fun _ => 35) to_the_right exactly_equal
                (Double.dec 125 2) 0 walking_unit = _) by (vm_compute; reflexivity).
  destruct (UpdateGameState_again 16 one_variant (fun _ => 35) to_the_right exactly_equal
              (Double.dec 125 2) (Double.dec 200 2) 0 _ walking_unit _ E) as (u2 & H).
  exists u2. split; [exact E|exact H].
Defined.

End StateFacts.

(** * Part XIV: the graphics of a unit type *)

Module SingleFacts.
Import Rounding DoubleFacts AnimationFacts.

(** The unit of the order values of [float]. *)
Definition unit32 : Z := 2 ^ (- B32).

Definition value32 (x : Single.float) : Z := ord Single.emax B32 x.

Definition valid32 (x : Single.float) : Prop :=
  valid_binary Single.prec Single.emax x = true.

Lemma unit32_pos : 0 < unit32.
Proof. reflexivity. Qed.

(** An integer below [2^24] is a [float]. *)
Lemma round32_integer (n : Z) :
  - 2 ^ 24 < n < 2 ^ 24 ->
  Rnd Single.prec Single.emax B32 (n * unit32) = n * unit32.
Proof.
  intros Hn. pose proof unit32_pos as HU.
  assert (Hpos : forall V, 0 < V < 2 ^ 24 ->
            Rnd Single.prec Single.emax B32 (V * unit32) = V * unit32).
  { intros V HV. unfold Rnd.
    assert (HW : 0 < V * unit32) by (apply Z.mul_pos_pos; lia).
    rewrite Z.sgn_pos, Z.abs_eq, Z.mul_1_l by lia.
    assert (Hk : kexp Single.prec Single.emax B32 (V * unit32) <= - B32).
    { apply kexp_le; [exact Hprec32|exact HB32| |].
      - split; [exact HW|].
        rewrite pow2_split by (cbv [B32 Single.prec]; lia).
        change (2 ^ Single.prec) with (2 ^ 24). fold unit32.
        rewrite (Z.mul_comm unit32). apply Z.mul_lt_mono_pos_r; lia.
      - change (emin Single.prec Single.emax) with (-149). cbv [B32]. lia. }
    pose proof (kexp_pos Single.prec Single.emax B32 HB32 (V * unit32)) as Hk0.
    set (K := kexp Single.prec Single.emax B32 (V * unit32)) in *.
    assert (Hsplit : V * unit32 = V * 2 ^ (- B32 - K) * 2 ^ K).
    { unfold unit32. rewrite <- Z.mul_assoc, <- pow2_split by lia.
      f_equal. f_equal. lia. }
    assert (HRm : Rm Single.prec Single.emax B32 (V * unit32) = V * unit32).
    { unfold Rm. fold K. rewrite Hsplit at 1. rewrite rne_exact by lia.
      symmetry. exact Hsplit. }
    rewrite HRm.
    assert (Hinf : 2 ^ 24 * unit32 < INF Single.emax B32) by reflexivity.
    assert (V * unit32 < 2 ^ 24 * unit32) by (apply Z.mul_lt_mono_pos_r; lia).
    lia. }
  destruct (Z.lt_trichotomy n 0) as [Hneg|[->|Hp]].
  - replace (n * unit32) with (- (- n * unit32)) by ring.
    rewrite Rnd_opp. rewrite Hpos by lia. reflexivity.
  - reflexivity.
  - apply Hpos. lia.
Qed.

Lemma of_Z_integer (n : Z) :
  - 2 ^ 24 < n < 2 ^ 24 ->
  valid32 (Single.of_Z n) /\ finite (Single.of_Z n) = true /\
  value32 (Single.of_Z n) = n * unit32.
Proof.
  intros Hn. pose proof unit32_pos as HU.
  destruct (binary_normalize_rounded Single.prec Single.emax B32 Hprec32 Hemax32 HB32
              n 0 false) as (V & N & O); [discriminate|].
  fold (Single.of_Z n) in V, N, O. change (2 ^ (0 - B32)) with unit32 in O.
  rewrite round32_integer in O by exact Hn.
  split; [exact V|]. split; [|exact O].
  apply (finite_of_ord Single.emax B32); [exact N|].
  rewrite O.
  assert (Hinf : 2 ^ 24 * unit32 < INF Single.emax B32) by reflexivity.
  assert (n * unit32 < 2 ^ 24 * unit32) by (apply Z.mul_lt_mono_pos_r; lia).
  assert (- 2 ^ 24 * unit32 < n * unit32) by (apply Z.mul_lt_mono_pos_r; lia).
  lia.
Qed.

(** The conversion to [int] of a [float] that is an integer. *)
Lemma to_int_integer (x : Single.float) (n : Z) :
  valid32 x -> finite x = true -> value32 x = n * unit32 ->
  - 2 ^ 31 <= n < 2 ^ 31 ->
  Single.to_int x = Some n.
Proof.
  intros V F E Hn. pose proof unit32_pos as HU.
  destruct x as [s|s| |s m e]; try discriminate.
  - cbn in E. assert (n = 0) by lia. subst n. reflexivity.
  - destruct (valid_finite_inv _ _ Hprec32 s m e V) as (He & _).
    change (emin Single.prec Single.emax) with (-149) in He.
    assert (HeB : 0 <= e - B32) by (cbv [B32]; lia).
    pose proof (pow2_pos (e - B32) HeB) as HP.
    unfold value32 in E. cbn [ord] in E. cbn [Single.to_int]. cbv zeta.
    set (c := cond_Zopp s (Zpos m)) in *.
    assert (Hc : cond_Zopp s (Zpos m * 2 ^ (e - B32)) = c * 2 ^ (e - B32))
      by (unfold c; destruct s; cbn [cond_Zopp]; lia).
    rewrite Hc in E.
    assert (Ht : match e with
                 | Zneg k => Z.quot c (2 ^ Zpos k)
                 | _ => c * 2 ^ e
                 end = n).
    { unfold unit32 in E. destruct e as [|k|k].
      - change (0 - B32) with (- B32) in E.
        rewrite Z.pow_0_r, Z.mul_1_r. apply Z.mul_cancel_r in E; [exact E|].
        fold unit32. lia.
      - replace (Zpos k - B32) with (Zpos k + - B32) in E by lia.
        rewrite Z.pow_add_r, Z.mul_assoc in E by (cbv [B32]; lia).
        apply Z.mul_cancel_r in E; [exact E|]. fold unit32. lia.
      - replace (- B32) with (Zpos k + (Zneg k - B32)) in E by lia.
        rewrite Z.pow_add_r, Z.mul_assoc in E by lia.
        apply Z.mul_cancel_r in E; [|lia].
        rewrite E. apply Z.quot_mul.
        pose proof (pow2_pos (Zpos k) ltac:(lia)). lia. }
    rewrite Ht.
    destruct (Z.leb_spec (- 2 ^ 31) n); [|lia].
    destruct (Z.ltb_spec n (2 ^ 31)); [|lia].
    reflexivity.
Qed.

(** A sum of two integers that stays below [2^24] is exact. *)
Lemma add_integers (a b : Z) :
  - 2 ^ 24 < a < 2 ^ 24 -> - 2 ^ 24 < b < 2 ^ 24 -> - 2 ^ 24 < a + b < 2 ^ 24 ->
  Single.to_int (Single.add (Single.of_Z a) (Single.of_Z b)) = Some (a + b).
Proof.
  intros Ha Hb Hab. pose proof unit32_pos as HU.
  destruct (of_Z_integer a Ha) as (Va & Fa & Ea).
  destruct (of_Z_integer b Hb) as (Vb & Fb & Eb).
  assert (Hinf : 2 ^ 24 * unit32 < INF Single.emax B32) by reflexivity.
  assert (Hlt : forall n, - 2 ^ 24 < n < 2 ^ 24 ->
            - INF Single.emax B32 < n * unit32 < INF Single.emax B32).
  { intros n Hn.
    assert (n * unit32 < 2 ^ 24 * unit32) by (apply Z.mul_lt_mono_pos_r; lia).
    assert (- 2 ^ 24 * unit32 < n * unit32) by (apply Z.mul_lt_mono_pos_r; lia).
    lia. }
  destruct (add_finite_l Single.prec Single.emax B32 Hprec32 Hemax32 HB32
              (Single.of_Z a) (Single.of_Z b) Va Vb Fa)
    as (V & N & O).
  { destruct (Single.of_Z b); try reflexivity; discriminate. }
  fold (Single.add (Single.of_Z a) (Single.of_Z b)) in V, N, O.
  fold (value32 (Single.of_Z a)) (value32 (Single.of_Z b)) in O.
  rewrite Ea, Eb in O.
  pose proof (Hlt b Hb) as Hb'.
  destruct (Z.eqb_spec (Z.abs (b * unit32)) (INF Single.emax B32)) as [Ec|_]; [lia|].
  replace (a * unit32 + b * unit32) with ((a + b) * unit32) in O by ring.
  rewrite round32_integer in O by exact Hab.
  apply to_int_integer; [exact V| |exact O|lia].
  apply (finite_of_ord Single.emax B32); [exact N|].
  rewrite O. apply Hlt. exact Hab.
Qed.

End SingleFacts.

Module LoadFacts.
Import ClientUnit ClientUnitType SingleFacts.

Section Loading.

Variables Path Texture : Type.
Variable parent_path : Path -> Path.
Variable join : Path -> String.string -> Path.
Variable no_texture : Texture.
Variable files : Files Path Texture.
Variable kNumFacingDirections : Z.

Variables graphicsPath cachePath : Path.

(** Whether a call that [Load] made succeeded: loading a texture has no
    result. *)
Definition succeeded (c : Call Path) : bool :=
  match c with
  | CallLoadSpriteAndTexture path cache => fst (sprite_file files path cache)
  | CallLoadTexture _ => true
  end.

Definition is_texture_call (c : Call Path) : bool :=
  match c with CallLoadTexture _ => true | _ => false end.

(** No sprite is loaded after one that could not be loaded. *)
Fixpoint no_load_after_failure (cs : list (Call Path)) : bool :=
  match cs with
  | [] => true
  | c :: rest =>
      if succeeded c then no_load_after_failure rest else forallb is_texture_call rest
  end.

Definition is_builder (type : UnitType) : bool :=
  match type with FemaleVillagerBuilder | MaleVillagerBuilder => true | _ => false end.

Definition has_two_idle_variants (type : UnitType) : bool :=
  match type with Militia | Scout => true | _ => false end.

Definition is_NumUnits (type : UnitType) : bool :=
  match type with NumUnits => true | _ => false end.

(** The frames of the first facing direction of an animation. *)
Definition first_direction_frame (a : SpriteAndTextures Texture) (f : Frame) : Prop :=
  exists i, 0 <= i < Z.quot (NumFrames (sprite a)) kNumFacingDirections /\
            frame (sprite a) i = Some f.

Lemma max_over_frames_spec (s : Sprite) (n : nat) (i maxY : Z) :
  0 <= i -> i + Z.of_nat n <= NumFrames s ->
  exists y,
    max_over_frames s n i maxY = Some y /\ maxY <= y /\
    (forall j f, i <= j < i + Z.of_nat n -> frame s j = Some f -> centerY (graphic f) <= y) /\
    (y = maxY \/
     exists j f, i <= j < i + Z.of_nat n /\ frame s j = Some f /\ centerY (graphic f) = y).
Proof.
  revert i maxY. induction n as [|n IH]; intros i maxY Hi Hn; cbn [max_over_frames].
  - exists maxY. split; [reflexivity|]. split; [lia|]. split; [intros; lia|left; reflexivity].
  - destruct (frame s i) as [f|] eqn:Ef.
    2:{ exfalso. unfold frame in Ef. destruct (Z.ltb_spec i 0); [lia|].
        apply nth_error_None in Ef. unfold NumFrames in Hn. lia. }
    destruct (IH (i + 1) (Z.max maxY (centerY (graphic f))) ltac:(lia) ltac:(lia))
      as (y & E & Hle & Hall & Hex).
    exists y. split; [exact E|]. split; [lia|]. split.
    + intros j g Hj Eg. destruct (Z.eq_dec j i) as [->|Hne].
      * rewrite Ef in Eg. injection Eg as <-. lia.
      * apply (Hall j g); [lia|exact Eg].
    + destruct Hex as [->|(j & g & Hj & Eg & Ey)].
      * destruct (Z.max_spec maxY (centerY (graphic f))) as [[_ ->]|[_ ->]].
        -- right. exists i, f. split; [lia|]. split; [exact Ef|reflexivity].
        -- left. reflexivity.
      * right. exists j, g. split; [lia|]. split; assumption.
Qed.

Lemma max_over_variants_spec (variants : list (SpriteAndTextures Texture)) (maxY : Z) :
  0 < kNumFacingDirections ->
  exists y,
    max_over_variants kNumFacingDirections variants maxY = Some y /\ maxY <= y /\
    (forall a f, In a variants -> first_direction_frame a f -> centerY (graphic f) <= y) /\
    (y = maxY \/
     exists a f, In a variants /\ first_direction_frame a f /\ centerY (graphic f) = y).
Proof.
  intros Hk. revert maxY.
  induction variants as [|a rest IH]; intros maxY; cbn [max_over_variants].
  - exists maxY. split; [reflexivity|]. split; [lia|].
    split; [intros a f []|left; reflexivity].
  - destruct (Z.eqb_spec kNumFacingDirections 0); [lia|].
    set (fpd := Z.quot (NumFrames (sprite a)) kNumFacingDirections).
    assert (Hfpd : 0 <= fpd <= NumFrames (sprite a)).
    { unfold fpd. split.
      - apply Z.quot_pos; [unfold NumFrames; lia|lia].
      - apply Z.quot_le_upper_bound; [lia|]. unfold NumFrames. nia. }
    destruct (max_over_frames_spec (sprite a) (Z.to_nat fpd) 0 maxY ltac:(lia) ltac:(lia))
      as (y1 & E1 & Hle1 & Hall1 & Hex1).
    rewrite E1.
    destruct (IH y1) as (y & E & Hle & Hall & Hex).
    exists y. split; [exact E|]. split; [lia|]. split.
    + intros b f [<-|Hin] Hf.
      * destruct Hf as (i & Hi & Ef). fold fpd in Hi.
        specialize (Hall1 i f ltac:(lia) Ef). lia.
      * apply (Hall b f Hin Hf).
    + destruct Hex as [->|(b & f & Hin & Hf & Ey)].
      * destruct Hex1 as [->|(j & f & Hj & Ef & Ey)]; [left; reflexivity|].
        right. exists a, f. split; [left; reflexivity|]. split; [|exact Ey].
        exists j. fold fpd. split; [lia|exact Ef].
      * right. exists b, f. split; [right; exact Hin|]. split; assumption.
Qed.

Lemma length_resize (n : nat) (v : list (SpriteAndTextures Texture)) :
  length (resize Texture no_texture n v) = n.
Proof.
  unfold resize. rewrite length_app, length_firstn, repeat_length. lia.
Qed.

(** What [Load] leaves, case by case. *)
Lemma Load_outcome (type : UnitType) (s : Loading Path Texture) (ok : bool)
  (s' : Loading Path Texture) :
  Load parent_path join no_texture files kNumFacingDirections type graphicsPath cachePath s =
    Some (ok, s') ->
  exists new,
    calls s' = calls s ++ new /\
    no_load_after_failure new = true /\
    ok = forallb succeeded new && negb (is_NumUnits type) /\
    length (filter is_texture_call new) = (if is_NumUnits type then 0 else 1)%nat /\
    error_log s' = error_log s ++ (if is_NumUnits type then [type] else []) /\
    (if ok
     then max_over_variants kNumFacingDirections (animations (this s') UnitAnimation.Idle) 0 =
            Some (maxCenterY (this s'))
     else maxCenterY (this s') = maxCenterY (this s)) /\
    (if is_NumUnits type then this s' = this s
     else
       length (animations (this s') UnitAnimation.Idle) =
         (if has_two_idle_variants type then 2 else 1)%nat /\
       length (animations (this s') UnitAnimation.Walk) = 1%nat /\
       (if is_builder type
        then length (animations (this s') UnitAnimation.Task) = 1%nat
        else animations (this s') UnitAnimation.Task = animations (this s) UnitAnimation.Task)).
Proof.
  destruct s as [[anims icon maxY] cs log]. intros H.
  destruct type;
  unfold Load, bind, ret, and_then, resize_animation, LoadAnimation, iconTexture_Load,
    LOG_ERROR, set_maxCenterY, update_maxCenterY, set_animation in H;
  cbn -[max_over_variants resize] in H;
  repeat match type of H with
         | context [resize Texture no_texture ?n ?v] =>
             let L := fresh "L" in
             pose proof (length_resize n v) as L;
             destruct (resize Texture no_texture n v) as [|? [|? [|? ?]]];
             try discriminate L; clear L;
             cbn -[max_over_variants resize] in H
         | context [sprite_file files ?p ?q] =>
             destruct (sprite_file files p q) as [[|] ?] eqn:?;
             cbn -[max_over_variants resize] in H
         end;
  try match type of H with
      | context [max_over_variants ?k ?v ?y] =>
          destruct (max_over_variants k v y) as [?|] eqn:?
      end;
  try discriminate H; injection H as <- <-;
  cbn -[max_over_variants resize]; rewrite <- ?app_assoc;
  eexists; (split; [first [reflexivity|symmetry; apply app_nil_r]|]);
  cbn -[max_over_variants resize];
  repeat match goal with
         | E : sprite_file files ?p ?q = _ |- _ => rewrite E; clear E
         end;
  cbn -[max_over_variants resize];
  repeat split; try reflexivity; try assumption; symmetry; apply app_nil_r.
Qed.

Lemma Load_defined (type : UnitType) (s : Loading Path Texture) :
  0 < kNumFacingDirections ->
  exists ok s',
    Load parent_path join no_texture files kNumFacingDirections type graphicsPath cachePath s =
      Some (ok, s').
Proof.
  intros Hk. destruct s as [[anims icon maxY] cs log].
  destruct type;
  unfold Load, bind, ret, and_then, resize_animation, LoadAnimation, iconTexture_Load,
    LOG_ERROR, set_maxCenterY, update_maxCenterY, set_animation;
  cbn -[max_over_variants resize];
  repeat match goal with
         | |- context [resize Texture no_texture ?n ?v] =>
             let L := fresh "L" in
             pose proof (length_resize n v) as L;
             destruct (resize Texture no_texture n v) as [|? [|? [|? ?]]];
             try discriminate L; clear L;
             cbn -[max_over_variants resize]
         | |- context [sprite_file files ?p ?q] =>
             destruct (sprite_file files p q) as [[|] ?];
             cbn -[max_over_variants resize]
         end;
  try match goal with
      | |- context [max_over_variants ?k ?v ?y] =>
          let E := fresh "E" in
          destruct (max_over_variants_spec v y Hk) as (? & E & _); rewrite E
      end;
  eexists _, _; reflexivity.
Qed.

(** X20: [Load] is defined for every unit type; it tries to load no sprite
    after one that could not be loaded, it loads the icon once all the
    same (for [NumUnits] it loads nothing and writes one line to the error
    log), and it returns [true] exactly when every sprite it tried was
    loaded. *)
Theorem Load_stops_at_first_failure (type : UnitType) (s : Loading Path Texture) :
  0 < kNumFacingDirections ->
  exists ok s' new,
    Load parent_path join no_texture files kNumFacingDirections type graphicsPath cachePath s =
      Some (ok, s') /\
    calls s' = calls s ++ new /\
    no_load_after_failure new = true /\
    ok = forallb succeeded new && negb (is_NumUnits type) /\
    length (filter is_texture_call new) = (if is_NumUnits type then 0 else 1)%nat /\
    error_log s' = error_log s ++ (if is_NumUnits type then [type] else []).
Proof.
  intros Hk. destruct (Load_defined type s Hk) as (ok & s' & E).
  destruct (Load_outcome type s ok s' E) as (new & H1 & H2 & H3 & H4 & H5 & _).
  exists ok, s', new. repeat split; assumption.
Qed.

(** X21: after a [Load] that succeeded, [maxCenterY] is the largest
    [graphic.centerY] among the frames of the first facing direction of the
    variants of the idle animation, and 0 when all of them are negative (or
    there is none); other directions and other animations do not count. *)
Theorem Load_maxCenterY (type : UnitType) (s s' : Loading Path Texture) :
  0 < kNumFacingDirections ->
  Load parent_path join no_texture files kNumFacingDirections type graphicsPath cachePath s =
    Some (true, s') ->
  let idle := animations (this s') UnitAnimation.Idle in
  0 <= maxCenterY (this s') /\
  (forall a f, In a idle -> first_direction_frame a f ->
               centerY (graphic f) <= maxCenterY (this s')) /\
  (maxCenterY (this s') = 0 \/
   exists a f, In a idle /\ first_direction_frame a f /\
               centerY (graphic f) = maxCenterY (this s')).
Proof.
  intros Hk E idle.
  destruct (Load_outcome type s true s' E) as (new & _ & _ & _ & _ & _ & Hmax & _).
  cbv beta iota in Hmax. fold idle in Hmax.
  destruct (max_over_variants_spec idle 0 Hk) as (y & Ey & Hle & Hall & Hex).
  rewrite Hmax in Ey. injection Ey as <-.
  split; [exact Hle|]. split; [exact Hall|exact Hex].
Qed.


End Loading.

(** *** An example: a file system in which the second idle sprite is
    missing *)

Definition example_item (y : Z) : SpriteAndTextures nat :=
  mkSpriteAndTextures
    [mkFrame (mkLayer 1 y 3 4) (mkLayer 0 0 0 0);
     mkFrame (mkLayer 1 (y + 2) 3 4) (mkLayer 0 0 0 0)] 1%nat 2%nat.

Definition example_join (p : list String.string) (name : String.string)
  : list String.string := p ++ [name].

Definition all_files : Files (list String.string) nat :=
  mkFiles (fun p c => (true, example_item 7)) (fun p => 5%nat).

Definition idleB_missing : Files (list String.string) nat :=
  mkFiles
    (fun p c =>
       (negb (String.eqb (last p ""%string) "u_inf_militia_idleB_x1.smx"%string),
        example_item 7))
    (fun p => 5%nat).

Definition fresh_type : Loading (list String.string) nat :=
  mkLoading (mkClientUnitType (fun _ => []) 0%nat (-3)) [] [].

Definition graphics : list String.string :=
  ["game"; "resources"; "_common"; "drs"; "graphics"]%string.

Definition cache : list String.string := ["cache"]%string.

Lemma Load_stops_at_first_failure_witness :
  exists ok s' new,
    Load (@removelast _) example_join 0%nat idleB_missing 2 Militia graphics cache fresh_type =
      Some (ok, s') /\
    calls s' = calls fresh_type ++ new /\
    no_load_after_failure _ _ idleB_missing new = true /\
    ok = forallb (succeeded _ _ idleB_missing) new && negb (is_NumUnits Militia) /\
    length (filter (is_texture_call _) new) = (if is_NumUnits Militia then 0 else 1)%nat /\
    error_log s' = error_log fresh_type ++ (if is_NumUnits Militia then [Militia] else []).
Proof.
  apply (Load_stops_at_first_failure _ _ (@removelast _) example_join 0%nat idleB_missing 2
           graphics cache Militia fresh_type).
  lia.
Defined.

Lemma Load_maxCenterY_witness :
  exists s',
    Load (@removelast _) example_join 0%nat all_files 2 Militia graphics cache fresh_type =
      Some (true, s') /\
    0 <= maxCenterY (this s') /\
    (forall a f, In a (animations (this s') UnitAnimation.Idle) ->
                 first_direction_frame _ 2 a f ->
                 centerY (graphic f) <= maxCenterY (this s')) /\
    (maxCenterY (this s') = 0 \/
     exists a f, In a (animations (this s') UnitAnimation.Idle) /\
                 first_direction_frame _ 2 a f /\
                 centerY (graphic f) = maxCenterY (this s')).
Proof.
  eexists. split; [vm_compute; reflexivity|].
  apply (Load_maxCenterY _ _ (@removelast _) example_join 0%nat all_files 2
           graphics cache Militia fresh_type).
  - lia.
  - vm_compute. reflexivity.
Defined.


(** In the example the militia lacks its second idle sprite: the walk
    sprite is not tried, the icon is loaded, [maxCenterY] keeps its old
    value. *)
Example Load_militia_idleB_missing :
  exists s',
    Load (@removelast _) example_join 0%nat idleB_missing 2 Militia graphics cache fresh_type =
      Some (false, s') /\
    calls s' =
      [CallLoadSpriteAndTexture (graphics ++ ["u_inf_militia_idleA_x1.smx"%string])
                                (cache ++ ["u_inf_militia_idleA_x1.smx"%string]);
       CallLoadSpriteAndTexture (graphics ++ ["u_inf_militia_idleB_x1.smx"%string])
                                (cache ++ ["u_inf_militia_idleB_x1.smx"%string]);
       CallLoadTexture ["game"; "widgetui"; "textures"; "ingame"; "units";
                        "008_50730.DDS"]%string] /\
    maxCenterY (this s') = -3.
Proof. eexists. split; [vm_compute; reflexivity|]. split; reflexivity. Qed.

(** *** [GetHealthBarHeightAboveCenter] *)

(** X23: the height of the health bar is [maxCenterY + 10], exactly, as long
    as [maxCenterY] and the sum are below [2^24] in magnitude, where every
    integer is a [float]. *)
Theorem health_bar_height_exact (Texture : Type) (t : ClientUnitType Texture) :
  - 2 ^ 24 < maxCenterY t -> maxCenterY t + 10 < 2 ^ 24 ->
  GetHealthBarHeightAboveCenter t = Some (maxCenterY t + 10).
Proof.
  intros Hlo Hhi. unfold GetHealthBarHeightAboveCenter, kHealthBarOffset.
  apply add_integers; lia.
Qed.

Lemma health_bar_height_exact_witness :
  GetHealthBarHeightAboveCenter (mkClientUnitType (fun _ => []) 0%nat 9) = Some (9 + 10).
Proof.
  apply (health_bar_height_exact nat (mkClientUnitType (fun _ => []) 0%nat 9)); cbn; lia.
Defined.

(** Above [2^24] the sum is rounded, and the largest [int] has no height
    at all: the [float] sum is [2^31]. *)
Example health_bar_height_rounded :
  GetHealthBarHeightAboveCenter (mkClientUnitType (fun _ => []) 0%nat 16777217) =
    Some 16777226 /\
  GetHealthBarHeightAboveCenter (mkClientUnitType (fun _ => []) 0%nat 2147483647) = None.
Proof. split; vm_compute; reflexivity. Qed.

End LoadFacts.
